(** * TIBRA / QuESo: quadrature for embedded solids

    A shallow embedding of the parts of the preprocessor that decide the
    properties stated about it: the moment-fitting point elimination
    (quadrature/moment_fitting_utilities), the tensor-product rule of
    untrimmed cells (quadrature/single_element.hpp), the driver loop
    (QuESo_main.cpp), the ray-casting oracle of the trimmed domain
    (embedding/trimmed_domain.cpp) and the STL reader (io/io_utilities.cpp).

    Numbers.  A C++ [double] is modelled as an exact rational: comparisons
    and products are those of the ordered field, so rounding, overflow to
    infinity and NaN are outside the model.  A [std::size_t] is a binary
    natural number with its wrap-around at 2^64 written out where the
    source multiplies values it was given. *)

From Stdlib Require Import List Bool Arith Lia ZArith NArith QArith Qabs Lqa.
From Stdlib Require Import Permutation Sorted Ascii.
From Stdlib Require String.
Import ListNotations.

(** ** Numbers *)

Definition double := Q.

(** [a < b] on doubles, as a boolean. *)
Definition ltd (a b : double) : bool := negb (Qle_bool b a).

(** [a >= b] on doubles, as a boolean. *)
Definition ged (a b : double) : bool := Qle_bool b a.

Definition SizeType := N.
Definition IndexType := N.

Definition size_modulus : N := (2 ^ 64)%N.
Definition size_mul (a b : SizeType) : SizeType := ((a * b) mod size_modulus)%N.
Definition size_add (a b : SizeType) : SizeType := ((a + b) mod size_modulus)%N.

(** [std::vector::size()] of a list. *)
Definition size {A : Type} (l : list A) : SizeType := N.of_nat (length l).

(** ** Points *)

Record PointType := mkPoint { px : double; py : double; pz : double }.

(** containers/integration_point: a position and a weight. *)
Record IntegrationPoint := mkIntegrationPoint {
  PX : double;
  PY : double;
  PZ : double;
  GetWeight : double }.

Definition SetWeight (p : IntegrationPoint) (w : double) : IntegrationPoint :=
  {| PX := PX p; PY := PY p; PZ := PZ p; GetWeight := w |}.

(** containers/boundary_integration_point: a position on the boundary, the
    normal there and a weight. *)
Record BoundaryIntegrationPoint := mkBoundaryIntegrationPoint {
  Position : PointType;
  Normal : PointType;
  BoundaryWeight : double }.

Definition IntegrationPointVectorType := list IntegrationPoint.
Definition VectorType := list double.
Definition MatrixType := list (list double).

(** The sum of a list of doubles. *)
Definition total (l : list double) : double := fold_right Qplus 0 l.

(** [v.erase(v.begin() + i)]: the element at index [i] is dropped and the
    later ones move one place to the front. *)
Fixpoint erase_at {A : Type} (i : nat) (l : list A) : list A :=
  match l, i with
  | [], _ => []
  | _ :: l', O => l'
  | x :: l', S i' => x :: erase_at i' l'
  end.

(** ** Moment fitting (quadrature/moment_fitting_utilities.cpp) *)

Module MomentFitting.

(** The accessors of [Parameters] the moment fitting reads. *)
Record Parameters := mkParameters {
  Order : SizeType * SizeType * SizeType;
  MomentFittingResidual : double;
  GetPointDistributionFactor : SizeType;
  LowerBound : PointType;
  UpperBound : PointType }.

(** What moment_fitting_utilities.cpp takes from files that are not part of
    the sources at hand: the tolerances of define.hpp, the Legendre basis of
    utilities/polynomial_utilities.h, the solver of solvers/nnls.h and the
    octree of embedding/octree.h.  [nnls A b] is the pair of the residual
    norm the solver returns and the weight vector it fills. *)
Record Kernel := mkKernel {
  EPS1 : double;
  EPS4 : double;
  MIND : double;
  MAXD : double;
  f_x : double -> nat -> double -> double -> double;
  nnls : MatrixType -> VectorType -> double * VectorType;
  Octree : Type;
  MaxRefinementLevel : Octree -> IndexType;
  Refine : IndexType -> IndexType -> Octree -> Octree;
  AddIntegrationPoints : Octree -> SizeType * SizeType * SizeType -> IntegrationPointVectorType }.

Section Definitions.

Variable K : Kernel.
Variable rParam : Parameters.
(** [rElement.GetLowerBoundParam()] and [rElement.GetUpperBoundParam()]. *)
Variable a b : PointType.

Definition order_u : SizeType := fst (fst (Order rParam)).
Definition order_v : SizeType := snd (fst (Order rParam)).
Definition order_w : SizeType := snd (Order rParam).

Definition ffactor : SizeType := 1%N.

(** [(order_u*ffactor + 1) * (order_v*ffactor+1) * (order_w*ffactor + 1)]. *)
Definition number_of_functions : IndexType :=
  size_mul (size_mul (size_add (size_mul order_u ffactor) 1%N)
                     (size_add (size_mul order_v ffactor) 1%N))
           (size_add (size_mul order_w ffactor) 1%N).

Definition allowed_residual : double := MomentFittingResidual rParam.
Definition maximum_iteration : SizeType := 1000%N.

Definition jacobian_x : double := Qabs (px (UpperBound rParam) - px (LowerBound rParam)).
Definition jacobian_y : double := Qabs (py (UpperBound rParam) - py (LowerBound rParam)).
Definition jacobian_z : double := Qabs (pz (UpperBound rParam) - pz (LowerBound rParam)).

(** The loops [for i = 0; i <= order*ffactor; ++i]. *)
Definition indices (order : SizeType) : list nat :=
  seq 0%nat (S (N.to_nat (size_mul order ffactor))).

(** The rows of the fitting matrix, in the order of [row_index]. *)
Definition fitting_matrix (rIntegrationPoint : IntegrationPointVectorType) : MatrixType :=
  flat_map (fun i_x =>
    flat_map (fun i_y =>
      map (fun i_z =>
        map (fun p => f_x K (PX p) i_x (px a) (px b)
                      * f_x K (PY p) i_y (py a) (py b)
                      * f_x K (PZ p) i_z (pz a) (pz b))
            rIntegrationPoint)
        (indices order_w))
      (indices order_v))
    (indices order_u).

(** The loop that writes [weights[i]/(jacobian_x*jacobian_y*jacobian_z)] onto
    point [i], from index [i] on. *)
Fixpoint write_weights (weights : VectorType) (i : nat)
    (pts : IntegrationPointVectorType) : IntegrationPointVectorType :=
  match pts with
  | [] => []
  | p :: pts' =>
      SetWeight p (nth i weights 0 / (jacobian_x * jacobian_y * jacobian_z))
      :: write_weights weights (S i) pts'
  end.

(** [MomentFitting1]: the residual it returns and the points with their new
    weights. *)
Definition MomentFitting1 (rConstantTerms : VectorType)
    (rIntegrationPoint : IntegrationPointVectorType)
    : double * IntegrationPointVectorType :=
  let '(norm, weights) := nnls K (fitting_matrix rIntegrationPoint) rConstantTerms in
  (norm / inject_Z (Z.of_N number_of_functions),
   write_weights weights 0%nat rIntegrationPoint).

(** [std::sort] with the comparison [point_a.GetWeight() > point_b.GetWeight()],
    as an insertion sort: a point goes in front of the first one it is
    heavier than. *)
Fixpoint insert_by_weight (p : IntegrationPoint) (l : IntegrationPointVectorType)
    : IntegrationPointVectorType :=
  match l with
  | [] => [p]
  | q :: l' => if ltd (GetWeight q) (GetWeight p) then p :: q :: l'
               else q :: insert_by_weight p l'
  end.

Definition sort_by_weight (l : IntegrationPointVectorType) : IntegrationPointVectorType :=
  fold_right insert_by_weight [] l.

(** The first scan of a later round: the index of the first point of least
    weight with that weight, and the largest weight, from the initial values
    [min_value_it = begin], [min_value = 1e10], [max_value = -1e10]. *)
Fixpoint scan_min_max (l : IntegrationPointVectorType) (i min_value_it : nat)
    (min_value max_value : double) : nat * double * double :=
  match l with
  | [] => (min_value_it, min_value, max_value)
  | p :: l' =>
      let '(it', min') :=
        if ltd (GetWeight p) min_value then (i, GetWeight p) else (min_value_it, min_value) in
      let max' := if ltd max_value (GetWeight p) then GetWeight p else max_value in
      scan_min_max l' (S i) it' min' max'
  end.

(** The second scan: [for (i = 0; i < size(); i++)] erasing the point at
    [begin + i] when it is lighter than [EPS1*max_value] and more than four
    points are left.  The index moves on after an erasure too.  [fuel] bounds
    the number of passes; the length of the list is enough. *)
Fixpoint erase_light (fuel i : nat) (max_value : double)
    (l : IntegrationPointVectorType) (counter : nat)
    : IntegrationPointVectorType * nat :=
  match fuel with
  | O => (l, counter)
  | S fuel' =>
      match nth_error l i with
      | None => (l, counter)
      | Some p =>
          if ltd (GetWeight p) (EPS1 K * max_value) && (4 <? length l)%nat
          then erase_light fuel' (S i) max_value (erase_at i l) (S counter)
          else erase_light fuel' (S i) max_value l counter
      end
  end.

(** The local variables of [PointElimination] that live across rounds. *)
Record State := mkState {
  points : IntegrationPointVectorType;
  global_residual : double;
  prev_residual : double;
  number_iterations : SizeType;
  point_removed : bool;
  prev_solution : IntegrationPointVectorType }.

Definition initial_state (rIntegrationPoint : IntegrationPointVectorType) : State :=
  {| points := rIntegrationPoint;
     global_residual := MIND K;
     prev_residual := 0;
     number_iterations := 0%N;
     point_removed := false;
     prev_solution := [] |}.

(** The condition of the [while]. *)
Definition continues (st : State) : bool :=
  point_removed st
  || (ltd (global_residual st) allowed_residual
      && (number_iterations st <? maximum_iteration)%N).

(** A later round with the residual below the target. *)
Definition eliminate (st : State) (residual : double)
    (pts : IntegrationPointVectorType) : State :=
  let '(min_value_it, _, max_value) := scan_min_max pts 0%nat 0%nat (10 ^ 10) (- 10 ^ 10) in
  let '(pts1, counter) := erase_light (length pts) 0%nat max_value pts 0%nat in
  let removed1 := negb (counter =? 0)%nat in
  let '(pts2, removed2) :=
    if (counter =? 0)%nat && (4 <? length pts1)%nat
    then (erase_at min_value_it pts1, true)
    else (pts1, removed1) in
  let iterations :=
    if (length pts2 <=? 4)%nat && negb removed2
    then (maximum_iteration + 10)%N
    else number_iterations st in
  {| points := pts2;
     global_residual := residual;
     prev_residual := residual;
     number_iterations := (iterations + 1)%N;
     point_removed := removed2;
     prev_solution := pts |}.

(** One pass through the body of the [while]. *)
Definition round (rConstantTerms : VectorType) (st : State) : State :=
  let '(residual, pts) := MomentFitting1 rConstantTerms (points st) in
  if (number_iterations st =? 0)%N then
    {| points := firstn (N.to_nat number_of_functions) (sort_by_weight pts);
       global_residual := residual;
       prev_residual := prev_residual st;
       number_iterations := (number_iterations st + 1)%N;
       point_removed := true;
       prev_solution := prev_solution st |}
  else if ltd residual allowed_residual then
    eliminate st residual pts
  else
    {| points := pts;
       global_residual := residual;
       prev_residual := prev_residual st;
       number_iterations := (number_iterations st + 1)%N;
       point_removed := false;
       prev_solution := prev_solution st |}.

(** The [while] loop: the number of rounds it made and the state it left,
    or [None] when [fuel] rounds were not enough. *)
Fixpoint elimination_loop (fuel : nat) (rConstantTerms : VectorType) (st : State)
    : option (nat * State) :=
  if continues st then
    match fuel with
    | O => None
    | S fuel' =>
        match elimination_loop fuel' rConstantTerms (round rConstantTerms st) with
        | Some (n, st') => Some (S n, st')
        | None => None
        end
    end
  else Some (O, st).

(** [erase(remove_if(..., GetWeight() < EPS4), end)]. *)
Definition prune (l : IntegrationPointVectorType) : IntegrationPointVectorType :=
  filter (fun p => negb (ltd (GetWeight p) (EPS4 K))) l.

(** What [PointElimination] leaves: the residual it returns, the vector
    [rIntegrationPoint] it worked on, and the points of [rElement]. *)
Record Outcome := mkOutcome {
  residual_of : double;
  working_points : IntegrationPointVectorType;
  element_points : IntegrationPointVectorType;
  rounds_of : nat }.

Definition finish (st : State) (rounds : nat)
    (reduced_points : IntegrationPointVectorType) : Outcome :=
  if negb (ltd (global_residual st) allowed_residual)
     && (0 <? length (prev_solution st))%nat
     && (number_iterations st <? maximum_iteration)%N
  then {| residual_of := prev_residual st;
          working_points := points st;
          element_points := prune (prev_solution st ++ reduced_points);
          rounds_of := rounds |}
  else {| residual_of := global_residual st;
          working_points := points st;
          element_points := prune (points st ++ reduced_points);
          rounds_of := rounds |}.

(** [PointElimination].  The loop gets [length + 2] rounds of fuel, which
    [PointElimination_returns] shows to be enough on every input. *)
Definition PointElimination (rConstantTerms : VectorType)
    (rIntegrationPoint reduced_points : IntegrationPointVectorType) : option Outcome :=
  match elimination_loop (S (S (length rIntegrationPoint))) rConstantTerms
                         (initial_state rIntegrationPoint) with
  | Some (n, st) => Some (finish st n reduced_points)
  | None => None
  end.

(** [DistributeIntegrationPoints]: the [while] that refines the octree and
    reseeds until [MinNumPoints] points are there.  Nothing in it bounds the
    number of passes, so the model takes [fuel] and answers [None] when the
    octree has not yielded enough points by then. *)
Fixpoint distribute_loop (fuel : nat) (rOctree : Octree K)
    (rIntegrationPoint : IntegrationPointVectorType) (MinNumPoints : SizeType)
    (refinemen_level : IndexType) : option (Octree K * IntegrationPointVectorType) :=
  if (size rIntegrationPoint <? MinNumPoints)%N then
    match fuel with
    | O => None
    | S fuel' =>
        let octree' := Refine K (N.min refinemen_level 4) refinemen_level rOctree in
        distribute_loop fuel' octree'
          (AddIntegrationPoints K octree'
             (size_add order_u 1%N, size_add order_v 1%N, size_add order_w 1%N))
          MinNumPoints (size_add refinemen_level 1%N)
    end
  else Some (rOctree, rIntegrationPoint).

Definition DistributeIntegrationPoints (fuel : nat) (rOctree : Octree K)
    (rIntegrationPoint : IntegrationPointVectorType) (MinNumPoints : SizeType)
    : option (Octree K * IntegrationPointVectorType) :=
  distribute_loop fuel rOctree rIntegrationPoint MinNumPoints
                  (N.max (MaxRefinementLevel K rOctree) 1).

(** The local variables of [CreateIntegrationPointsTrimmed], with the points
    of [rElement] and the octree. *)
Record Fitting := mkFitting {
  residual : double;
  iteration : SizeType;
  point_distribution_factor : SizeType;
  integration_points : IntegrationPointVectorType;
  GetIntegrationPoints : IntegrationPointVectorType;
  octree : Octree K }.

(** The hard cutoff [1e-2]. *)
Definition residual_cutoff : double := 1 # 100.

(** The condition of the outer [while]. *)
Definition retries (ft : Fitting) : bool :=
  ltd allowed_residual (residual ft) && (iteration ft <? 4)%N.

(** One pass through the body of the outer [while]: seeding, the old points
    of the element appended, point elimination, the cutoff. *)
Definition attempt (fuel : nat) (constant_terms : VectorType) (ft : Fitting)
    : option Fitting :=
  let min_num_points :=
    size_mul (size_mul (size_mul (size_add order_u 1%N) (size_add order_v 1%N))
                       (size_add order_w 1%N))
             (point_distribution_factor ft) in
  match DistributeIntegrationPoints fuel (octree ft) (integration_points ft)
                                    min_num_points with
  | None => None
  | Some (octree', seeded) =>
      match PointElimination constant_terms (seeded ++ GetIntegrationPoints ft) [] with
      | None => None
      | Some out =>
          Some {| residual := residual_of out;
                  iteration := size_add (iteration ft) 1%N;
                  point_distribution_factor :=
                    size_mul (point_distribution_factor ft) 2%N;
                  integration_points := working_points out;
                  GetIntegrationPoints :=
                    if ltd residual_cutoff (residual_of out) then []
                    else element_points out;
                  octree := octree' |}
      end
  end.

(** The outer [while]; it stops by [iteration < 4], so four passes of fuel
    are enough. *)
Fixpoint fitting_loop (passes fuel : nat) (constant_terms : VectorType)
    (ft : Fitting) : option Fitting :=
  if retries ft then
    match passes with
    | O => None
    | S passes' =>
        match attempt fuel constant_terms ft with
        | None => None
        | Some ft' => fitting_loop passes' fuel constant_terms ft'
        end
    end
  else Some ft.

Definition initial_fitting (rOctree : Octree K)
    (element_ips : IntegrationPointVectorType) : Fitting :=
  {| residual := MAXD K;
     iteration := 0%N;
     point_distribution_factor := GetPointDistributionFactor rParam;
     integration_points := [];
     GetIntegrationPoints := element_ips;
     octree := rOctree |}.

(** [CreateIntegrationPointsTrimmed], from the constant terms
    [ComputeConstantTerms] filled and the octree built on the trimmed domain;
    [element_ips] are the points [rElement] holds on entry.  [None] only when
    a seeding ran out of [fuel]. *)
Definition CreateIntegrationPointsTrimmed (fuel : nat) (constant_terms : VectorType)
    (rOctree : Octree K) (element_ips : IntegrationPointVectorType)
    : option Fitting :=
  fitting_loop 4 fuel constant_terms (initial_fitting rOctree element_ips).

(** *** Predicates of the statements *)

(** Heavier first. *)
Definition heavier (p q : IntegrationPoint) : Prop := GetWeight q <= GetWeight p.

(** A point is light against [max_value] when the second scan would erase it. *)
Definition light (max_value : double) (p : IntegrationPoint) : bool :=
  ltd (GetWeight p) (EPS1 K * max_value).

(** Both the working set and the remembered solution stay within
    [number_of_functions] points once the first round has run. *)
Definition within_N (st : State) : Prop :=
  number_iterations st <> 0%N
  /\ (length (points st) <= N.to_nat number_of_functions)%nat
  /\ (length (prev_solution st) <= N.to_nat number_of_functions)%nat.

(** [mx] is the largest weight of [pts]. *)
Definition max_weight (pts : IntegrationPointVectorType) (mx : double) : Prop :=
  Exists (fun p => GetWeight p = mx) pts /\ Forall (fun p => GetWeight p <= mx) pts.

(** Two integration points at the same position. *)
Definition same_position (p q : IntegrationPoint) : Prop :=
  PX p = PX q /\ PY p = PY q /\ PZ p = PZ q.

(** Every point of [l] is at the position of a point of [source]. *)
Definition placed_as (source l : IntegrationPointVectorType) : Prop :=
  Forall (fun p => exists q, In q source /\ same_position p q) l.

(** The weights lie strictly between the values the first scan starts from. *)
Definition in_scan_range (pts : IntegrationPointVectorType) : Prop :=
  Forall (fun p => - 10 ^ 10 < GetWeight p /\ GetWeight p < 10 ^ 10) pts.

End Definitions.

(** *** The constant terms of the moment-fitting equation *)

Section ConstantTerms.

Variable K : Kernel.
Variable rParam : Parameters.
Variable a b : PointType.

(** [Polynomial::f_x_int] (utilities/polynomial_utilities.h) and
    [Mapping::GlobalToParam] (utilities/mapping_utilities.h), neither among
    the sources. *)
Variable f_x_int : double -> nat -> double -> double -> double.
Variable GlobalToParam : PointType -> PointType -> PointType -> PointType.

(** What one boundary point adds to the constant terms, in the order of
    [row_index]. *)
Definition contribution (point : BoundaryIntegrationPoint) : VectorType :=
  let lower_bound := LowerBound rParam in
  let upper_bound := UpperBound rParam in
  let jacobian_x := Qabs (px lower_bound - px upper_bound) in
  let jacobian_y := Qabs (py lower_bound - py upper_bound) in
  let jacobian_z := Qabs (pz lower_bound - pz upper_bound) in
  let normal := Normal point in
  let local_point := GlobalToParam (Position point) lower_bound upper_bound in
  let f_x_x i_x := f_x K (px local_point) i_x (px a) (px b) in
  let f_x_int_x i_x := f_x_int (px local_point) i_x (px a) (px b) in
  let f_x_y i_y := f_x K (py local_point) i_y (py a) (py b) in
  let f_x_int_y i_y := f_x_int (py local_point) i_y (py a) (py b) in
  let f_x_z i_z := f_x K (pz local_point) i_z (pz a) (pz b) in
  let f_x_int_z i_z := f_x_int (pz local_point) i_z (pz a) (pz b) in
  let weight := 1 / 3 * BoundaryWeight point in
  flat_map (fun i_x =>
    flat_map (fun i_y =>
      map (fun i_z =>
        let value_0 := f_x_int_x i_x * f_x_y i_y * f_x_z i_z in
        let value_1 := f_x_x i_x * f_x_int_y i_y * f_x_z i_z in
        let value_2 := f_x_x i_x * f_x_y i_y * f_x_int_z i_z in
        let integrand := px normal * value_0 * jacobian_x
                         + py normal * value_1 * jacobian_y
                         + pz normal * value_2 * jacobian_z in
        integrand * weight)
        (indices (order_w rParam)))
      (indices (order_v rParam)))
    (indices (order_u rParam)).

(** [rConstantTerms[row_index] += ...] over the rows: entry by entry, as far
    as the entries of [rConstantTerms] go. *)
Fixpoint add_terms (rConstantTerms added : VectorType) : VectorType :=
  match rConstantTerms, added with
  | term :: terms, x :: xs => (term + x) :: add_terms terms xs
  | _, _ => rConstantTerms
  end.

(** [ComputeConstantTerms]: the vector is resized to [number_of_functions]
    zeros, and every boundary point adds its row of integrands. *)
Definition ComputeConstantTerms (pBoundaryIps : list BoundaryIntegrationPoint)
    : VectorType :=
  fold_left (fun rConstantTerms point => add_terms rConstantTerms (contribution point))
            pBoundaryIps
            (repeat 0 (N.to_nat (number_of_functions rParam))).

End ConstantTerms.

Arguments residual {K} _.
Arguments iteration {K} _.
Arguments point_distribution_factor {K} _.
Arguments integration_points {K} _.
Arguments GetIntegrationPoints {K} _.
Arguments octree {K} _.

End MomentFitting.

(** ** Grid indexing (utilities/voxel_indexing_utilities.cpp) *)

Module VoxelIndexing.

Definition Vector3i := (IndexType * IndexType * IndexType)%type.
Definition BoundingBoxType := (PointType * PointType)%type.

Definition nx (n : Vector3i) : IndexType := fst (fst n).
Definition ny (n : Vector3i) : IndexType := snd (fst n).
Definition nz (n : Vector3i) : IndexType := snd n.

(** A [std::size_t] converted to [double]. *)
Definition to_double (n : IndexType) : double := inject_Z (Z.of_N n).

(** [Math::Add] and [Math::MultElementWise], componentwise. *)
Definition Add (p q : PointType) : PointType :=
  mkPoint (px p + px q) (py p + py q) (pz p + pz q).
Definition MultElementWise (p q : PointType) : PointType :=
  mkPoint (px p * px q) (py p * py q) (pz p * pz q).

Definition GetMatrixIndicesFromVectorIndex (Index : IndexType)
    (rNumberOfElements : Vector3i) : Vector3i :=
  let plane := size_mul (nx rNumberOfElements) (ny rNumberOfElements) in
  let index_in_row_column_plane := (Index mod plane)%N in
  ((index_in_row_column_plane mod nx rNumberOfElements)%N,
   (index_in_row_column_plane / nx rNumberOfElements)%N,
   (Index / plane)%N).

Definition GetBoundingBoxFromIndices (i j k : IndexType)
    (rLowerBound rUpperBound : PointType) (rNumberOfElements : Vector3i)
    : BoundingBoxType :=
  let indices_d := mkPoint (to_double i) (to_double j) (to_double k) in
  let delta :=
    mkPoint (Qabs (px rUpperBound - px rLowerBound) / to_double (nx rNumberOfElements))
            (Qabs (py rUpperBound - py rLowerBound) / to_double (ny rNumberOfElements))
            (Qabs (pz rUpperBound - pz rLowerBound) / to_double (nz rNumberOfElements)) in
  (Add rLowerBound (MultElementWise delta indices_d),
   Add rLowerBound (MultElementWise delta (Add (mkPoint 1 1 1) indices_d))).

Definition GetBoundingBoxFromIndex (Index : IndexType)
    (rLowerBound rUpperBound : PointType) (rNumberOfElements : Vector3i)
    : BoundingBoxType :=
  let '(i, j, k) := GetMatrixIndicesFromVectorIndex Index rNumberOfElements in
  GetBoundingBoxFromIndices i j k rLowerBound rUpperBound rNumberOfElements.

(** The members of [VoxelIndexer]. *)
Record VoxelIndexer := mkVoxelIndexer {
  mBoundXYZ : BoundingBoxType;
  mBoundUVW : BoundingBoxType;
  mNumberOfElements : Vector3i;
  mBSplineMesh : bool }.

Definition GetBoundingBoxXYZFromIndex (m : VoxelIndexer) (Index : IndexType)
    : BoundingBoxType :=
  GetBoundingBoxFromIndex Index (fst (mBoundXYZ m)) (snd (mBoundXYZ m))
                          (mNumberOfElements m).

Definition GetBoundingBoxUVWFromIndex (m : VoxelIndexer) (Index : IndexType)
    : BoundingBoxType :=
  if mBSplineMesh m
  then GetBoundingBoxFromIndex Index (fst (mBoundUVW m)) (snd (mBoundUVW m))
                               (mNumberOfElements m)
  else mBoundUVW m.

Definition NumberOfElements (m : VoxelIndexer) : IndexType :=
  size_mul (size_mul (nx (mNumberOfElements m)) (ny (mNumberOfElements m)))
           (nz (mNumberOfElements m)).

(** A box has extent along every axis. *)
Definition has_extent (box : BoundingBoxType) : Prop :=
  ~ px (snd box) == px (fst box)
  /\ ~ py (snd box) == py (fst box)
  /\ ~ pz (snd box) == pz (fst box).

(** [Math::Subtract], componentwise. *)
Definition Subtract (p q : PointType) : PointType :=
  mkPoint (px p - px q) (py p - py q) (pz p - pz q).

(** [DepthIndex * (n[1]*n[0]) + ColumnIndex * n[0] + RowIndex], in
    [std::size_t]. *)
Definition GetVectorIndexFromMatrixIndices (RowIndex ColumnIndex DepthIndex : IndexType)
    (rNumberOfElements : Vector3i) : IndexType :=
  size_add
    (size_add (size_mul DepthIndex
                        (size_mul (ny rNumberOfElements) (nx rNumberOfElements)))
              (size_mul ColumnIndex (nx rNumberOfElements)))
    RowIndex.

(** The overload that takes the three indices as one [Vector3i]. *)
Definition GetVectorIndexFromMatrixIndices_v (rIndices rNumberOfElements : Vector3i)
    : IndexType :=
  size_add
    (size_add (size_mul (nz rIndices)
                        (size_mul (ny rNumberOfElements) (nx rNumberOfElements)))
              (size_mul (ny rIndices) (nx rNumberOfElements)))
    (nx rIndices).

(** *** Predicates of the statements *)

(** The two points agree in every coordinate. *)
Definition same_point (p q : PointType) : Prop :=
  px p == px q /\ py p == py q /\ pz p == pz q.

(** [p] lies in the closed box. *)
Definition in_box (p : PointType) (box : BoundingBoxType) : Prop :=
  (px (fst box) <= px p /\ px p <= px (snd box))
  /\ (py (fst box) <= py p /\ py p <= py (snd box))
  /\ (pz (fst box) <= pz p /\ pz p <= pz (snd box)).

(** The lower corner of the box is not above the upper one. *)
Definition ordered (box : BoundingBoxType) : Prop :=
  px (fst box) <= px (snd box)
  /\ py (fst box) <= py (snd box)
  /\ pz (fst box) <= pz (snd box).

(** Every axis has a cell, and the number of cells fits a [std::size_t]. *)
Definition proper_grid (n : Vector3i) : Prop :=
  (0 < nx n)%N /\ (0 < ny n)%N /\ (0 < nz n)%N
  /\ (nx n * ny n * nz n < size_modulus)%N.

(** The volume of a box. *)
Definition volume (box : BoundingBoxType) : double :=
  Qabs (px (snd box) - px (fst box)) * Qabs (py (snd box) - py (fst box))
  * Qabs (pz (snd box) - pz (fst box)).

End VoxelIndexing.

(** ** The driver (QuESo_main.cpp) and the rule of untrimmed cells
       (quadrature/single_element.hpp) *)

Module QuESo.

Import VoxelIndexing.

Inductive IntersectionStatus := Inside | Outside | Trimmed.

(** What the driver is built from.  Taken from files that are not among the
    sources: the one-dimensional tables of
    [IntegrationPointFactory1D::GetGauss] (pairs of a position and a weight on
    the unit interval), the classification vector of
    [BRepOperator::pGetElementClassifications], the trimmed domain of
    [BRepOperator::pGetTrimmedDomain] ([None] for the null pointer), and, for
    the moment fitting, the constant terms and the octree built on a trimmed
    domain. *)
Record Model := mkModel {
  IntegrationMethodType : Type;
  TrimmedDomain : Type;
  K : MomentFitting.Kernel;
  mParameters : MomentFitting.Parameters;
  embedding_flag : bool;
  GGQRuleIsUsed : bool;
  integration_method : IntegrationMethodType;
  mMapper : VoxelIndexer;
  GetGauss : SizeType -> IntegrationMethodType -> list (double * double);
  p_classifications : IndexType -> IntersectionStatus;
  pGetTrimmedDomain : PointType -> PointType -> option TrimmedDomain;
  ComputeConstantTerms : TrimmedDomain -> BoundingBoxType -> VectorType;
  MakeOctree : TrimmedDomain -> MomentFitting.Octree K }.

Section Driver.

Variable M : Model.

(** containers/element.hpp: the members the driver touches. *)
Record Element := mkElement {
  GetId : IndexType;
  IsTrimmed : bool;
  GetIntegrationPoints : IntegrationPointVectorType;
  GetBoundsXYZ : BoundingBoxType;
  GetBoundsUVW : BoundingBoxType;
  mpTrimmedDomain : option (TrimmedDomain M) }.

Definition SetIsTrimmed (e : Element) (Value : bool) : Element :=
  {| GetId := GetId e; IsTrimmed := Value;
     GetIntegrationPoints := GetIntegrationPoints e;
     GetBoundsXYZ := GetBoundsXYZ e; GetBoundsUVW := GetBoundsUVW e;
     mpTrimmedDomain := mpTrimmedDomain e |}.

Definition pSetTrimmedDomain (e : Element) (d : TrimmedDomain M) : Element :=
  {| GetId := GetId e; IsTrimmed := IsTrimmed e;
     GetIntegrationPoints := GetIntegrationPoints e;
     GetBoundsXYZ := GetBoundsXYZ e; GetBoundsUVW := GetBoundsUVW e;
     mpTrimmedDomain := Some d |}.

(** The points an [AssembleIPs] leaves in the element. *)
Definition SetIntegrationPoints (e : Element) (pts : IntegrationPointVectorType)
    : Element :=
  {| GetId := GetId e; IsTrimmed := IsTrimmed e;
     GetIntegrationPoints := pts;
     GetBoundsXYZ := GetBoundsXYZ e; GetBoundsUVW := GetBoundsUVW e;
     mpTrimmedDomain := mpTrimmedDomain e |}.

(** [Element::DetJ]. *)
Definition DetJ (e : Element) : double :=
  let detla_xyz := Subtract (snd (GetBoundsXYZ e)) (fst (GetBoundsXYZ e)) in
  let detla_uvw := Subtract (snd (GetBoundsUVW e)) (fst (GetBoundsUVW e)) in
  (px detla_xyz * py detla_xyz * pz detla_xyz)
  / (px detla_uvw * py detla_uvw * pz detla_uvw).

(** What [Element::pGetTrimmedDomain] comes to: the pointer it returns, or
    the first [QuESo_ERROR] it meets, which ends the call. *)
Inductive TrimmedDomainAccess :=
| Domain (d : TrimmedDomain M)
| ElementIsNotTrimmed
| TrimmedDomainPointerHasNotBeenSet.

Definition Element_pGetTrimmedDomain (e : Element) : TrimmedDomainAccess :=
  if negb (IsTrimmed e) then ElementIsNotTrimmed
  else match mpTrimmedDomain e with
       | None => TrimmedDomainPointerHasNotBeenSet
       | Some d => Domain d
       end.

Definition ElementContainer := list Element.

(** Modelled from the spec: [ElementContainer::AddElement]
    (containers/element_container.hpp is not among the sources).  The
    container is a collection of the published elements into which the
    element is moved; here the elements in the order of their insertion. *)
Definition AddElement (new_element : Element) (container : ElementContainer)
    : ElementContainer :=
  container ++ [new_element].

(** [QuadratureSingleElement::AssembleIPs]: the tensor product of the three
    one-dimensional rules, mapped to the parametric box. *)
Definition AssembleIPs (rLowerBoundParam rUpperBoundParam : PointType)
    (rOrder : Vector3i) (Method : IntegrationMethodType M)
    : IntegrationPointVectorType :=
  let r_ip_list_u := GetGauss M (nx rOrder) Method in
  let r_ip_list_v := GetGauss M (ny rOrder) Method in
  let r_ip_list_w := GetGauss M (nz rOrder) Method in
  let length_u := Qabs (px rUpperBoundParam - px rLowerBoundParam) in
  let length_v := Qabs (py rUpperBoundParam - py rLowerBoundParam) in
  let length_w := Qabs (pz rUpperBoundParam - pz rLowerBoundParam) in
  flat_map (fun u =>
    flat_map (fun v =>
      map (fun w =>
        mkIntegrationPoint
          (px rLowerBoundParam + length_u * fst u)
          (py rLowerBoundParam + length_v * fst v)
          (pz rLowerBoundParam + length_w * fst w)
          (snd u * length_u * snd v * length_v * snd w * length_w))
        r_ip_list_w)
      r_ip_list_v)
    r_ip_list_u.

(** [QuadratureTrimmedElement::AssembleIPs] is the later name of
    [MomentFitting::CreateIntegrationPointsTrimmed]
    (quadrature/trimmed_element.hpp is not among the sources); the driver is
    read with the version at hand.  The result is the list of points the
    element holds afterwards. *)
Definition AssembleIPs_trimmed (fuel : nat) (e : Element) (d : TrimmedDomain M)
    : option IntegrationPointVectorType :=
  match MomentFitting.CreateIntegrationPointsTrimmed (K M) (mParameters M)
          (fst (GetBoundsUVW e)) (snd (GetBoundsUVW e)) fuel
          (ComputeConstantTerms M d (GetBoundsUVW e)) (MakeOctree M d)
          (GetIntegrationPoints e) with
  | Some ft => Some (MomentFitting.GetIntegrationPoints ft)
  | None => None
  end.

(** The body of the loop over the cells for one [index]. *)
Definition Compute_cell (fuel : nat) (index : IndexType)
    (container : ElementContainer) : option ElementContainer :=
  let status := if embedding_flag M then p_classifications M index else Inside in
  let new_element :=
    {| GetId := size_add index 1%N; IsTrimmed := false;
       GetIntegrationPoints := [];
       GetBoundsXYZ := GetBoundingBoxXYZFromIndex (mMapper M) index;
       GetBoundsUVW := GetBoundingBoxUVWFromIndex (mMapper M) index;
       mpTrimmedDomain := None |} in
  match status with
  | Outside => Some container
  | Trimmed =>
      let new_element := SetIsTrimmed new_element true in
      match pGetTrimmedDomain M (fst (GetBoundsXYZ new_element))
                                (snd (GetBoundsXYZ new_element)) with
      | None => Some container
      | Some p_trimmed_domain =>
          let new_element := pSetTrimmedDomain new_element p_trimmed_domain in
          match AssembleIPs_trimmed fuel new_element p_trimmed_domain with
          | None => None
          | Some pts =>
              let new_element := SetIntegrationPoints new_element pts in
              let valid_element :=
                negb (size (GetIntegrationPoints new_element) =? 0)%N in
              Some (if valid_element then AddElement new_element container
                    else container)
          end
      end
  | Inside =>
      let new_element :=
        if GGQRuleIsUsed M then new_element
        else SetIntegrationPoints new_element
               (AssembleIPs (fst (GetBoundsUVW new_element))
                            (snd (GetBoundsUVW new_element))
                            (MomentFitting.Order (mParameters M))
                            (integration_method M)) in
      Some (AddElement new_element container)
  end.

(** [static_cast<int>] of a [std::size_t] (two's complement, 32 bits). *)
Definition static_cast_int (n : IndexType) : Z :=
  let m := (n mod 2 ^ 32)%N in
  if (m <? 2 ^ 31)%N then Z.of_N m else (Z.of_N m - 2 ^ 32)%Z.

Fixpoint Compute_loop (fuel : nat) (indices : list IndexType)
    (container : ElementContainer) : option ElementContainer :=
  match indices with
  | [] => Some container
  | index :: rest =>
      match Compute_cell fuel index container with
      | Some container' => Compute_loop fuel rest container'
      | None => None
      end
  end.

(** [QuESo::Compute], the loop over the cells that fills the container, the
    cells taken in the order of their index.  (The loop over the conditions
    and the assembly of a GGQ rule, which follow it, add no element.)
    [None] when a seeding of the moment fitting ran out of [fuel]. *)
Definition Compute (fuel : nat) : option ElementContainer :=
  Compute_loop fuel
    (map N.of_nat
         (seq 0 (Z.to_nat (static_cast_int (NumberOfElements (mMapper M))))))
    [].

(** *** Predicates of the statements *)

(** The status the loop takes for a cell. *)
Definition status_of (index : IndexType) : IntersectionStatus :=
  if embedding_flag M then p_classifications M index else Inside.

(** The cells the loop visits. *)
Definition cells : list IndexType :=
  map N.of_nat (seq 0 (Z.to_nat (static_cast_int (NumberOfElements (mMapper M))))).

(** The positions of a one-dimensional table lie in the unit interval. *)
Definition within_unit (table : list (double * double)) : Prop :=
  Forall (fun ip => 0 <= fst ip /\ fst ip <= 1) table.

End Driver.

Arguments GetId {M} _.
Arguments IsTrimmed {M} _.
Arguments GetIntegrationPoints {M} _.
Arguments GetBoundsXYZ {M} _.
Arguments GetBoundsUVW {M} _.
Arguments mpTrimmedDomain {M} _.
Arguments DetJ {M} _.
Arguments Domain {M} _.
Arguments ElementIsNotTrimmed {M}.
Arguments TrimmedDomainPointerHasNotBeenSet {M}.
Arguments Element_pGetTrimmedDomain {M} _.

End QuESo.

(** ** Triangle meshes *)

Module Mesh.

Definition Vector3d := PointType.
Definition Vector3i := (nat * nat * nat)%type.

Definition Subtract (p q : Vector3d) : Vector3d :=
  mkPoint (px p - px q) (py p - py q) (pz p - pz q).
Definition Scale (c : double) (p : Vector3d) : Vector3d :=
  mkPoint (c * px p) (c * py p) (c * pz p).
Definition Divide (p : Vector3d) (c : double) : Vector3d :=
  mkPoint (px p / c) (py p / c) (pz p / c).

(** Modelled from the spec: [TriangleMesh] (containers/triangle_mesh.h is
    not among the sources).  A dense vertex array, the triangles as triples
    of vertex indices, and a normal per triangle; vertices, triangles and
    normals are appended and never reindexed. *)
Record TriangleMesh := mkTriangleMesh {
  GetVertices : list Vector3d;
  GetTriangles : list Vector3i;
  GetNormals : list Vector3d }.

Definition Clear : TriangleMesh := mkTriangleMesh [] [] [].

Definition NumOfTriangles (m : TriangleMesh) : nat := length (GetTriangles m).
Definition NumOfVertices (m : TriangleMesh) : nat := length (GetVertices m).

Definition AddVertex (m : TriangleMesh) (v : Vector3d) : TriangleMesh :=
  mkTriangleMesh (GetVertices m ++ [v]) (GetTriangles m) (GetNormals m).
Definition AddTriangle (m : TriangleMesh) (t : Vector3i) : TriangleMesh :=
  mkTriangleMesh (GetVertices m) (GetTriangles m ++ [t]) (GetNormals m).
Definition AddNormal (m : TriangleMesh) (n : Vector3d) : TriangleMesh :=
  mkTriangleMesh (GetVertices m) (GetTriangles m) (GetNormals m ++ [n]).

Definition vertex (m : TriangleMesh) (i : nat) : Vector3d :=
  nth i (GetVertices m) (mkPoint 0 0 0).
Definition triangle (m : TriangleMesh) (id : nat) : Vector3i :=
  nth id (GetTriangles m) (O, O, O).

Definition P1 (m : TriangleMesh) (id : nat) : Vector3d := vertex m (fst (fst (triangle m id))).
Definition P2 (m : TriangleMesh) (id : nat) : Vector3d := vertex m (snd (fst (triangle m id))).
Definition P3 (m : TriangleMesh) (id : nat) : Vector3d := vertex m (snd (triangle m id)).

(** The normal stored for a triangle. *)
Definition Normal (m : TriangleMesh) (id : nat) : Vector3d :=
  nth id (GetNormals m) (mkPoint 0 0 0).

(** The centroid of a triangle. *)
Definition Center (m : TriangleMesh) (id : nat) : Vector3d :=
  Scale (1 # 3) (mkPoint (px (P1 m id) + px (P2 m id) + px (P3 m id))
                         (py (P1 m id) + py (P2 m id) + py (P3 m id))
                         (pz (P1 m id) + pz (P2 m id) + pz (P3 m id))).

End Mesh.

(** ** The CGAL variant (cgal_wrapper/cgal_trimmed_domain.cpp) *)

Module CGALTrimmedDomain.

(** [CGAL::Bounded_side]. *)
Inductive Bounded_side := ON_UNBOUNDED_SIDE | ON_BOUNDARY | ON_BOUNDED_SIDE.

(** [mpCGALInsideTest] is the side-of-mesh test of CGAL. *)
Definition IsInsideTrimmedDomain (mpCGALInsideTest : PointType -> Bounded_side)
    (rPoint : PointType) : bool :=
  match mpCGALInsideTest rPoint with
  | ON_BOUNDED_SIDE => true
  | ON_BOUNDARY => false
  | ON_UNBOUNDED_SIDE => false
  end.

End CGALTrimmedDomain.

(** ** The oracle of the trimmed domain (embedding/trimmed_domain.cpp) *)

Module TrimmedDomain.

Import Mesh.

(** What [Ray_AABB_primitive::intersect] answers: its return value and the
    values it writes. *)
Record Intersection := mkIntersection {
  hit : bool;
  t : double;
  u : double;
  v : double;
  back_facing : bool;
  parallel : bool }.

(** [Ray_AABB_primitive(origin, direction)]. *)
Record Ray_AABB_primitive := mkRay { Origin : Vector3d; Direction : Vector3d }.

(** Taken from files that are not among the sources: the tolerances of
    define.hpp, the Euclidean norm, the tests of embedding/ray_aabb_primitive.h
    and the tree of embedding/aabb_tree.h with its query. *)
Record Geometry := mkGeometry {
  EPS2 : double;
  EPS3 : double;
  MAXD : double;
  Norm : Vector3d -> double;
  is_parallel : Ray_AABB_primitive -> Vector3d -> Vector3d -> Vector3d -> bool;
  intersect : Ray_AABB_primitive -> Vector3d -> Vector3d -> Vector3d -> Intersection;
  AABB_tree : Type;
  Query : AABB_tree -> Ray_AABB_primitive -> list nat }.

(** What a call returns, or that it throws [std::runtime_error]. *)
Inductive Outcome := Returns (b : bool) | Throws.

(** How the loop over the potential intersections ends: by [return false]
    (the origin lies on the boundary), by [break] with [try_next_triangle]
    set, or at the end of the list with [is_inside] and [min_distance]. *)
Inductive Scan :=
| OriginOnBoundary
| TryNextTriangle
| Closest (is_inside : bool) (min_distance : double).

Section Oracle.

Variable G : Geometry.
Variable mClippedMesh : TriangleMesh.
Variable mTree : AABB_tree G.

Fixpoint scan (ray : Ray_AABB_primitive) (potential_intersections : list nat)
    (is_inside : bool) (min_distance : double) : Scan :=
  match potential_intersections with
  | [] => Closest is_inside min_distance
  | r :: rest =>
      let i := intersect G ray (P1 mClippedMesh r) (P2 mClippedMesh r)
                         (P3 mClippedMesh r) in
      if hit i then
        if negb (parallel i) then
          if ltd (t i) (EPS2 G) then OriginOnBoundary
          else if ltd (u i) (0 + EPS3 G) || ltd (v i) (0 + EPS3 G)
                  || ltd (1 - EPS3 G) (u i + v i)
          then TryNextTriangle
          else if ltd (t i) min_distance
          then scan ray rest (back_facing i) (t i)
          else scan ray rest is_inside min_distance
        else scan ray rest is_inside min_distance
      else scan ray rest is_inside min_distance
  end.

(** The ray from [rPoint] towards the centre of triangle [current_id]. *)
Definition ray_towards (rPoint : Vector3d) (current_id : nat) : Ray_AABB_primitive :=
  let direction := Subtract (Center mClippedMesh current_id) rPoint in
  let norm_direction := Norm G direction in
  mkRay rPoint (Divide direction norm_direction).

(** The [while (try_next_triangle)] from [current_id] on, with [remaining]
    triangles not yet tried: [current_id >= num_triangles] when none
    remains. *)
Fixpoint try_triangles (rPoint : Vector3d) (remaining current_id : nat) : Outcome :=
  match remaining with
  | O => Returns false
  | S remaining' =>
      let ray := ray_towards rPoint current_id in
      if negb (is_parallel G ray (P1 mClippedMesh current_id)
                           (P2 mClippedMesh current_id) (P3 mClippedMesh current_id))
      then
        let potential_intersections := Query G mTree ray in
        if (length potential_intersections =? 0)%nat then Throws
        else
          match scan ray potential_intersections false (MAXD G) with
          | OriginOnBoundary => Returns false
          | TryNextTriangle => try_triangles rPoint remaining' (S current_id)
          | Closest is_inside _ => Returns is_inside
          end
      else try_triangles rPoint remaining' (S current_id)
  end.

Definition IsInsideTrimmedDomain (rPoint : Vector3d) : Outcome :=
  let num_triangles := NumOfTriangles mClippedMesh in
  if (num_triangles =? 0)%nat then Returns true
  else try_triangles rPoint num_triangles 0.

(** *** Predicates of the statements *)

(** What the ray reports for triangle [r]. *)
Definition candidate (ray : Ray_AABB_primitive) (r : nat) : Intersection :=
  intersect G ray (P1 mClippedMesh r) (P2 mClippedMesh r) (P3 mClippedMesh r).

(** The ray meets triangle [r] on its boundary, within [EPS3]. *)
Definition grazes (ray : Ray_AABB_primitive) (r : nat) : Prop :=
  hit (candidate ray r) = true /\ parallel (candidate ray r) = false
  /\ (u (candidate ray r) < 0 + EPS3 G \/ v (candidate ray r) < 0 + EPS3 G
      \/ 1 - EPS3 G < u (candidate ray r) + v (candidate ray r)).

(** The origin of the ray lies on triangle [r], within [EPS2]. *)
Definition origin_on (ray : Ray_AABB_primitive) (r : nat) : Prop :=
  hit (candidate ray r) = true /\ parallel (candidate ray r) = false
  /\ Qabs (t (candidate ray r)) < EPS2 G.

(** The ray towards triangle [id] is parallel to it. *)
Definition target_parallel (rPoint : Vector3d) (id : nat) : Prop :=
  is_parallel G (ray_towards rPoint id) (P1 mClippedMesh id)
              (P2 mClippedMesh id) (P3 mClippedMesh id) = true.

(** The potential intersections of the cast towards triangle [id]. *)
Definition potential (rPoint : Vector3d) (id : nat) : list nat :=
  Query G mTree (ray_towards rPoint id).

(** The ray meets triangle [r], and not as a parallel one. *)
Definition hits (ray : Ray_AABB_primitive) (r : nat) : Prop :=
  hit (candidate ray r) = true /\ parallel (candidate ray r) = false.

(** The ray meets triangle [r] away from the origin and inside the
    triangle, within the tolerances. *)
Definition crosses (ray : Ray_AABB_primitive) (r : nat) : Prop :=
  EPS2 G <= t (candidate ray r)
  /\ 0 + EPS3 G <= u (candidate ray r)
  /\ 0 + EPS3 G <= v (candidate ray r)
  /\ u (candidate ray r) + v (candidate ray r) <= 1 - EPS3 G.

End Oracle.

End TrimmedDomain.

(** ** Reading STL files (io/io_utilities.cpp) *)

Module IO.

Import Mesh.

Local Open Scope char_scope.

(** [::tolower] in the C locale: the letters [A] to [Z] move to [a] to [z],
    every other byte stays. *)
Definition tolower (c : ascii) : ascii :=
  let n := nat_of_ascii c in
  if (65 <=? n)%nat && (n <=? 90)%nat then ascii_of_nat (n + 32) else c.

Fixpoint starts_with (pattern message : list ascii) : bool :=
  match pattern, message with
  | [], _ => true
  | _ :: _, [] => false
  | p :: pattern', c :: message' =>
      (Ascii.eqb p c) && starts_with pattern' message'
  end.

(** [message.find(pattern) != std::string::npos]. *)
Fixpoint found (pattern message : list ascii) : bool :=
  match message with
  | [] => starts_with pattern []
  | _ :: message' => starts_with pattern message || found pattern message'
  end.

Definition solid : list ascii := ["s"; "o"; "l"; "i"; "d"].
Definition normal : list ascii := ["n"; "o"; "r"; "m"; "a"; "l"].
Definition facet : list ascii := ["f"; "a"; "c"; "e"; "t"].
Definition newline : list ascii := ["010"].

(** [STLIsInASCIIFormat] on the bytes of a file that could be opened:
    [file.read(chars, 256)] takes the first 256 bytes, or all there are. *)
Definition STLIsInASCIIFormat (file : list ascii) : bool :=
  let message := map tolower (firstn 256 file) in
  found solid message && found normal message
  && found facet message && found newline message.

(** A facet as the readers take it from the file: the stored normal and
    the three vertices. *)
Record Facet := mkFacet {
  stored_normal : Vector3d;
  vertex_1 : Vector3d;
  vertex_2 : Vector3d;
  vertex_3 : Vector3d }.

(** Taken from files that are not among the sources: the comparison of the
    vertex map and [ZEROTOL], the norm and the cross product of the math
    utilities; and the reading of the text or the bytes of a file into
    facets, which the model does not enter: [ascii_facets] and
    [binary_facets] are the facets the two readers get through. *)
Record Reader := mkReader {
  PointComparison : Vector3d -> Vector3d -> bool;
  ZEROTOL : double;
  Norm : Vector3d -> double;
  Cross : Vector3d -> Vector3d -> Vector3d;
  ascii_facets : list ascii -> list Facet;
  binary_facets : list ascii -> list Facet }.

Local Close Scope char_scope.

Section Readers.

Variable R : Reader.

(** Two keys are the same key of a [std::map] when neither is ordered
    before the other. *)
Definition equivalent (p q : Vector3d) : bool :=
  negb (PointComparison R p q) && negb (PointComparison R q p).

(** The [std::map<Vector3d, int, PointComparison>], as the list of its
    entries in the order of their insertion.  For a comparison that is a
    strict weak order the entry found for a key is the one equivalent to
    it. *)
Definition IndexMap := list (Vector3d * nat).

Definition lookup (index_map : IndexMap) (vertex : Vector3d) : option (Vector3d * nat) :=
  find (fun entry => equivalent (fst entry) vertex) index_map.

(** The mesh, the vertex map and the running [index]. *)
Record State := mkState {
  rTriangleMesh : TriangleMesh;
  index_map : IndexMap;
  index : nat }.

(** The treatment of one vertex: the state afterwards, the entry of
    [triangle] and the entry of [vertices]. *)
Definition insert_vertex (st : State) (vertex : Vector3d) : State * nat * Vector3d :=
  match lookup (index_map st) vertex with
  | None =>
      ({| rTriangleMesh := AddVertex (rTriangleMesh st) vertex;
          index_map := index_map st ++ [(vertex, index st)];
          index := S (index st) |},
       index st, vertex)
  | Some (key, i) => (st, i, key)
  end.

(** The normal from the vertices: the cross product of two edges, chosen
    by the lengths of the three. *)
Definition edge_normal (v1 v2 v3 : Vector3d) : Vector3d :=
  let A := Subtract v2 v1 in
  let B := Subtract v3 v2 in
  let C := Subtract v1 v3 in
  let lenght_A := Norm R A in
  let lenght_B := Norm R B in
  let lenght_C := Norm R C in
  if ged lenght_A (lenght_C - ZEROTOL R) && ged lenght_B (lenght_C - ZEROTOL R)
  then Cross R A B
  else if ged lenght_A (lenght_B - ZEROTOL R) && ged lenght_C (lenght_B - ZEROTOL R)
  then Cross R C A
  else Cross R B C.

(** The body of the loop over the facets, the same in both readers. *)
Definition AddFacet (st : State) (f : Facet) : State :=
  let '(st1, t1, v1) := insert_vertex st (vertex_1 f) in
  let '(st2, t2, v2) := insert_vertex st1 (vertex_2 f) in
  let '(st3, t3, v3) := insert_vertex st2 (vertex_3 f) in
  if ltd (99 # 100) (Norm R (stored_normal f)) then
    let n := edge_normal v1 v2 v3 in
    {| rTriangleMesh :=
         AddNormal (AddTriangle (rTriangleMesh st3) (t1, t2, t3))
                   (Scale (1 / Norm R n) n);
       index_map := index_map st3;
       index := index st3 |}
  else st3.

Definition initial : State :=
  {| rTriangleMesh := Clear; index_map := []; index := O |}.

Definition ReadFacets (facets : list Facet) : State := fold_left AddFacet facets initial.

Definition ReadMeshFromSTL_Ascii (file : list ascii) : TriangleMesh :=
  rTriangleMesh (ReadFacets (ascii_facets R file)).

Definition ReadMeshFromSTL_Binary (file : list ascii) : TriangleMesh :=
  rTriangleMesh (ReadFacets (binary_facets R file)).

(** [ReadMeshFromSTL]: the mesh it fills. *)
Definition ReadMeshFromSTL (file : list ascii) : TriangleMesh :=
  if STLIsInASCIIFormat file then ReadMeshFromSTL_Ascii file
  else ReadMeshFromSTL_Binary file.

(** *** Predicates of the statements *)

(** The vertices of the mesh are the keys of the map, numbered in the order
    of their insertion, and no two of them are the same key. *)
Definition consistent (st : State) : Prop :=
  index st = length (GetVertices (rTriangleMesh st))
  /\ index_map st = combine (GetVertices (rTriangleMesh st)) (seq 0 (index st))
  /\ ForallOrdPairs (fun p q => equivalent p q = false)
                    (GetVertices (rTriangleMesh st)).

End Readers.

(** [pattern] occurs in [message]. *)
Definition occurs (pattern message : list ascii) : Prop :=
  exists before after, message = before ++ pattern ++ after.

(** The criterion as the claim words it, on the first at most 80 bytes. *)
Definition first_80_bytes_say_ascii (file : list ascii) : bool :=
  let message := map tolower (firstn 80 file) in
  found solid message && found normal message
  && found facet message && found newline message.

End IO.

(** ** The bounding box of a trimmed domain (embedding/trimmed_domain.cpp,
       cgal_wrapper/cgal_trimmed_domain.cpp) *)

Module BoundingBox.

Import Mesh.

Definition BoundingBox := (PointType * PointType)%type.

(** [IsContained] of embedding/trimmed_domain.h and
    embedding/brep_operator.h. *)
Definition IsContained (rPoint rLowerBound rUpperBound : PointType) : bool :=
  if ltd (px rPoint) (px rLowerBound)
     || ltd (px rUpperBound) (px rPoint)
     || ltd (py rPoint) (py rLowerBound)
     || ltd (py rUpperBound) (py rPoint)
     || ltd (pz rPoint) (pz rLowerBound)
     || ltd (pz rUpperBound) (pz rPoint)
  then false
  else true.

Section Limits.

(** [MAXD] and [LOWESTD] of define.hpp, which is not among the sources. *)
Variable MAXD LOWESTD : double.

(** The body of the loop over the vertices, the three dimensions written
    out. *)
Definition stretch (bounding_box : BoundingBox) (v : Vector3d) : BoundingBox :=
  let first := fst bounding_box in
  let second := snd bounding_box in
  (mkPoint (if ltd (px v) (px first) then px v else px first)
           (if ltd (py v) (py first) then py v else py first)
           (if ltd (pz v) (pz first) then pz v else pz first),
   mkPoint (if ltd (px second) (px v) then px v else px second)
           (if ltd (py second) (py v) then py v else py second)
           (if ltd (pz second) (pz v) then pz v else pz second)).

(** [GetBoundingBoxOfTrimmedDomain], the same in [TrimmedDomain] and in
    [CGALTrimmedDomain]. *)
Definition GetBoundingBoxOfTrimmedDomain (mpTriangleMesh : TriangleMesh) : BoundingBox :=
  fold_left stretch (GetVertices mpTriangleMesh)
            (mkPoint MAXD MAXD MAXD, mkPoint LOWESTD LOWESTD LOWESTD).

End Limits.

End BoundingBox.

(** ** STL files byte by byte (io/io_utilities.cpp): the comparison of the
       vertex map, the writer and the binary reader *)

Module STL.

Import Mesh String.

(** A string literal of the source as its bytes. *)
Definition text (s : string) : list ascii := list_ascii_of_string s.

Section Comparison.

(** [SNAPTOL] of define.hpp, which is not among the sources. *)
Variable SNAPTOL : double.

(** [PointComparison::operator()], the order of the vertex map
    ([IO.Reader] takes the comparison as a field; this is the one
    io_utilities.cpp defines). *)
Definition PointComparison (rLhs rRhs : PointType) : bool :=
  if ltd (Qabs (px rLhs - px rRhs)) SNAPTOL
     && ltd (Qabs (py rLhs - py rRhs)) SNAPTOL
  then ltd (pz rLhs) (pz rRhs - SNAPTOL)
  else if ltd (Qabs (px rLhs - px rRhs)) SNAPTOL
  then ltd (py rLhs) (py rRhs - SNAPTOL)
  else Qle_bool (px rLhs) (px rRhs - SNAPTOL).

(** Neither point is ordered before the other: to a [std::map] they are the
    same key. *)
Definition same_key (p q : PointType) : bool :=
  negb (PointComparison p q) && negb (PointComparison q p).

End Comparison.

(** The four bytes of an [int] or [unsigned int], in the byte order of the
    machine, taken to be the least significant byte first. *)
Definition int_bytes (n : N) : list ascii :=
  [ascii_of_N (n mod 256); ascii_of_N ((n / 256) mod 256);
   ascii_of_N ((n / 65536) mod 256); ascii_of_N ((n / 16777216) mod 256)].

Definition uint_of_bytes (bytes : list ascii) : N :=
  match bytes with
  | [b0; b1; b2; b3] =>
      (N_of_ascii b0 + 256 * N_of_ascii b1 + 65536 * N_of_ascii b2
       + 16777216 * N_of_ascii b3)%N
  | _ => 0%N
  end.

Section Writer.

(** [operator<<] of a [double] on a stream, and the four bytes of
    [static_cast<float>] of a [double]. *)
Variable print : double -> list ascii.
Variable float_bytes : double -> list ascii.

Definition print_point (p : Vector3d) : list ascii :=
  print (px p) ++ text " " ++ print (py p) ++ text " " ++ print (pz p).

(** The text of one triangle. *)
Definition facet_text (rTriangleMesh : TriangleMesh) (triangle_id : nat) : list ascii :=
  text "facet normal " ++ print_point (Normal rTriangleMesh triangle_id)
  ++ [ascii_of_nat 10] ++ text "outer loop" ++ [ascii_of_nat 10]
  ++ text "vertex " ++ print_point (P1 rTriangleMesh triangle_id)
  ++ text " " ++ [ascii_of_nat 10]
  ++ text "vertex " ++ print_point (P2 rTriangleMesh triangle_id)
  ++ text " " ++ [ascii_of_nat 10]
  ++ text "vertex " ++ print_point (P3 rTriangleMesh triangle_id)
  ++ text " " ++ [ascii_of_nat 10]
  ++ text "endloop" ++ [ascii_of_nat 10] ++ text "endfacet" ++ [ascii_of_nat 10].

Definition point_bytes (p : Vector3d) : list ascii :=
  float_bytes (px p) ++ float_bytes (py p) ++ float_bytes (pz p).

(** The bytes of one triangle: the twelve floats of [coords] and the two
    blanks that stand for the attribute byte count. *)
Definition facet_bytes (rTriangleMesh : TriangleMesh) (triangle_id : nat) : list ascii :=
  point_bytes (Normal rTriangleMesh triangle_id)
  ++ point_bytes (P1 rTriangleMesh triangle_id)
  ++ point_bytes (P2 rTriangleMesh triangle_id)
  ++ point_bytes (P3 rTriangleMesh triangle_id)
  ++ text "  ".

(** The header of a binary file, eighty bytes. *)
Definition header : list ascii :=
  text "FileType: Binary" ++ repeat (ascii_of_nat 32) 64.

(** [WriteMeshToSTL]: what it writes to a file it could open. *)
Definition WriteMeshToSTL (rTriangleMesh : TriangleMesh) (Binary : bool) : list ascii :=
  let num_triangles := NumOfTriangles rTriangleMesh in
  if Binary then
    header ++ int_bytes (N.of_nat num_triangles mod 2 ^ 32)
    ++ flat_map (facet_bytes rTriangleMesh) (seq 0 num_triangles)
  else
    text "solid" ++ [ascii_of_nat 10]
    ++ flat_map (facet_text rTriangleMesh) (seq 0 num_triangles)
    ++ text "endsolid" ++ [ascii_of_nat 10].

End Writer.

Section BinaryReader.

Variable R : IO.Reader.

(** A [float] read from four bytes and converted to a [double], and
    [TriangleMesh::Check] (containers/triangle_mesh.h is not among the
    sources). *)
Variable float_of_bytes : list ascii -> double.
Variable Check : TriangleMesh -> bool.

(** [file.read] of [n] bytes: the bytes and the rest of the file, or the
    failure of the stream when fewer are left. *)
Definition read (n : nat) (file : list ascii) : option (list ascii * list ascii) :=
  if (n <=? List.length file)%nat then Some (firstn n file, skipn n file) else None.

(** Three floats, read one after the other. *)
Definition read_point (file : list ascii) : option (Vector3d * list ascii) :=
  match read 4 file with
  | None => None
  | Some (x, file1) =>
      match read 4 file1 with
      | None => None
      | Some (y, file2) =>
          match read 4 file2 with
          | None => None
          | Some (z, file3) =>
              Some (mkPoint (float_of_bytes x) (float_of_bytes y) (float_of_bytes z),
                    file3)
          end
      end
  end.

(** The body of the loop over the triangles: the state it leaves and the
    rest of the file, or no rest when a read failed and the reader returns
    [false]. *)
Definition read_triangle (st : IO.State) (file : list ascii)
    : IO.State * option (list ascii) :=
  match read_point file with
  | None => (st, None)
  | Some (point_normal, file0) =>
      match read_point file0 with
      | None => (st, None)
      | Some (vertex1, file1) =>
          let '(st1, t1, v1) := IO.insert_vertex R st vertex1 in
          match read_point file1 with
          | None => (st1, None)
          | Some (vertex2, file2) =>
              let '(st2, t2, v2) := IO.insert_vertex R st1 vertex2 in
              match read_point file2 with
              | None => (st2, None)
              | Some (vertex3, file3) =>
                  let '(st3, t3, v3) := IO.insert_vertex R st2 vertex3 in
                  let st4 :=
                    if ltd (99 # 100) (IO.Norm R point_normal) then
                      let n := IO.edge_normal R v1 v2 v3 in
                      {| IO.rTriangleMesh :=
                           AddNormal (AddTriangle (IO.rTriangleMesh st3) (t1, t2, t3))
                                     (Scale (1 / IO.Norm R n) n);
                         IO.index_map := IO.index_map st3;
                         IO.index := IO.index st3 |}
                    else st3 in
                  match read 2 file3 with
                  | None => (st4, None)
                  | Some (_, file4) => (st4, Some file4)
                  end
              end
          end
      end
  end.

(** The loop [for (i = 0; i < num_triangles; ++i)]: the state it leaves and
    whether every read succeeded. *)
Fixpoint read_triangles (num_triangles : nat) (st : IO.State) (file : list ascii)
    : IO.State * bool :=
  match num_triangles with
  | O => (st, true)
  | S n =>
      match read_triangle st file with
      | (st', None) => (st', false)
      | (st', Some rest) => read_triangles n st' rest
      end
  end.

(** [ReadMeshFromSTL_Binary] on the bytes of a file that could be opened:
    the value it returns and the mesh it leaves. *)
Definition ReadMeshFromSTL_Binary (rTriangleMesh : TriangleMesh) (file : list ascii)
    : bool * TriangleMesh :=
  let position := Nat.min 80 (List.length file) in
  if negb (position =? 80)%nat then (false, rTriangleMesh)
  else
    match read 4 (skipn 80 file) with
    | None => (false, rTriangleMesh)
    | Some (num_triangles, rest) =>
        let '(st, complete) :=
          read_triangles (N.to_nat (uint_of_bytes num_triangles)) (IO.initial) rest in
        if complete then (Check (IO.rTriangleMesh st), IO.rTriangleMesh st)
        else (false, IO.rTriangleMesh st)
    end.

(** The facets a binary file holds behind its header: [num_triangles]
    records of fifty bytes, as far as the bytes go. *)
Fixpoint facets_of_bytes (num_triangles : nat) (file : list ascii) : list IO.Facet :=
  match num_triangles with
  | O => []
  | S n =>
      match read_point file with
      | None => []
      | Some (point_normal, file0) =>
          match read_point file0 with
          | None => []
          | Some (vertex1, file1) =>
              match read_point file1 with
              | None => []
              | Some (vertex2, file2) =>
                  match read_point file2 with
                  | None => []
                  | Some (vertex3, file3) =>
                      match read 2 file3 with
                      | None => []
                      | Some (_, file4) =>
                          IO.mkFacet point_normal vertex1 vertex2 vertex3
                          :: facets_of_bytes n file4
                      end
                  end
              end
          end
      end
  end.

End BinaryReader.

Section RoundTrip.

Variable float_bytes : double -> list ascii.
Variable float_of_bytes : list ascii -> double.

(** A [double] written as a [float] and read again. *)
Definition to_float (x : double) : double := float_of_bytes (float_bytes x).

Definition float_point (p : Vector3d) : Vector3d :=
  mkPoint (to_float (px p)) (to_float (py p)) (to_float (pz p)).

(** The facet a reader finds where the writer wrote a triangle. *)
Definition facet_written (rTriangleMesh : TriangleMesh) (triangle_id : nat) : IO.Facet :=
  IO.mkFacet (float_point (Normal rTriangleMesh triangle_id))
             (float_point (P1 rTriangleMesh triangle_id))
             (float_point (P2 rTriangleMesh triangle_id))
             (float_point (P3 rTriangleMesh triangle_id)).

End RoundTrip.

End STL.

(** ** Parameters of the tests (the [TestParameter] class) *)

Module TestParameter.

Import String.

Inductive IntegrationMethod :=
| Gauss | ReducedGauss1 | ReducedGauss2 | ReducedExact | ReducedOrder1 | ReducedOrder2.

(** [Component::ComponentType], a [std::variant] of seven alternatives. *)
Inductive ComponentType :=
| of_PointType (rValue : PointType)
| of_Vector3i (rValue : IndexType * IndexType * IndexType)
| of_bool (rValue : bool)
| of_double (rValue : double)
| of_IndexType (rValue : IndexType)
| of_string (rValue : string)
| of_IntegrationMethod (rValue : IntegrationMethod).

(** The [std::type_info] of the alternatives. *)
Inductive type_info :=
| typeid_PointType | typeid_Vector3i | typeid_bool | typeid_double
| typeid_IndexType | typeid_string | typeid_IntegrationMethod.

Definition TypeVisit (rValue : ComponentType) : type_info :=
  match rValue with
  | of_PointType _ => typeid_PointType
  | of_Vector3i _ => typeid_Vector3i
  | of_bool _ => typeid_bool
  | of_double _ => typeid_double
  | of_IndexType _ => typeid_IndexType
  | of_string _ => typeid_string
  | of_IntegrationMethod _ => typeid_IntegrationMethod
  end.

(** [operator==] of [std::type_info]. *)
Definition same_type (s t : type_info) : bool :=
  match s, t with
  | typeid_PointType, typeid_PointType
  | typeid_Vector3i, typeid_Vector3i
  | typeid_bool, typeid_bool
  | typeid_double, typeid_double
  | typeid_IndexType, typeid_IndexType
  | typeid_string, typeid_string
  | typeid_IntegrationMethod, typeid_IntegrationMethod => true
  | _, _ => false
  end.

Record Component := mkComponent { Name : string; Get : ComponentType }.

(** The [std::runtime_error] a member throws, by its message. *)
Inductive runtime_error :=
| ComponentNotFound (Name : string)
| NotProvidedWithCorrectType (Name : string)
| NotAValidParameter (Name : string).

Definition mDefaults : list Component :=
  [mkComponent "echo_level" (of_IndexType 0%N);
   mkComponent "embedding_flag" (of_bool true);
   mkComponent "initial_triangle_edge_length" (of_double 1);
   mkComponent "min_num_boundary_triangles" (of_IndexType 1000%N);
   mkComponent "moment_fitting_residual" (of_double (1 # 10 ^ 10));
   mkComponent "init_point_distribution_factor" (of_IndexType 2%N);
   mkComponent "polynomial_order" (of_Vector3i (2, 2, 2)%N);
   mkComponent "integration_method" (of_IntegrationMethod Gauss)].

Definition mTypes : list (string * type_info) :=
  [("input_filename"%string, typeid_string);
   ("postprocess_filename"%string, typeid_string);
   ("echo_level"%string, typeid_IndexType);
   ("embedding_flag"%string, typeid_bool);
   ("lower_bound"%string, typeid_PointType);
   ("upper_bound"%string, typeid_PointType);
   ("polynomial_order"%string, typeid_Vector3i);
   ("number_of_knot_spans"%string, typeid_Vector3i);
   ("initial_triangle_edge_length"%string, typeid_double);
   ("min_num_boundary_triangles"%string, typeid_IndexType);
   ("moment_fitting_residual"%string, typeid_double);
   ("init_point_distribution_factor"%string, typeid_IndexType);
   ("integration_method"%string, typeid_IntegrationMethod)].

(** [pFind<type>]: the value of the first component that holds the type
    and has the name, or the null pointer. *)
Fixpoint pFind (type : type_info) (rName : string) (mComponents : list Component)
    : option ComponentType :=
  match mComponents with
  | [] => None
  | r_component :: rest =>
      if same_type (TypeVisit (Get r_component)) type
      then if (Name r_component =? rName)%string then Some (Get r_component)
           else pFind type rName rest
      else pFind type rName rest
  end.

(** [*p_value = rValue] through the pointer [pFind] returned. *)
Fixpoint assign (rName : string) (rValue : ComponentType) (mComponents : list Component)
    : list Component :=
  match mComponents with
  | [] => []
  | r_component :: rest =>
      if same_type (TypeVisit (Get r_component)) (TypeVisit rValue)
         && (Name r_component =? rName)%string
      then mkComponent (Name r_component) rValue :: rest
      else r_component :: assign rName rValue rest
  end.

(** The inner loop of [CheckTypes] for one component: the error it throws,
    if any. *)
Fixpoint check_component (types : list (string * type_info)) (r_components : Component)
    : option runtime_error :=
  match types with
  | [] => Some (NotAValidParameter (Name r_components))
  | (ref_name, p_ref_type_info) :: rest =>
      if (ref_name =? Name r_components)%string
      then if same_type p_ref_type_info (TypeVisit (Get r_components)) then None
           else Some (NotProvidedWithCorrectType (Name r_components))
      else check_component rest r_components
  end.

(** [CheckTypes]: the first error, or none. *)
Fixpoint CheckTypes (mComponents : list Component) : option runtime_error :=
  match mComponents with
  | [] => None
  | r_components :: rest =>
      match check_component mTypes r_components with
      | Some e => Some e
      | None => CheckTypes rest
      end
  end.

(** [AddValueNoThrow<type>]. *)
Definition AddValueNoThrow (type : type_info) (mComponents : list Component)
    (rValues : Component) : list Component :=
  if same_type (TypeVisit (Get rValues)) type
  then match pFind type (Name rValues) mComponents with
       | None => mComponents ++ [rValues]
       | Some _ => mComponents
       end
  else mComponents.

(** [AddDefaults]: every default through the seven instances of
    [AddValueNoThrow]. *)
Definition AddDefaults (mComponents : list Component) : list Component :=
  fold_left (fun components value =>
               fold_left (fun components type => AddValueNoThrow type components value)
                         [typeid_PointType; typeid_Vector3i; typeid_bool; typeid_double;
                          typeid_IndexType; typeid_string; typeid_IntegrationMethod]
                         components)
            mDefaults mComponents.

(** The constructors: the components of the object, or the error that
    [CheckTypes] throws. *)
Definition TestParameter (Components : list Component) : runtime_error + list Component :=
  let mComponents := AddDefaults Components in
  match CheckTypes mComponents with
  | Some e => inl e
  | None => inr mComponents
  end.

(** [Set<type>]: the components it leaves, and the error [CheckTypes] throws
    on them, if any. *)
Definition SetValue (rName : string) (rValue : ComponentType) (mComponents : list Component)
    : list Component * option runtime_error :=
  let mComponents :=
    match pFind (TypeVisit rValue) rName mComponents with
    | Some _ => assign rName rValue mComponents
    | None => mComponents
    end in
  let mComponents := mComponents ++ [mkComponent rName rValue] in
  (mComponents, CheckTypes mComponents).

(** [Get<type>]. *)
Definition GetValue (type : type_info) (Name : string) (mComponents : list Component)
    : runtime_error + ComponentType :=
  match pFind type Name mComponents with
  | Some value => inr value
  | None => inl (ComponentNotFound Name)
  end.

(** *** Predicates of the statements *)

(** The name is registered in [mTypes] with the type of the value. *)
Definition registered (c : Component) : Prop :=
  In (Name c, TypeVisit (Get c)) mTypes.

(** The names of [types] differ from one another. *)
Fixpoint distinct_names (types : list (string * type_info)) : bool :=
  match types with
  | [] => true
  | (n, _) :: rest =>
      negb (existsb (fun entry => String.eqb (fst entry) n) rest) && distinct_names rest
  end.

End TestParameter.

(** ** The results of the flood fill (embedding/flood_fill.h) *)

Module FloodFill.

Import VoxelIndexing QuESo.

(** [v[i] = x] on a vector; an index past the end is outside what the
    vector defines and is left without effect here. *)
Fixpoint assign_at {A : Type} (i : nat) (x : A) (v : list A) : list A :=
  match v, i with
  | [], _ => []
  | _ :: v', O => x :: v'
  | y :: v', S i' => y :: assign_at i' x v'
  end.

(** The members of [ClassificationResults]; the [std::unordered_map] as the
    list of its entries. *)
Record ClassificationResults := mkClassificationResults {
  mStates : list IntersectionStatus;
  mContainsBoundary : list bool;
  mOffsets : list (IndexType * (PointType * PointType)) }.

(** The constructor. *)
Definition ClassificationResults_ (Size : IndexType) : ClassificationResults :=
  {| mStates := repeat Outside (N.to_nat Size);
     mContainsBoundary := repeat false (N.to_nat Size);
     mOffsets := [] |}.

Definition GetState (r : ClassificationResults) (Index : IndexType) : IntersectionStatus :=
  nth (N.to_nat Index) (mStates r) Inside.

Definition SetState (r : ClassificationResults) (Index : IndexType)
    (State : IntersectionStatus) : ClassificationResults :=
  {| mStates := assign_at (N.to_nat Index) State (mStates r);
     mContainsBoundary := mContainsBoundary r;
     mOffsets := mOffsets r |}.

Definition IsTouching (r : ClassificationResults) (Index : IndexType) : bool :=
  nth (N.to_nat Index) (mContainsBoundary r) false.

(** [mOffsets.find(Index)]. *)
Definition find_offsets (offsets : list (IndexType * (PointType * PointType)))
    (Index : IndexType) : option (PointType * PointType) :=
  match find (fun entry => (fst entry =? Index)%N) offsets with
  | Some entry => Some (snd entry)
  | None => None
  end.

(** [mOffsets[Index].first += ...; mOffsets[Index].second += ...] on the
    entry that is there; [+=] of two points adds them coordinate by
    coordinate. *)
Fixpoint add_offsets (offsets : list (IndexType * (PointType * PointType)))
    (Index : IndexType) (rOffsets : PointType * PointType)
    : list (IndexType * (PointType * PointType)) :=
  match offsets with
  | [] => []
  | entry :: rest =>
      if (fst entry =? Index)%N
      then (fst entry, (Add (fst (snd entry)) (fst rOffsets),
                        Add (snd (snd entry)) (snd rOffsets))) :: rest
      else entry :: add_offsets rest Index rOffsets
  end.

Definition SetIsTouching (r : ClassificationResults) (Index : IndexType)
    (rOffsets : PointType * PointType) : ClassificationResults :=
  {| mStates := mStates r;
     mContainsBoundary := assign_at (N.to_nat Index) true (mContainsBoundary r);
     mOffsets :=
       match find_offsets (mOffsets r) Index with
       | None => mOffsets r ++ [(Index, rOffsets)]
       | Some _ => add_offsets (mOffsets r) Index rOffsets
       end |}.

(** [GetOffsets]: [mOffsets[Index]] enters a pair of zero points for an
    index that has none; the value returned and the object afterwards. *)
Definition GetOffsets (r : ClassificationResults) (Index : IndexType)
    : (PointType * PointType) * ClassificationResults :=
  match find_offsets (mOffsets r) Index with
  | Some offsets => (offsets, r)
  | None =>
      let zero := (mkPoint 0 0 0, mkPoint 0 0 0) in
      (zero, {| mStates := mStates r;
                mContainsBoundary := mContainsBoundary r;
                mOffsets := mOffsets r ++ [(Index, zero)] |})
  end.

(** *** Predicates of the statements *)

(** The calls of [SetIsTouching] in a list, made one after the other. *)
Definition touch_all (r : ClassificationResults)
    (calls : list (IndexType * (PointType * PointType))) : ClassificationResults :=
  fold_left (fun r call => SetIsTouching r (fst call) (snd call)) calls r.

(** The sum, coordinate by coordinate, of the offsets passed for [Index]. *)
Definition offsets_passed (calls : list (IndexType * (PointType * PointType)))
    (Index : IndexType) : PointType * PointType :=
  fold_left (fun sum call =>
               if (fst call =? Index)%N
               then (Add (fst sum) (fst (snd call)), Add (snd sum) (snd (snd call)))
               else sum)
            calls (mkPoint 0 0 0, mkPoint 0 0 0).

(** One call in that sum. *)
Definition pass (Index : IndexType) (sum : PointType * PointType)
    (call : IndexType * (PointType * PointType)) : PointType * PointType :=
  if (fst call =? Index)%N
  then (Add (fst sum) (fst (snd call)), Add (snd sum) (snd (snd call)))
  else sum.

(** The offsets entered for [Index], zero when there are none. *)
Definition offsets_at (r : ClassificationResults) (Index : IndexType)
    : PointType * PointType :=
  fst (GetOffsets r Index).

(** Equal offsets, as numbers. *)
Definition same_offsets (o o' : PointType * PointType) : Prop :=
  same_point (fst o) (fst o') /\ same_point (snd o) (snd o').

End FloodFill.

(** ** Sample configurations

    A kernel and a driver to run the definitions on.  The tolerances are
    sample values; the basis is the shifted Legendre basis; the solver is a
    stand-in that answers a fixed residual norm and a fixed list of weights,
    cut to the number of columns of the matrix. *)

Module Samples.

Import MomentFitting.

(** [P_n(t)] with [P_(n-1)(t)], by Bonnet's recurrence. *)
Fixpoint legendre (n : nat) (t : double) : double * double :=
  match n with
  | O => (1, 0)
  | S m =>
      let '(p_m, p_m1) := legendre m t in
      let k := inject_Z (Z.of_nat m) in
      (((2 * k + 1) * t * p_m - k * p_m1) / (k + 1), p_m)
  end.

Definition shifted_legendre (x : double) (order : nat) (a b : double) : double :=
  fst (legendre order ((2 * x - a - b) / (b - a))).

Definition fixed_answer (norm : double) (weights : VectorType) (A : MatrixType)
    (_ : VectorType) : double * VectorType :=
  (norm, firstn (length (hd [] A)) weights).

(** The octree stand-in is its refinement level; level [n] yields [8 n]
    points of weight one along a line. *)
Definition line_points (level : N) (_ : SizeType * SizeType * SizeType)
    : IntegrationPointVectorType :=
  map (fun j => mkIntegrationPoint
                  (inject_Z (Z.of_nat j) / inject_Z (Z.of_N (8 * level + 1)))
                  (1 # 2) (1 # 2) 1)
      (seq 1 (N.to_nat (8 * level))).

Definition kernel (norm : double) (weights : VectorType) : Kernel :=
  {| EPS1 := 1 # 10 ^ 10;
     EPS4 := 1 # 10 ^ 14;
     MIND := 1 # 10 ^ 307;
     MAXD := inject_Z (10 ^ 308);
     f_x := shifted_legendre;
     nnls := fixed_answer norm weights;
     Octree := N;
     MaxRefinementLevel := fun level => level;
     Refine := fun _ max_level _ => max_level;
     AddIntegrationPoints := line_points |}.

(** Weights [1, 1/2, 1/3, ...]. *)
Definition harmonic_weights : VectorType :=
  map (fun j => 1 # Pos.of_nat (S j)) (seq 0 64).

(** Three points of weight one and two of weight [1e-12]. *)
Definition two_light_weights : VectorType :=
  [1; 1; 1; 1 # 10 ^ 12; 1 # 10 ^ 12].

Definition parameters : Parameters :=
  {| Order := (1, 1, 1)%N;
     MomentFittingResidual := 1 # 10 ^ 10;
     GetPointDistributionFactor := 2%N;
     LowerBound := mkPoint 0 0 0;
     UpperBound := mkPoint 1 1 1 |}.

Definition origin : PointType := mkPoint 0 0 0.
Definition corner : PointType := mkPoint 1 1 1.

Definition five_points : IntegrationPointVectorType :=
  map (fun j => mkIntegrationPoint (inject_Z (Z.of_nat j) / 6) (1 # 2) (1 # 2) 1)
      (seq 1 5).

(** *** A sample driver: two cells, the first inside, the second trimmed *)

Import VoxelIndexing QuESo.

Definition model (norm : double) : Model :=
  {| IntegrationMethodType := unit;
     TrimmedDomain := unit;
     K := kernel norm harmonic_weights;
     mParameters := parameters;
     embedding_flag := true;
     GGQRuleIsUsed := false;
     integration_method := tt;
     mMapper := {| mBoundXYZ := (origin, corner);
                   mBoundUVW := (origin, corner);
                   mNumberOfElements := (2, 1, 1)%N;
                   mBSplineMesh := true |};
     GetGauss := fun _ _ => [(1 # 2, 1)];
     p_classifications := fun index => if (index =? 0)%N then Inside else Trimmed;
     pGetTrimmedDomain := fun _ _ => Some tt;
     ComputeConstantTerms := fun _ _ => [];
     MakeOctree := fun _ => 0%N |}.

(** *** A sample trimmed domain: one triangle, every cast grazing *)

Import Mesh.

Definition one_triangle : TriangleMesh :=
  {| GetVertices := [mkPoint 0 0 0; mkPoint 1 0 0; mkPoint 0 1 0];
     GetTriangles := [(0, 1, 2)%nat];
     GetNormals := [mkPoint 0 0 1] |}.

(** A geometry whose every ray meets every triangle it is asked about at
    distance one, on the edge [u = 0]; the tree proposes triangle 0. *)
Definition grazing_geometry : TrimmedDomain.Geometry :=
  {| TrimmedDomain.EPS2 := 1 # 10 ^ 10;
     TrimmedDomain.EPS3 := 1 # 10 ^ 10;
     TrimmedDomain.MAXD := inject_Z (10 ^ 308);
     TrimmedDomain.Norm := fun _ => 1;
     TrimmedDomain.is_parallel := fun _ _ _ _ => false;
     TrimmedDomain.intersect := fun _ _ _ _ =>
       TrimmedDomain.mkIntersection true 1 0 (1 # 2) false false;
     TrimmedDomain.AABB_tree := unit;
     TrimmedDomain.Query := fun _ _ => [0%nat] |}.

(** *** A sample reader *)

(** The lexicographic order of the coordinates, without snapping. *)
Definition lexicographic (p q : Vector3d) : bool :=
  ltd (px p) (px q)
  || (negb (ltd (px q) (px p))
      && (ltd (py p) (py q)
          || (negb (ltd (py q) (py p)) && ltd (pz p) (pz q)))).

(** The square root to ten decimal places, rounded down. *)
Definition approx_sqrt (q : double) : double :=
  Z.sqrt (Qnum q * Zpos (Qden q) * 10 ^ 20) # (Qden q * 10 ^ 10).

Definition euclidean_norm (p : Vector3d) : double :=
  approx_sqrt (px p * px p + py p * py p + pz p * pz p).

Definition cross_product (p q : Vector3d) : Vector3d :=
  mkPoint (py p * pz q - pz p * py q)
          (pz p * px q - px p * pz q)
          (px p * py q - py p * px q).

(** Two triangles of the unit square, sharing two vertices. *)
Definition lower_triangle : IO.Facet :=
  IO.mkFacet (mkPoint 0 0 1) (mkPoint 0 0 0) (mkPoint 1 0 0) (mkPoint 0 1 0).
Definition upper_triangle : IO.Facet :=
  IO.mkFacet (mkPoint 0 0 1) (mkPoint 1 0 0) (mkPoint 1 1 0) (mkPoint 0 1 0).

(** The lower triangle with a stored normal of length zero. *)
Definition zero_normal_triangle : IO.Facet :=
  IO.mkFacet (mkPoint 0 0 0) (mkPoint 0 0 0) (mkPoint 1 0 0) (mkPoint 0 1 0).

(** A reader whose text side yields the lower triangle and whose binary
    side yields nothing. *)
Definition reader : IO.Reader :=
  {| IO.PointComparison := lexicographic;
     IO.ZEROTOL := 1 # 10 ^ 14;
     IO.Norm := euclidean_norm;
     IO.Cross := cross_product;
     IO.ascii_facets := fun _ => [lower_triangle];
     IO.binary_facets := fun _ => [] |}.

(** *** Sample files *)

Local Open Scope char_scope.

Definition keywords : list ascii :=
  ["s"; "o"; "l"; "i"; "d"; " "; "p"; "a"; "r"; "t"; "010";
   "f"; "a"; "c"; "e"; "t"; " "; "n"; "o"; "r"; "m"; "a"; "l"; " ";
   "0"; " "; "0"; " "; "1"; "010"].

Definition capital_keywords : list ascii :=
  ["S"; "O"; "L"; "I"; "D"; "010"; "F"; "a"; "c"; "e"; "t"; " ";
   "N"; "O"; "R"; "M"; "A"; "L"].

(** Eighty blanks, then the keywords of an ASCII file. *)
Definition late_keywords : list ascii := repeat " " 80 ++ keywords.

Local Close Scope char_scope.

End Samples.

(** ** More sample configurations *)

Module MoreSamples.

Import VoxelIndexing QuESo Mesh Samples.

(** The sample driver with the embedding flag off. *)
Definition model_without_embedding : Model :=
  {| IntegrationMethodType := unit;
     TrimmedDomain := unit;
     K := kernel 0 harmonic_weights;
     mParameters := parameters;
     embedding_flag := false;
     GGQRuleIsUsed := false;
     integration_method := tt;
     mMapper := {| mBoundXYZ := (origin, corner);
                   mBoundUVW := (origin, corner);
                   mNumberOfElements := (2, 1, 1)%N;
                   mBSplineMesh := true |};
     GetGauss := fun _ _ => [(1 # 2, 1)];
     p_classifications := fun index => if (index =? 0)%N then Inside else Trimmed;
     pGetTrimmedDomain := fun _ _ => Some tt;
     ComputeConstantTerms := fun _ _ => [];
     MakeOctree := fun _ => 0%N |}.

(** A mapper of [4 x 5 x 6] cells over the unit cube. *)
Definition mapper : VoxelIndexer :=
  {| mBoundXYZ := (origin, corner);
     mBoundUVW := (origin, corner);
     mNumberOfElements := (4, 5, 6)%N;
     mBSplineMesh := true |}.

(** A geometry whose every ray meets triangle 0 at distance two and
    triangle 1 at distance one, both well inside the triangle, the nearer
    one from behind. *)
Definition crossing_geometry : TrimmedDomain.Geometry :=
  {| TrimmedDomain.EPS2 := 1 # 10 ^ 10;
     TrimmedDomain.EPS3 := 1 # 10 ^ 10;
     TrimmedDomain.MAXD := inject_Z (10 ^ 308);
     TrimmedDomain.Norm := fun _ => 1;
     TrimmedDomain.is_parallel := fun _ _ _ _ => false;
     TrimmedDomain.intersect := fun _ p1 _ _ =>
       if Qeq_bool (pz p1) 0
       then TrimmedDomain.mkIntersection true 2 (1 # 4) (1 # 4) false false
       else TrimmedDomain.mkIntersection true 1 (1 # 4) (1 # 4) true false;
     TrimmedDomain.AABB_tree := unit;
     TrimmedDomain.Query := fun _ _ => [0%nat; 1%nat] |}.

(** Two triangles, one above the other. *)
Definition two_triangles : TriangleMesh :=
  {| GetVertices := [mkPoint 0 0 0; mkPoint 1 0 0; mkPoint 0 1 0;
                     mkPoint 0 0 1; mkPoint 1 0 1; mkPoint 0 1 1];
     GetTriangles := [(0, 1, 2)%nat; (3, 4, 5)%nat];
     GetNormals := [mkPoint 0 0 1; mkPoint 0 0 1] |}.

(** A stand-in for the four bytes of a [float]: the integer part of the
    value, as an [unsigned int]. *)
Definition integer_bytes (x : double) : list ascii :=
  STL.int_bytes (Z.to_N (Qnum x / Zpos (Qden x)) mod 2 ^ 32).

Definition integer_of_bytes (bytes : list ascii) : double :=
  inject_Z (Z.of_N (STL.uint_of_bytes bytes)).

(** A stand-in for the text of a [double]: no text. *)
Definition no_text (x : double) : list ascii := [].

Import String.

(** Components as a test gives them. *)
Definition given_components : list TestParameter.Component :=
  [TestParameter.mkComponent "echo_level"%string (TestParameter.of_IndexType 3%N);
   TestParameter.mkComponent "lower_bound"%string (TestParameter.of_PointType origin)].

(** Calls of [SetIsTouching]: two for cell 1 and one for cell 2. *)
Definition touching_calls : list (IndexType * (PointType * PointType)) :=
  [(1%N, (mkPoint 1 0 0, mkPoint 0 1 0));
   (2%N, (mkPoint 0 0 1, mkPoint 0 0 1));
   (1%N, (mkPoint 1 1 1, mkPoint 2 2 2))].

End MoreSamples.

(** * Facts *)

Lemma ltd_true (x y : double) : ltd x y = true -> x < y.
Proof.
  unfold ltd. intros H. apply negb_true_iff in H.
  apply Qnot_le_lt. intros Hle. apply Qle_bool_iff in Hle. congruence.
Qed.

Lemma ltd_false (x y : double) : ltd x y = false -> y <= x.
Proof.
  unfold ltd. intros H. apply negb_false_iff in H. now apply Qle_bool_iff.
Qed.

Lemma ltd_lt (x y : double) : x < y -> ltd x y = true.
Proof.
  intros H. destruct (ltd x y) eqn:E; [reflexivity|].
  apply ltd_false in E. exfalso. eapply Qlt_not_le; eassumption.
Qed.

Lemma ltd_ge (x y : double) : y <= x -> ltd x y = false.
Proof.
  intros H. destruct (ltd x y) eqn:E; [|reflexivity].
  apply ltd_true in E. exfalso. eapply Qlt_not_le; eassumption.
Qed.

Lemma erase_at_length {A : Type} (i : nat) (l : list A) :
  (i < length l)%nat -> length (erase_at i l) = pred (length l).
Proof.
  revert i; induction l as [|x l IH]; intros i Hi; simpl in *; [lia|].
  destruct i as [|i]; simpl; [reflexivity|].
  rewrite IH by lia. lia.
Qed.

Lemma erase_at_length_le {A : Type} (i : nat) (l : list A) :
  (length (erase_at i l) <= length l)%nat.
Proof.
  revert i; induction l as [|x l IH]; intros i; simpl; [destruct i; simpl; lia|].
  destruct i as [|i]; simpl; [lia|]. specialize (IH i). lia.
Qed.

(** ** Moment fitting: the facts *)

Module MomentFittingTheory.

Import MomentFitting.

(** *** Facts about the building blocks *)

Section Properties.

Variable K : Kernel.
Variable rParam : Parameters.
Variable a b : PointType.

Local Abbreviation N_f := (N.to_nat (number_of_functions rParam)).

Lemma write_weights_length weights i pts :
  length (write_weights rParam weights i pts) = length pts.
Proof.
  revert i; induction pts as [|p pts IH]; intros i; simpl; [reflexivity|].
  now rewrite IH.
Qed.

Lemma MomentFitting1_length ct pts :
  length (snd (MomentFitting1 K rParam a b ct pts)) = length pts.
Proof.
  unfold MomentFitting1.
  destruct (nnls K _ ct) as [norm weights]; simpl.
  apply write_weights_length.
Qed.

Lemma insert_by_weight_perm p l : Permutation (p :: l) (insert_by_weight p l).
Proof.
  induction l as [|q l IH]; simpl; [reflexivity|].
  destruct (ltd (GetWeight q) (GetWeight p)); [reflexivity|].
  rewrite perm_swap. now apply perm_skip.
Qed.

Lemma sort_by_weight_perm l : Permutation l (sort_by_weight l).
Proof.
  induction l as [|p l IH]; simpl; [constructor|].
  rewrite <- insert_by_weight_perm. now apply perm_skip.
Qed.

Lemma insert_by_weight_sorted p l :
  StronglySorted heavier l -> StronglySorted heavier (insert_by_weight p l).
Proof.
  induction 1 as [|q l Hl IH Hq]; simpl.
  - repeat constructor.
  - destruct (ltd (GetWeight q) (GetWeight p)) eqn:E.
    + apply ltd_true in E.
      constructor; [now constructor|].
      constructor; [now apply Qlt_le_weak|].
      eapply Forall_impl; [|exact Hq].
      intros r Hr. unfold heavier in *. apply Qlt_le_weak in E.
      eapply Qle_trans; eassumption.
    + apply ltd_false in E.
      constructor; [assumption|].
      eapply Permutation_Forall; [apply insert_by_weight_perm|].
      now constructor.
Qed.

Lemma sort_by_weight_sorted l : StronglySorted heavier (sort_by_weight l).
Proof.
  induction l as [|p l IH]; simpl; [constructor|].
  now apply insert_by_weight_sorted.
Qed.

(** In a list sorted heavier-first, every point of a prefix is at least as
    heavy as every point behind it. *)
Lemma sorted_firstn_skipn n l p q :
  StronglySorted heavier l ->
  In p (firstn n l) -> In q (skipn n l) -> heavier p q.
Proof.
  intros Hs; revert n; induction Hs as [|r l Hl IH Hr]; intros n Hp Hq.
  - now rewrite firstn_nil in Hp.
  - destruct n as [|n]; simpl in *; [contradiction|].
    destruct Hp as [<-|Hp].
    + rewrite Forall_forall in Hr. apply Hr.
      rewrite <- (firstn_skipn n l). apply in_or_app. now right.
    + now apply (IH n).
Qed.

(** What the first scan computes: [max'] bounds every weight and is the
    initial value or the weight of a point; [it'] is the initial iterator or
    the index of the first point of least weight. *)
Lemma scan_min_max_spec l : forall i it mn mx it' mn' mx',
  scan_min_max l i it mn mx = (it', mn', mx') ->
  (Forall (fun p => GetWeight p <= mx') l /\ mx <= mx'
   /\ (mx' = mx \/ Exists (fun p => GetWeight p = mx') l))
  /\ (Forall (fun p => mn' <= GetWeight p) l /\ mn' <= mn
      /\ ((it' = it /\ mn' = mn)
          \/ (exists p, (i <= it')%nat /\ nth_error l (it' - i) = Some p
                /\ GetWeight p = mn' /\ mn' < mn
                /\ forall j q, (j < it' - i)%nat -> nth_error l j = Some q ->
                               mn' < GetWeight q))).
Proof.
  induction l as [|p l IH]; intros i it mn mx it' mn' mx' H; simpl in H.
  - inversion H; subst. repeat split; try constructor; try lra; auto.
  - destruct (ltd (GetWeight p) mn) eqn:Emin;
    destruct (ltd mx (GetWeight p)) eqn:Emax;
    apply IH in H; destruct H as [[Hmx [Hmx2 Hmx3]] [Hmn [Hmn2 Hmn3]]];
    try apply ltd_true in Emin; try apply ltd_true in Emax;
    try apply ltd_false in Emin; try apply ltd_false in Emax.
    all: split; [split; [|split] | split; [|split]].
    all: try (constructor; [lra | assumption]).
    all: try lra.
    all: try (destruct Hmx3 as [->|Hex];
              [ (left; reflexivity) || (right; now constructor)
              | right; now apply Exists_cons_tl ]).
    all: try (destruct Hmn3 as [[-> ->]|(q & Hi & Hq & Hw & Hlt & Hfirst)];
      [ (left; split; reflexivity)
        || (right; exists p; replace (i - i)%nat with 0%nat by lia; simpl;
            repeat split; auto; try lra; intros j q Hj; lia)
      | right; exists q; replace (it' - i)%nat with (S (it' - S i)) by lia; simpl;
        repeat split; auto; try lia; try lra;
        intros j r Hj Hr; destruct j as [|j]; simpl in Hr;
        [ inversion Hr; subst; lra | apply (Hfirst j r); [lia | assumption] ] ]).
Qed.

Lemma filter_erase_at {A : Type} (f : A -> bool) (i : nat) (l : list A) (x : A) :
  nth_error l i = Some x -> f x = false -> filter f (erase_at i l) = filter f l.
Proof.
  revert i; induction l as [|y l IH]; intros i Hx Hf; destruct i; simpl in *;
    try discriminate.
  - inversion Hx; subst. now rewrite Hf.
  - now rewrite (IH i Hx Hf).
Qed.

Lemma firstn_erase_at {A : Type} (i : nat) (l : list A) :
  firstn i (erase_at i l) = firstn i l.
Proof.
  revert i; induction l as [|y l IH]; intros i; destruct i; simpl; try reflexivity.
  now rewrite IH.
Qed.

Lemma firstn_S_eq {A : Type} (i : nat) (l l' : list A) :
  firstn (S i) l' = firstn (S i) l -> firstn i l' = firstn i l.
Proof.
  intros H.
  assert (E : forall x : list A, firstn i x = firstn i (firstn (S i) x)).
  { intros x. rewrite firstn_firstn. f_equal. lia. }
  rewrite (E l'), (E l). now rewrite H.
Qed.

(** What the second scan does to the list and the counter. *)
Lemma erase_light_spec fuel : forall i mx l c l' c',
  erase_light K fuel i mx l c = (l', c') ->
  (length l' + c' = length l + c)%nat /\ (c <= c')%nat
  /\ (c' = c -> l' = l)
  /\ ((length l <= 4)%nat -> l' = l /\ c' = c)
  /\ ((4 < length l)%nat -> (4 <= length l')%nat)
  /\ filter (fun p => negb (light K mx p)) l' = filter (fun p => negb (light K mx p)) l
  /\ firstn i l' = firstn i l.
Proof.
  induction fuel as [|fuel IH]; intros i mx l c l' c' H; simpl in H.
  - inversion H; subst. repeat split; auto; lia.
  - destruct (nth_error l i) as [p|] eqn:Ep.
    2:{ inversion H; subst. repeat split; auto; lia. }
    assert (Hi : (i < length l)%nat) by (apply nth_error_Some; congruence).
    destruct (ltd (GetWeight p) (EPS1 K * mx) && (4 <? length l)%nat) eqn:E.
    + apply andb_true_iff in E. destruct E as [El E4]. apply Nat.ltb_lt in E4.
      apply IH in H. destruct H as (H1 & H2 & H3 & H4 & H5 & H6 & H7).
      rewrite (erase_at_length i l Hi) in *.
      repeat split; try lia.
      * rewrite H6. apply (filter_erase_at _ i l p Ep).
        unfold light. now rewrite El.
      * apply firstn_S_eq in H7. rewrite H7. apply firstn_erase_at.
    + apply IH in H. destruct H as (H1 & H2 & H3 & H4 & H5 & H6 & H7).
      split; [assumption|]. split; [assumption|]. split; [assumption|].
      split; [assumption|]. split; [assumption|]. split; [assumption|].
      now apply firstn_S_eq.
Qed.

(** The second scan needs no more passes than the list is long. *)
Lemma erase_light_enough fuel : forall i mx l c k,
  (length l <= i + fuel)%nat ->
  erase_light K (fuel + k) i mx l c = erase_light K fuel i mx l c.
Proof.
  induction fuel as [|fuel IH]; intros i mx l c k Hlen.
  - assert (Hnone : nth_error l i = None) by (apply nth_error_None; lia).
    destruct k; simpl; [reflexivity | now rewrite Hnone].
  - simpl. destruct (nth_error l i) as [p|] eqn:Ep; [|reflexivity].
    assert (Hi : (i < length l)%nat) by (apply nth_error_Some; congruence).
    destruct (ltd (GetWeight p) (EPS1 K * mx) && (4 <? length l)%nat).
    + apply IH. rewrite erase_at_length by assumption. lia.
    + apply IH. lia.
Qed.

(** The scan erases at least the first light point when more than four
    points are there. *)
Lemma erase_light_progress fuel : forall i mx l c j p,
  (4 < length l)%nat -> (i <= j)%nat -> nth_error l j = Some p ->
  light K mx p = true -> (j < i + fuel)%nat ->
  (c < snd (erase_light K fuel i mx l c))%nat.
Proof.
  induction fuel as [|fuel IH]; intros i mx l c j p H4 Hij Hp Hl Hf; [lia|].
  simpl.
  assert (Hj : (j < length l)%nat) by (apply nth_error_Some; congruence).
  destruct (nth_error l i) as [q|] eqn:Eq.
  2:{ apply nth_error_None in Eq. lia. }
  apply Nat.ltb_lt in H4 as H4b. rewrite H4b, andb_true_r.
  destruct (ltd (GetWeight q) (EPS1 K * mx)) eqn:El.
  - destruct (erase_light K fuel (S i) mx (erase_at i l) (S c)) as [l' c'] eqn:E.
    apply erase_light_spec in E. simpl. lia.
  - assert (i <> j).
    { intros ->. rewrite Hp in Eq. inversion Eq; subst.
      unfold light in Hl. congruence. }
    apply (IH (S i) mx l c j p); auto; lia.
Qed.

Lemma scan_min_max_index l it mn mx :
  scan_min_max l 0 0 (10 ^ 10) (- 10 ^ 10) = (it, mn, mx) ->
  l <> [] -> (it < length l)%nat.
Proof.
  intros H Hl. apply scan_min_max_spec in H.
  destruct H as [_ (_ & _ & [[-> _]|(p & _ & Hp & _)])].
  - destruct l; [congruence | simpl; lia].
  - rewrite Nat.sub_0_r in Hp. apply nth_error_Some. congruence.
Qed.

(** A later round below the target: what is remembered, and that a point
    is removed exactly when more than four are there. *)
Lemma eliminate_spec st res pts :
  let st' := eliminate K st res pts in
  prev_solution st' = pts /\ prev_residual st' = res /\ global_residual st' = res
  /\ (point_removed st' = true ->
      (4 < length pts)%nat /\ (length (points st') < length pts)%nat
      /\ (4 <= length (points st'))%nat
      /\ number_iterations st' = (number_iterations st + 1)%N)
  /\ (point_removed st' = false ->
      points st' = pts /\ (length pts <= 4)%nat
      /\ number_iterations st' = (maximum_iteration + 10 + 1)%N).
Proof.
  unfold eliminate.
  destruct (scan_min_max pts 0 0 (10 ^ 10) (- 10 ^ 10)) as [[it mn] mx] eqn:Escan.
  destruct (erase_light K (length pts) 0 mx pts 0) as [pts1 counter] eqn:Eerase.
  apply erase_light_spec in Eerase.
  destruct Eerase as (H1 & H2 & H3 & H4 & H5 & H6 & H7).
  destruct (Nat.eqb_spec counter 0) as [-> | Hc]; simpl.
  - specialize (H3 eq_refl). subst pts1.
    destruct (Nat.ltb_spec 4 (length pts)) as [Hlen | Hlen]; simpl.
    + assert (Hit : (it < length pts)%nat).
      { apply (scan_min_max_index _ _ _ _ Escan). destruct pts; simpl in *; [lia | congruence]. }
      rewrite (erase_at_length it pts Hit).
      destruct (Nat.leb_spec (pred (length pts)) 4); simpl;
        repeat split; try lia; try reflexivity; try discriminate.
    + destruct (Nat.leb_spec (length pts) 4); [|lia]. simpl.
      repeat split; try lia; try reflexivity; try discriminate.
  - assert (H4' : (4 < length pts)%nat).
    { destruct (Nat.lt_ge_cases 4 (length pts)); [assumption|].
      destruct (H4 H) as [_ ->]. lia. }
    specialize (H5 H4').
    destruct (Nat.leb_spec (length pts1) 4); simpl;
      repeat split; try lia; try reflexivity; try discriminate.
Qed.

(** The first round: sorted, cut to [number_of_functions] points, and
    flagged as having removed a point. *)
Lemma round_first ct st :
  number_iterations st = 0%N ->
  let pts := snd (MomentFitting1 K rParam a b ct (points st)) in
  let st' := round K rParam a b ct st in
  points st' = firstn N_f (sort_by_weight pts)
  /\ point_removed st' = true
  /\ number_iterations st' = 1%N
  /\ prev_solution st' = prev_solution st.
Proof.
  intros H0. unfold round. rewrite H0.
  destruct (MomentFitting1 K rParam a b ct (points st)) as [res pts]. simpl.
  repeat split.
Qed.

(** A later round. *)
Lemma round_later ct st :
  number_iterations st <> 0%N ->
  let res := fst (MomentFitting1 K rParam a b ct (points st)) in
  let pts := snd (MomentFitting1 K rParam a b ct (points st)) in
  round K rParam a b ct st =
    if ltd res (allowed_residual rParam) then eliminate K st res pts
    else {| points := pts;
            global_residual := res;
            prev_residual := prev_residual st;
            number_iterations := (number_iterations st + 1)%N;
            point_removed := false;
            prev_solution := prev_solution st |}.
Proof.
  intros H0. unfold round.
  destruct (MomentFitting1 K rParam a b ct (points st)) as [res pts]. simpl.
  destruct (N.eqb_spec (number_iterations st) 0); [contradiction | reflexivity].
Qed.

(** After a later round the loop goes on only if a point was removed, and
    then from a list of more than four points to a shorter one. *)
Lemma round_later_continues ct st :
  number_iterations st <> 0%N ->
  let st' := round K rParam a b ct st in
  number_iterations st' <> 0%N
  /\ (length (points st') <= length (points st))%nat
  /\ (continues rParam st' = true ->
      point_removed st' = true
      /\ (4 < length (points st))%nat
      /\ (length (points st') < length (points st))%nat).
Proof.
  intros H0. cbv zeta. rewrite (round_later ct st H0).
  pose proof (MomentFitting1_length ct (points st)) as Hlen.
  destruct (ltd _ (allowed_residual rParam)) eqn:Eres.
  - pose proof (eliminate_spec st (fst (MomentFitting1 K rParam a b ct (points st)))
                  (snd (MomentFitting1 K rParam a b ct (points st)))) as Hs.
    cbv zeta in Hs. destruct Hs as (_ & _ & _ & Hrem & Hkeep).
    destruct (point_removed (eliminate K st _ _)) eqn:Er.
    + destruct (Hrem eq_refl) as (Ha & Hb & Hc & Hd).
      rewrite Hd. repeat split; try lia.
    + destruct (Hkeep eq_refl) as (Ha & Hb & Hc).
      rewrite Hc, Ha. split; [discriminate|]. split; [lia|].
      unfold continues. rewrite Er, Hc. simpl.
      rewrite andb_false_r. discriminate.
  - simpl. split; [lia|]. split; [lia|].
    unfold continues. simpl. rewrite Eres. discriminate.
Qed.

(** *** The loop of [PointElimination] *)

(** A property kept by every round is kept by the loop. *)
Lemma elimination_loop_invariant (P : State -> Prop) ct :
  (forall st, P st -> continues rParam st = true -> P (round K rParam a b ct st)) ->
  forall fuel st n st',
    P st -> elimination_loop K rParam a b fuel ct st = Some (n, st') ->
    P st' /\ continues rParam st' = false.
Proof.
  intros Hstep. induction fuel as [|fuel IH]; intros st n st' HP H; simpl in H.
  - destruct (continues rParam st) eqn:E; [discriminate|].
    inversion H; subst. now split.
  - destruct (continues rParam st) eqn:E.
    + destruct (elimination_loop K rParam a b fuel ct (round K rParam a b ct st))
        as [[m st1]|] eqn:El; [|discriminate].
      inversion H; subst. eapply IH; [|exact El]. now apply Hstep.
    + inversion H; subst. now split.
Qed.

(** From a state past the first round the loop ends within one round more
    than there are points above four. *)
Lemma elimination_loop_later ct : forall k st fuel,
  number_iterations st <> 0%N ->
  (length (points st) - 4 <= k)%nat -> (S k <= fuel)%nat ->
  exists n st', elimination_loop K rParam a b fuel ct st = Some (n, st')
                /\ (n <= S k)%nat.
Proof.
  induction k as [|k IH]; intros st fuel H0 Hk Hf;
    (destruct fuel as [|fuel]; [lia|]); simpl;
    destruct (continues rParam st) eqn:Ec; try (exists 0%nat, st; split; [reflexivity | lia]);
    destruct (round_later_continues ct st H0) as (H1 & H2 & H3);
    set (st1 := round K rParam a b ct st) in *;
    destruct (continues rParam st1) eqn:Ec1.
  - destruct (H3 eq_refl) as (_ & Hlen & _). lia.
  - destruct fuel; simpl; rewrite Ec1; exists 1%nat, st1; split; (reflexivity || lia).
  - destruct (H3 eq_refl) as (_ & Hlen & Hlt).
    destruct (IH st1 fuel H1) as (n & st' & Hl & Hn); try lia.
    rewrite Hl. exists (S n), st'. split; [reflexivity | lia].
  - destruct fuel; simpl; rewrite Ec1; exists 1%nat, st1; split; (reflexivity || lia).
Qed.

(** The loop from the initial state: it ends, after at most two rounds more
    than the first round leaves points above four. *)
Lemma elimination_loop_initial ct pts fuel :
  (2 + (Nat.min N_f (length pts) - 4) <= fuel)%nat ->
  exists n st', elimination_loop K rParam a b fuel ct (initial_state K pts)
                = Some (n, st')
                /\ (n <= 2 + (Nat.min N_f (length pts) - 4))%nat.
Proof.
  intros Hf. destruct fuel as [|fuel]; [lia|]. simpl.
  destruct (continues rParam (initial_state K pts)) eqn:Ec.
  2:{ exists 0%nat, (initial_state K pts). split; [reflexivity | lia]. }
  destruct (round_first ct (initial_state K pts) eq_refl) as (Hp & _ & Hn & _).
  set (st1 := round K rParam a b ct (initial_state K pts)) in *.
  assert (Hlen : length (points st1) = Nat.min N_f (length pts)).
  { rewrite Hp, length_firstn, <- (Permutation_length (sort_by_weight_perm _)).
    now rewrite MomentFitting1_length. }
  destruct (elimination_loop_later ct (Nat.min N_f (length pts) - 4) st1 fuel)
    as (n & st' & Hl & Hle); try lia.
  rewrite Hl. exists (S n), st'. split; [reflexivity | lia].
Qed.

(** [PointElimination] returns on every input. *)
Lemma PointElimination_returns ct pts reduced :
  exists out, PointElimination K rParam a b ct pts reduced = Some out.
Proof.
  unfold PointElimination.
  destruct (elimination_loop_initial ct pts (S (S (length pts)))) as (n & st' & Hl & _);
    [lia|].
  rewrite Hl. eauto.
Qed.

Lemma round_within_N ct st :
  (number_iterations st = 0%N -> prev_solution st = []) ->
  (number_iterations st <> 0%N -> within_N rParam st) ->
  within_N rParam (round K rParam a b ct st).
Proof.
  intros Hinit Hlater.
  destruct (N.eq_dec (number_iterations st) 0) as [E|E].
  - destruct (round_first ct st E) as (Hp & _ & Hn & Hprev).
    unfold within_N. rewrite Hp, Hn, Hprev, (Hinit E), length_firstn. simpl.
    repeat split; lia.
  - destruct (Hlater E) as (_ & Hpts & Hprev).
    destruct (round_later_continues ct st E) as (H1 & H2 & _).
    split; [assumption|]. split; [lia|].
    rewrite (round_later ct st E).
    pose proof (MomentFitting1_length ct (points st)) as Hlen.
    destruct (ltd _ (allowed_residual rParam)).
    + destruct (eliminate_spec st (fst (MomentFitting1 K rParam a b ct (points st)))
                  (snd (MomentFitting1 K rParam a b ct (points st)))) as (-> & _).
      lia.
    + simpl. assumption.
Qed.

Lemma prune_length l : (length (prune K l) <= length l)%nat.
Proof. apply filter_length_le. Qed.

Lemma prune_weight l : Forall (fun p => EPS4 K <= GetWeight p) (prune K l).
Proof.
  apply Forall_forall. intros p Hp. apply filter_In in Hp. destruct Hp as [_ Hp].
  apply negb_true_iff in Hp. now apply ltd_false.
Qed.

(** *** [PointElimination] as a whole *)

Lemma PointElimination_rounds ct pts reduced out :
  PointElimination K rParam a b ct pts reduced = Some out ->
  (rounds_of out <= 2 + (Nat.min N_f (length pts) - 4))%nat.
Proof.
  unfold PointElimination. intros H.
  destruct (elimination_loop_initial ct pts (S (S (length pts)))) as (n & st' & Hl & Hn);
    [lia|].
  rewrite Hl in H. inversion H; subst.
  unfold finish. now destruct (_ && _).
Qed.

Lemma PointElimination_weights ct pts reduced out :
  PointElimination K rParam a b ct pts reduced = Some out ->
  Forall (fun p => EPS4 K <= GetWeight p) (element_points out).
Proof.
  unfold PointElimination. intros H.
  destruct (elimination_loop _ _ _ _ _ _ _) as [[n st]|]; [|discriminate].
  inversion H; subst. unfold finish.
  destruct (_ && _); simpl; apply prune_weight.
Qed.

Lemma PointElimination_size ct pts out :
  ltd (MIND K) (allowed_residual rParam) = true ->
  PointElimination K rParam a b ct pts [] = Some out ->
  (length (element_points out) <= N_f)%nat.
Proof.
  unfold PointElimination. intros Hmin H.
  destruct (elimination_loop _ _ _ _ _ _ _) as [[n st]|] eqn:El; [|discriminate].
  inversion H; subst. clear H.
  apply (elimination_loop_invariant
           (fun st => (number_iterations st = 0%N /\ prev_solution st = []
                       /\ continues rParam st = true) \/ within_N rParam st)) in El.
  - destruct El as [[(_ & _ & Hc) | (_ & Hp & Hs)] Hstop]; [congruence|].
    unfold finish. destruct (_ && _); simpl; rewrite app_nil_r;
      (eapply Nat.le_trans; [apply prune_length | assumption]).
  - intros st0 [(H0 & Hprev & _) | Hw] _; right; apply round_within_N; intros;
      try assumption; try contradiction.
    destruct Hw as [Hw _]. contradiction.
  - left. repeat split. unfold continues. simpl. now rewrite Hmin.
Qed.

(** *** The outer loop of [CreateIntegrationPointsTrimmed] *)

(** A property kept by every attempt is kept by the outer loop, which ends
    with its condition false. *)
Lemma fitting_loop_invariant (P : Fitting K -> Prop) fuel ct :
  (forall ft ft', P ft -> retries K rParam ft = true ->
                  attempt K rParam a b fuel ct ft = Some ft' -> P ft') ->
  forall passes ft ft',
    P ft -> fitting_loop K rParam a b passes fuel ct ft = Some ft' ->
    P ft' /\ retries K rParam ft' = false.
Proof.
  intros Hstep. induction passes as [|passes IH]; intros ft ft' HP H; simpl in H;
    destruct (retries K rParam ft) eqn:E; try discriminate;
    try (inversion H; subst; now split).
  destruct (attempt K rParam a b fuel ct ft) as [ft1|] eqn:Ea; [|discriminate].
  eapply IH; [|exact H]. eapply Hstep; eassumption.
Qed.

(** What one attempt leaves behind. *)
Lemma attempt_spec fuel ct ft ft' :
  attempt K rParam a b fuel ct ft = Some ft' ->
  exists oct seeded out,
    DistributeIntegrationPoints K rParam fuel (octree ft) (integration_points ft)
      (size_mul (size_mul (size_mul (size_add (order_u rParam) 1%N)
                                    (size_add (order_v rParam) 1%N))
                          (size_add (order_w rParam) 1%N))
                (point_distribution_factor ft)) = Some (oct, seeded)
    /\ PointElimination K rParam a b ct (seeded ++ GetIntegrationPoints ft) [] = Some out
    /\ residual ft' = residual_of out
    /\ iteration ft' = size_add (iteration ft) 1%N
    /\ point_distribution_factor ft' = size_mul (point_distribution_factor ft) 2%N
    /\ GetIntegrationPoints ft' =
         (if ltd (residual_cutoff) (residual_of out) then [] else element_points out).
Proof.
  unfold attempt. intros H.
  destruct (DistributeIntegrationPoints _ _ _ _ _ _) as [[oct seeded]|]; [|discriminate].
  destruct (PointElimination _ _ _ _ _ _ _) as [out|] eqn:Ep; [|discriminate].
  inversion H; subst; simpl. exists oct, seeded, out. repeat split. exact Ep.
Qed.

(** *** The rounds of the elimination *)

Lemma light_compat mx mx' p : mx' == mx -> light K mx' p = light K mx p.
Proof.
  intros E. unfold light, ltd. f_equal.
  apply Qleb_comp; [now rewrite E | reflexivity].
Qed.

Lemma scan_finds_max pts it mn mx' mx :
  scan_min_max pts 0 0 (10 ^ 10) (- 10 ^ 10) = (it, mn, mx') ->
  in_scan_range pts -> max_weight pts mx -> mx' == mx.
Proof.
  intros Hscan Hr [Hex Hall]. apply scan_min_max_spec in Hscan.
  destruct Hscan as [(Hb & _ & Hatt) _].
  apply Exists_exists in Hex. destruct Hex as (p0 & Hin0 & Hw0).
  unfold in_scan_range in Hr. rewrite Forall_forall in Hb, Hall, Hr.
  apply Qle_antisym.
  - destruct Hatt as [-> | Hatt].
    + destruct (Hr p0 Hin0) as [Hlo _]. rewrite Hw0 in Hlo. now apply Qlt_le_weak.
    + apply Exists_exists in Hatt. destruct Hatt as (q & Hq & <-). now apply Hall.
  - rewrite <- Hw0. now apply Hb.
Qed.

Lemma scan_finds_min pts it mn mx' :
  scan_min_max pts 0 0 (10 ^ 10) (- 10 ^ 10) = (it, mn, mx') ->
  in_scan_range pts -> pts <> [] ->
  exists p, nth_error pts it = Some p
            /\ Forall (fun q => GetWeight p <= GetWeight q) pts
            /\ forall j q, (j < it)%nat -> nth_error pts j = Some q ->
                           GetWeight p < GetWeight q.
Proof.
  intros Hscan Hr Hne. apply scan_min_max_spec in Hscan.
  destruct Hscan as [_ (Hb & _ & [[-> ->] | (p & _ & Hp & Hw & _ & Hfirst)])].
  - destruct pts as [|q pts]; [congruence|].
    unfold in_scan_range in Hr. inversion Hb; subst. inversion Hr; subst. lra.
  - rewrite Nat.sub_0_r in *. exists p. rewrite Hw. repeat split; assumption.
Qed.

Lemma erase_light_none fuel : forall i mx l c,
  Forall (fun p => light K mx p = false) l -> erase_light K fuel i mx l c = (l, c).
Proof.
  induction fuel as [|fuel IH]; intros i mx l c Hall; simpl; [reflexivity|].
  destruct (nth_error l i) as [p|] eqn:Ep; [|reflexivity].
  rewrite Forall_forall in Hall.
  pose proof (Hall p (nth_error_In l i Ep)) as Hp. unfold light in Hp.
  rewrite Hp. simpl. apply IH. now apply Forall_forall.
Qed.


(** *** [CreateIntegrationPointsTrimmed] as a whole *)

Lemma CreateIntegrationPointsTrimmed_weights fuel ct oct ft :
  CreateIntegrationPointsTrimmed K rParam a b fuel ct oct [] = Some ft ->
  Forall (fun p => EPS4 K <= GetWeight p) (GetIntegrationPoints ft).
Proof.
  unfold CreateIntegrationPointsTrimmed. intros H.
  apply (fitting_loop_invariant
           (fun ft => Forall (fun p => EPS4 K <= GetWeight p) (GetIntegrationPoints ft)))
    in H; [tauto | | constructor].
  intros ft0 ft1 _ _ Ha. apply attempt_spec in Ha.
  destruct Ha as (o & seeded & out & _ & Hpe & _ & _ & _ & ->).
  destruct (ltd residual_cutoff (residual_of out)); [constructor|].
  eapply PointElimination_weights; eassumption.
Qed.

Lemma CreateIntegrationPointsTrimmed_size fuel ct oct ft :
  ltd (MIND K) (allowed_residual rParam) = true ->
  CreateIntegrationPointsTrimmed K rParam a b fuel ct oct [] = Some ft ->
  (length (GetIntegrationPoints ft) <= N_f)%nat.
Proof.
  unfold CreateIntegrationPointsTrimmed. intros Hmin H.
  apply (fitting_loop_invariant
           (fun ft => (length (GetIntegrationPoints ft) <= N_f)%nat))
    in H; [tauto | | simpl; lia].
  intros ft0 ft1 _ _ Ha. apply attempt_spec in Ha.
  destruct Ha as (o & seeded & out & _ & Hpe & _ & _ & _ & ->).
  destruct (ltd residual_cutoff (residual_of out)); [simpl; lia|].
  eapply PointElimination_size; eassumption.
Qed.

Lemma CreateIntegrationPointsTrimmed_cutoff fuel ct oct ft :
  CreateIntegrationPointsTrimmed K rParam a b fuel ct oct [] = Some ft ->
  residual_cutoff < residual ft -> GetIntegrationPoints ft = [].
Proof.
  unfold CreateIntegrationPointsTrimmed. intros H.
  apply (fitting_loop_invariant
           (fun ft => residual_cutoff < residual ft -> GetIntegrationPoints ft = []))
    in H; [tauto | | reflexivity].
  intros ft0 ft1 _ _ Ha Hres. apply attempt_spec in Ha.
  destruct Ha as (o & seeded & out & _ & Hpe & Hr & _ & _ & ->).
  rewrite Hr in Hres. now rewrite (ltd_lt _ _ Hres).
Qed.

Lemma size_mul_pow2 (f i : N) :
  size_mul ((f * 2 ^ i) mod size_modulus)%N 2%N
  = ((f * 2 ^ (i + 1)) mod size_modulus)%N.
Proof.
  unfold size_mul. rewrite N.Div0.mul_mod_idemp_l.
  f_equal. rewrite N.pow_add_r. simpl. lia.
Qed.

(** The attempts are counted by [iteration]: at most four are made, each
    after the first with twice the distribution factor, and the loop stops
    short of four only with the residual within the target. *)
Lemma CreateIntegrationPointsTrimmed_attempts fuel ct oct eips ft :
  (GetPointDistributionFactor rParam < size_modulus)%N ->
  CreateIntegrationPointsTrimmed K rParam a b fuel ct oct eips = Some ft ->
  (iteration ft <= 4)%N
  /\ point_distribution_factor ft
     = ((GetPointDistributionFactor rParam * 2 ^ iteration ft) mod size_modulus)%N
  /\ (iteration ft = 4%N \/ residual ft <= allowed_residual rParam).
Proof.
  unfold CreateIntegrationPointsTrimmed. intros Hf H.
  apply (fitting_loop_invariant
           (fun ft => (iteration ft <= 4)%N
                      /\ point_distribution_factor ft
                         = ((GetPointDistributionFactor rParam * 2 ^ iteration ft)
                              mod size_modulus)%N))
    in H.
  - destruct H as [(Hle & Hfac) Hstop].
    unfold retries in Hstop. apply andb_false_iff in Hstop.
    split; [assumption|]. split; [assumption|].
    destruct Hstop as [Hres | Hit].
    + right. now apply ltd_false.
    + left. apply N.ltb_ge in Hit. lia.
  - intros ft0 ft1 (Hle & Hfac) Hre Ha. apply attempt_spec in Ha.
    destruct Ha as (o & seeded & out & _ & _ & _ & Hit & Hfac1 & _).
    unfold retries in Hre. apply andb_true_iff in Hre. destruct Hre as [_ Hlt].
    apply N.ltb_lt in Hlt.
    assert (Hit' : iteration ft1 = (iteration ft0 + 1)%N).
    { rewrite Hit. unfold size_add. apply N.mod_small.
      unfold size_modulus. simpl. lia. }
    rewrite Hit'. split; [lia|].
    rewrite Hfac1, Hfac. apply size_mul_pow2.
  - simpl. split; [lia|]. rewrite N.mul_1_r. symmetry. now apply N.mod_small.
Qed.

(** The outer loop returns whenever every seeding does: four passes are
    enough, and [PointElimination] always returns. *)
Lemma fitting_loop_returns fuel ct :
  (forall o pts m, DistributeIntegrationPoints K rParam fuel o pts m <> None) ->
  forall passes ft,
    (iteration ft <= 4)%N -> (4 <= passes + N.to_nat (iteration ft))%nat ->
    exists ft', fitting_loop K rParam a b passes fuel ct ft = Some ft'.
Proof.
  intros Hseed. induction passes as [|passes IH]; intros ft Hle Hp; simpl;
    destruct (retries K rParam ft) eqn:Er; eauto;
    unfold retries in Er; apply andb_true_iff in Er; destruct Er as [_ Hlt];
    apply N.ltb_lt in Hlt; [lia|].
  destruct (attempt K rParam a b fuel ct ft) as [ft1|] eqn:Ea.
  - pose proof (attempt_spec _ _ _ _ Ea) as (_ & _ & _ & _ & _ & _ & Hit & _).
    assert (iteration ft1 = (iteration ft + 1)%N) as Hit'.
    { rewrite Hit. unfold size_add. apply N.mod_small. unfold size_modulus. simpl. lia. }
    apply IH; lia.
  - exfalso. unfold attempt in Ea.
    destruct (DistributeIntegrationPoints _ _ _ _ _ _) as [[o seeded]|] eqn:Ed.
    + destruct (PointElimination_returns ct (seeded ++ GetIntegrationPoints ft) [])
        as [out Hout].
      rewrite Hout in Ea. discriminate.
    + eapply Hseed; eassumption.
Qed.

Lemma CreateIntegrationPointsTrimmed_returns fuel ct oct eips :
  (forall o pts m, DistributeIntegrationPoints K rParam fuel o pts m <> None) ->
  exists ft, CreateIntegrationPointsTrimmed K rParam a b fuel ct oct eips = Some ft.
Proof.
  intros Hseed. apply fitting_loop_returns; simpl; try lia. assumption.
Qed.


End Properties.

End MomentFittingTheory.

(** ** Grid indexing: the facts *)

Module VoxelIndexingTheory.

Import VoxelIndexing.

Lemma cell_extent (l u n i : double) :
  ~ u == l -> 0 < n ->
  ~ l + Qabs (u - l) / n * (1 + i) == l + Qabs (u - l) / n * i.
Proof.
  intros Hne Hn E.
  assert (Hd : Qabs (u - l) / n == 0).
  { setoid_replace (Qabs (u - l) / n)
      with ((l + Qabs (u - l) / n * (1 + i)) - (l + Qabs (u - l) / n * i)) by ring.
    rewrite E. ring. }
  assert (Ha : Qabs (u - l) == 0).
  { setoid_replace (Qabs (u - l)) with (Qabs (u - l) / n * n) by (field; lra).
    rewrite Hd. ring. }
  apply Hne.
  assert (Hle : Qabs (u - l) <= 0) by (rewrite Ha; apply Qle_refl).
  apply Qabs_Qle_condition in Hle. lra.
Qed.

(** The parametric box of every cell has extent when the parametric box
    of the grid has and, for a B-spline mesh, no axis has zero cells. *)
Lemma GetBoundingBoxUVWFromIndex_extent (m : VoxelIndexer) (Index : IndexType) :
  has_extent (mBoundUVW m) ->
  (mBSplineMesh m = true ->
   (0 < nx (mNumberOfElements m) /\ 0 < ny (mNumberOfElements m)
    /\ 0 < nz (mNumberOfElements m))%N) ->
  has_extent (GetBoundingBoxUVWFromIndex m Index).
Proof.
  intros (Hx & Hy & Hz) Hn. unfold GetBoundingBoxUVWFromIndex.
  destruct (mBSplineMesh m); [|now repeat split].
  destruct (Hn eq_refl) as (Hnx & Hny & Hnz).
  unfold GetBoundingBoxFromIndex.
  destruct (GetMatrixIndicesFromVectorIndex Index (mNumberOfElements m)) as [[i j] k].
  assert (Hpos : forall n : N, (0 < n)%N -> 0 < to_double n).
  { intros n H. unfold to_double. change 0 with (inject_Z 0).
    rewrite <- Zlt_Qlt. lia. }
  unfold has_extent, GetBoundingBoxFromIndices; simpl.
  repeat split; apply cell_extent; auto.
Qed.

End VoxelIndexingTheory.

(** ** The driver: the facts *)

Module QuESoTheory.

Import VoxelIndexing VoxelIndexingTheory QuESo.

Section DriverProperties.

Variable M : Model.

Lemma Qabs_pos_of_neq (x y : double) : ~ x == y -> 0 < Qabs (x - y).
Proof.
  intros Hne. destruct (Qlt_le_dec 0 (Qabs (x - y))) as [H|H]; [assumption|].
  exfalso. apply Hne. apply Qabs_Qle_condition in H. lra.
Qed.

(** The tensor rule has positive weights when the tables have and the box
    has extent along every axis. *)
Lemma AssembleIPs_positive (L U : PointType) (rOrder : Vector3i)
    (Method : IntegrationMethodType M) :
  (forall order method, Forall (fun ip => 0 < snd ip) (GetGauss M order method)) ->
  has_extent (L, U) ->
  Forall (fun p => 0 < GetWeight p) (AssembleIPs M L U rOrder Method).
Proof.
  intros Htab (Hx & Hy & Hz). simpl in Hx, Hy, Hz.
  apply Forall_forall. intros p Hp. unfold AssembleIPs in Hp.
  apply in_flat_map in Hp. destruct Hp as (u & Hu & Hp).
  apply in_flat_map in Hp. destruct Hp as (v & Hv & Hp).
  apply in_map_iff in Hp. destruct Hp as (w & <- & Hw). cbn [GetWeight].
  pose proof (Htab (nx rOrder) Method) as Tu.
  pose proof (Htab (ny rOrder) Method) as Tv.
  pose proof (Htab (nz rOrder) Method) as Tw.
  rewrite Forall_forall in Tu, Tv, Tw.
  repeat apply Qmult_lt_0_compat; auto using Qabs_pos_of_neq.
Qed.

(** What the body of the loop does to the container: nothing, or one
    element added, which is an untrimmed one with the tensor rule (no point
    yet under a GGQ rule) or a trimmed one with the points, at least one, the
    moment fitting left. *)
Lemma Compute_cell_spec fuel index container container' :
  Compute_cell M fuel index container = Some container' ->
  container' = container
  \/ exists e, container' = AddElement M e container
       /\ ((IsTrimmed e = false
            /\ GetIntegrationPoints e
               = if GGQRuleIsUsed M then []
                 else AssembleIPs M
                        (fst (GetBoundingBoxUVWFromIndex (mMapper M) index))
                        (snd (GetBoundingBoxUVWFromIndex (mMapper M) index))
                        (MomentFitting.Order (mParameters M)) (integration_method M))
           \/ (IsTrimmed e = true
               /\ GetIntegrationPoints e <> []
               /\ exists d ft,
                    MomentFitting.CreateIntegrationPointsTrimmed (K M) (mParameters M)
                      (fst (GetBoundingBoxUVWFromIndex (mMapper M) index))
                      (snd (GetBoundingBoxUVWFromIndex (mMapper M) index)) fuel
                      (ComputeConstantTerms M d
                         (GetBoundingBoxUVWFromIndex (mMapper M) index))
                      (MakeOctree M d) [] = Some ft
                    /\ GetIntegrationPoints e = MomentFitting.GetIntegrationPoints ft)).
Proof.
  unfold Compute_cell. intros H.
  destruct (if embedding_flag M then p_classifications M index else Inside).
  - inversion H; subst. right. eexists. split; [reflexivity|]. left.
    destruct (GGQRuleIsUsed M); simpl; split; reflexivity.
  - inversion H; subst. now left.
  - simpl in H.
    destruct (pGetTrimmedDomain M _ _) as [d|]; [|inversion H; subst; now left].
    unfold AssembleIPs_trimmed in H. simpl in H.
    destruct (MomentFitting.CreateIntegrationPointsTrimmed _ _ _ _ _ _ _ _)
      as [ft|] eqn:Eft; [|discriminate].
    inversion H; subst. clear H. unfold size.
    destruct (MomentFitting.GetIntegrationPoints ft) as [|p pts] eqn:Epts.
    + now left.
    + right. eexists. split; [reflexivity|]. right. simpl.
      split; [reflexivity|]. split; [discriminate|].
      exists d, ft. split; [exact Eft | now rewrite Epts].
Qed.

(** A property of the elements that every pass of the loop keeps holds in
    the container [Compute] returns. *)
Lemma Compute_invariant (P : Element M -> Prop) fuel container :
  (forall index c c', Forall P c -> Compute_cell M fuel index c = Some c' ->
                      Forall P c') ->
  Compute M fuel = Some container -> Forall P container.
Proof.
  intros Hstep. unfold Compute.
  generalize (map N.of_nat
    (seq 0 (Z.to_nat (static_cast_int (NumberOfElements (mMapper M)))))).
  intros indices. generalize (@nil (Element M)) (Forall_nil P).
  induction indices as [|index rest IH]; intros c Hc H; simpl in H.
  - inversion H; subst. assumption.
  - destruct (Compute_cell M fuel index c) as [c'|] eqn:E; [|discriminate].
    eapply IH; [|exact H]. eapply Hstep; eassumption.
Qed.


(** C4.  An attempt of the moment fitting whose residual exceeds the cutoff
    [1e-2] leaves the element without points, and so does
    [CreateIntegrationPointsTrimmed] when its final residual exceeds it; the
    driver adds no trimmed element without points to the container. *)
Theorem cutoff_clears_points_and_empty_trimmed_elements_are_skipped fuel :
  (forall a b ct ft ft',
     MomentFitting.attempt (K M) (mParameters M) a b fuel ct ft = Some ft' ->
     MomentFitting.residual_cutoff < MomentFitting.residual ft' ->
     MomentFitting.GetIntegrationPoints ft' = [])
  /\ (forall a b ct oct ft,
        MomentFitting.CreateIntegrationPointsTrimmed (K M) (mParameters M) a b fuel ct oct []
          = Some ft ->
        MomentFitting.residual_cutoff < MomentFitting.residual ft ->
        MomentFitting.GetIntegrationPoints ft = [])
  /\ (forall container,
        Compute M fuel = Some container ->
        Forall (fun e => IsTrimmed e = true -> GetIntegrationPoints e <> []) container).
Proof.
  split; [|split].
  - intros a b ct ft ft' Ha Hres. apply MomentFittingTheory.attempt_spec in Ha.
    destruct Ha as (o & seeded & out & _ & _ & Hr & _ & _ & ->).
    rewrite Hr in Hres. now rewrite (ltd_lt _ _ Hres).
  - intros a b ct oct ft. apply MomentFittingTheory.CreateIntegrationPointsTrimmed_cutoff.
  - intros container. apply Compute_invariant. intros index c c' Hc Hcell.
    apply Compute_cell_spec in Hcell.
    destruct Hcell as [-> | (e & -> & He)]; [assumption|].
    unfold AddElement. apply Forall_app. split; [assumption|].
    constructor; [|constructor].
    destruct He as [(Hu & _) | (_ & Hne & _)]; [congruence | now intros _].
Qed.


End DriverProperties.

End QuESoTheory.

(** ** The oracle of the trimmed domain: the facts *)

Module TrimmedDomainTheory.

Import Mesh TrimmedDomain.

Section OracleProperties.

Variable G : Geometry.
Variable mClippedMesh : TriangleMesh.
Variable mTree : AABB_tree G.

(** A scan over a list with a grazing intersection, or one at the origin,
    does not run to the end of the list. *)
Lemma scan_stopped ray rs :
  Exists (fun r => grazes G mClippedMesh ray r \/ origin_on G mClippedMesh ray r) rs ->
  forall is_inside min_distance,
    scan G mClippedMesh ray rs is_inside min_distance = OriginOnBoundary
    \/ scan G mClippedMesh ray rs is_inside min_distance = TryNextTriangle.
Proof.
  induction rs as [|r rs IH]; intros Hex b d; [inversion Hex|].
  simpl. fold (candidate G mClippedMesh ray r).
  destruct (hit (candidate G mClippedMesh ray r)) eqn:Eh;
    [destruct (parallel (candidate G mClippedMesh ray r)) eqn:Ep; simpl|].
  - apply IH. inversion Hex as [? ? [(_ & H & _) | (_ & H & _)]|]; subst;
      [congruence | congruence | assumption].
  - destruct (ltd (t (candidate G mClippedMesh ray r)) (EPS2 G)) eqn:Et; [now left|].
    destruct (ltd (u (candidate G mClippedMesh ray r)) (0 + EPS3 G)
              || ltd (v (candidate G mClippedMesh ray r)) (0 + EPS3 G)
              || ltd (1 - EPS3 G) (u (candidate G mClippedMesh ray r) + v (candidate G mClippedMesh ray r))) eqn:Eg;
      [now right|].
    apply orb_false_iff in Eg. destruct Eg as [Eg E3].
    apply orb_false_iff in Eg. destruct Eg as [E1 E2].
    apply ltd_false in Et, E1, E2, E3.
    assert (Hrest : Exists (fun r => grazes G mClippedMesh ray r \/ origin_on G mClippedMesh ray r) rs).
    { inversion Hex as [? ? [(_ & _ & Hg) | (_ & _ & Ho)]|]; subst; [| |assumption];
        exfalso.
      - destruct Hg as [Hg | [Hg | Hg]]; lra.
      - pose proof (Qle_Qabs (t (candidate G mClippedMesh ray r))). lra. }
    destruct (ltd (t (candidate G mClippedMesh ray r)) d); now apply IH.
  - apply IH. inversion Hex as [? ? [(H & _) | (H & _)]|]; subst;
      [congruence | congruence | assumption].
Qed.

(** An intersection at the origin that is met before any grazing one ends
    the scan with [return false]. *)
Lemma scan_origin_first ray before r after :
  Forall (fun r' => ~ grazes G mClippedMesh ray r') before ->
  origin_on G mClippedMesh ray r ->
  forall is_inside min_distance,
    scan G mClippedMesh ray (before ++ r :: after) is_inside min_distance
    = OriginOnBoundary.
Proof.
  intros Hbefore (Hh & Hp & Ht). induction Hbefore as [|r' before Hr' _ IH];
    intros b d; simpl.
  - fold (candidate G mClippedMesh ray r). rewrite Hh, Hp. simpl.
    pose proof (Qle_Qabs (t (candidate G mClippedMesh ray r))).
    rewrite ltd_lt by lra. reflexivity.
  - fold (candidate G mClippedMesh ray r').
    destruct (hit (candidate G mClippedMesh ray r')) eqn:Eh; [|apply IH].
    destruct (parallel (candidate G mClippedMesh ray r')) eqn:Ep; simpl; [apply IH|].
    destruct (ltd (t (candidate G mClippedMesh ray r')) (EPS2 G)); [reflexivity|].
    destruct (ltd (u (candidate G mClippedMesh ray r')) (0 + EPS3 G)
              || ltd (v (candidate G mClippedMesh ray r')) (0 + EPS3 G)
              || ltd (1 - EPS3 G) (u (candidate G mClippedMesh ray r')
                                   + v (candidate G mClippedMesh ray r'))) eqn:Eg.
    + exfalso. apply Hr'. split; [assumption|]. split; [assumption|].
      apply orb_true_iff in Eg. destruct Eg as [Eg | Eg];
        [apply orb_true_iff in Eg; destruct Eg as [Eg | Eg]|];
        apply ltd_true in Eg; tauto.
    + destruct (ltd (t (candidate G mClippedMesh ray r')) d); apply IH.
Qed.

Lemma try_triangles_stopped rPoint : forall remaining current_id,
  (forall id, (current_id <= id < current_id + remaining)%nat ->
     target_parallel G mClippedMesh rPoint id
     \/ Exists (fun r => grazes G mClippedMesh (ray_towards G mClippedMesh rPoint id) r
                         \/ origin_on G mClippedMesh (ray_towards G mClippedMesh rPoint id) r)
               (potential G mClippedMesh mTree rPoint id)) ->
  try_triangles G mClippedMesh mTree rPoint remaining current_id = Returns false.
Proof.
  induction remaining as [|remaining IH]; intros current_id H; simpl; [reflexivity|].
  assert (Hnext : try_triangles G mClippedMesh mTree rPoint remaining (S current_id)
                  = Returns false).
  { apply IH. intros id Hid. apply H. lia. }
  destruct (H current_id) as [Hp | Hex]; [lia | |].
  - unfold target_parallel in Hp. rewrite Hp. simpl. exact Hnext.
  - destruct (is_parallel G _ _ _ _); simpl; [exact Hnext|].
    unfold potential in Hex.
    destruct (Query G mTree (ray_towards G mClippedMesh rPoint current_id))
      as [|r rs] eqn:Eq; [inversion Hex|].
    simpl length. cbn [Nat.eqb].
    destruct (scan_stopped _ _ Hex false (MAXD G)) as [-> | ->];
      [reflexivity | exact Hnext].
Qed.


(** C10.  With no triangle in the clipped mesh, [IsInsideTrimmedDomain]
    returns true for every point. *)
Theorem empty_clipped_mesh_is_inside rPoint :
  NumOfTriangles mClippedMesh = 0%nat ->
  IsInsideTrimmedDomain G mClippedMesh mTree rPoint = Returns true.
Proof.
  intros H. unfold IsInsideTrimmedDomain. now rewrite H.
Qed.

End OracleProperties.

End TrimmedDomainTheory.

(** ** Reading STL files: the facts *)

Module IOTheory.

Import Mesh IO.

(** *** The detection of the format *)

Lemma starts_with_spec pattern : forall message,
  starts_with pattern message = true <-> exists after, message = pattern ++ after.
Proof.
  induction pattern as [|p pattern IH]; intros message; simpl.
  - split; [intros _; now exists message | reflexivity].
  - destruct message as [|c message].
    + split; [discriminate | intros [after H]; discriminate].
    + rewrite andb_true_iff, Ascii.eqb_eq, IH. split.
      * intros [-> [after ->]]. now exists after.
      * intros [after H]. inversion H; subst. split; [reflexivity | now exists after].
Qed.

Lemma found_spec pattern : forall message,
  found pattern message = true <-> occurs pattern message.
Proof.
  induction message as [|c message IH]; simpl.
  - rewrite starts_with_spec. split.
    + intros [after H]. now exists [], after.
    + intros (before & after & H). destruct before; simpl in H.
      * now exists after.
      * discriminate.
  - rewrite orb_true_iff, starts_with_spec, IH. split.
    + intros [[after H] | (before & after & H)].
      * now exists [], after.
      * exists (c :: before), after. simpl. now rewrite H.
    + intros (before & after & H). destruct before as [|c' before]; simpl in H.
      * left. now exists after.
      * right. inversion H; subst. now exists before, after.
Qed.

(** C7 (as amended).  The loader decides by the first at most 256 bytes of
    the file: it takes the ASCII reader exactly when those bytes, letters
    lowered, contain "solid", "facet", "normal" and a newline, and the binary
    reader otherwise; bytes from the 257th on have no part in it. *)
Theorem ascii_format_is_decided_by_the_first_256_bytes (R : Reader) (file : list ascii) :
  let message := map tolower (firstn 256 file) in
  (STLIsInASCIIFormat file = true <->
   occurs solid message /\ occurs facet message
   /\ occurs normal message /\ occurs newline message)
  /\ (forall file', firstn 256 file' = firstn 256 file ->
                    STLIsInASCIIFormat file' = STLIsInASCIIFormat file)
  /\ (STLIsInASCIIFormat file = true ->
      ReadMeshFromSTL R file = ReadMeshFromSTL_Ascii R file)
  /\ (STLIsInASCIIFormat file = false ->
      ReadMeshFromSTL R file = ReadMeshFromSTL_Binary R file).
Proof.
  cbv zeta. split; [|split; [|split]].
  - unfold STLIsInASCIIFormat. rewrite !andb_true_iff, !found_spec. tauto.
  - intros file' H. unfold STLIsInASCIIFormat. now rewrite H.
  - intros H. unfold ReadMeshFromSTL. now rewrite H.
  - intros H. unfold ReadMeshFromSTL. now rewrite H.
Qed.

(** *** The loop over the facets *)

Section ReaderProperties.

Variable R : Reader.

Lemma in_combine_seq {A : Type} (l : list A) : forall start k i,
  In (k, i) (combine l (seq start (length l))) ->
  (start <= i)%nat /\ nth_error l (i - start) = Some k.
Proof.
  induction l as [|x l IH]; intros start k i H; simpl in H; [contradiction|].
  destruct H as [H | H].
  - inversion H; subst. rewrite Nat.sub_diag. split; [lia | reflexivity].
  - apply IH in H. destruct H as [Hle Hn]. split; [lia|].
    replace (i - start)%nat with (S (i - S start)) by lia. exact Hn.
Qed.

Lemma nth_error_in_combine_seq {A : Type} (l : list A) : forall start n p,
  nth_error l n = Some p -> In (p, (start + n)%nat) (combine l (seq start (length l))).
Proof.
  induction l as [|x l IH]; intros start n p Hn; destruct n as [|n]; simpl in *;
    try discriminate.
  - inversion Hn; subst. left. f_equal. lia.
  - right. replace (start + S n)%nat with (S start + n)%nat by lia. now apply IH.
Qed.

Lemma combine_snoc_from {A : Type} (l : list A) (x : A) : forall start,
  combine (l ++ [x]) (seq start (S (length l)))
  = combine l (seq start (length l)) ++ [(x, (start + length l)%nat)].
Proof.
  induction l as [|y l IH]; intros start.
  - simpl. now rewrite Nat.add_0_r.
  - change (combine ((y :: l) ++ [x]) (seq start (S (length (y :: l)))))
      with ((y, start) :: combine (l ++ [x]) (seq (S start) (S (length l)))).
    rewrite IH. simpl. repeat f_equal. lia.
Qed.

Lemma combine_snoc {A : Type} (l : list A) (x : A) :
  combine (l ++ [x]) (seq 0 (S (length l)))
  = combine l (seq 0 (length l)) ++ [(x, length l)].
Proof. exact (combine_snoc_from l x 0). Qed.

Lemma ForallOrdPairs_snoc {A : Type} (P : A -> A -> Prop) (l : list A) (x : A) :
  ForallOrdPairs P l -> Forall (fun p => P p x) l -> ForallOrdPairs P (l ++ [x]).
Proof.
  induction 1 as [|y l Hy Hl IH]; intros Hx; simpl.
  - repeat constructor.
  - inversion Hx; subst. constructor.
    + apply Forall_app. split; [assumption | now repeat constructor].
    + now apply IH.
Qed.

(** One vertex: the state stays consistent, triangles and normals are not
    touched, earlier vertices keep their place, and the index handed out is
    that of a stored vertex which is the same key as the one read. *)
Lemma insert_vertex_spec st vertex st' i key :
  (forall p, PointComparison R p p = false) ->
  consistent R st ->
  insert_vertex R st vertex = (st', i, key) ->
  consistent R st'
  /\ GetTriangles (rTriangleMesh st') = GetTriangles (rTriangleMesh st)
  /\ GetNormals (rTriangleMesh st') = GetNormals (rTriangleMesh st)
  /\ (exists added, GetVertices (rTriangleMesh st')
                    = GetVertices (rTriangleMesh st) ++ added)
  /\ nth_error (GetVertices (rTriangleMesh st')) i = Some key
  /\ equivalent R key vertex = true.
Proof.
  intros Hirr (Hidx & Hmap & Hpairs) H. unfold insert_vertex in H.
  destruct (lookup R (index_map st) vertex) as [[k j]|] eqn:El.
  - inversion H; subst. clear H.
    unfold lookup in El. apply find_some in El. destruct El as [Hin Heq].
    simpl in Heq. rewrite Hmap, Hidx in Hin. apply in_combine_seq in Hin.
    rewrite Nat.sub_0_r in Hin.
    repeat split; try assumption; try reflexivity; try tauto.
    exists []. now rewrite app_nil_r.
  - inversion H; subst. clear H. simpl.
    assert (Hnew : Forall (fun p => equivalent R p key = false)
                          (GetVertices (rTriangleMesh st))).
    { apply Forall_forall. intros p Hp.
      destruct (In_nth_error _ _ Hp) as [n Hn].
      assert (Hin : In (p, n) (index_map st)).
      { rewrite Hmap, Hidx. exact (nth_error_in_combine_seq _ 0 n p Hn). }
      unfold lookup in El.
      apply (find_none _ _ El) in Hin. exact Hin. }
    repeat split.
    + simpl. rewrite length_app. simpl. lia.
    + cbn [index_map index rTriangleMesh AddVertex GetVertices].
      rewrite Hmap, Hidx. now rewrite combine_snoc.
    + simpl. now apply ForallOrdPairs_snoc.
    + now exists [key].
    + rewrite Hidx. rewrite nth_error_app2 by lia. now rewrite Nat.sub_diag.
    + unfold equivalent. now rewrite Hirr.
Qed.

Lemma initial_consistent : consistent R initial.
Proof. repeat split. constructor. Qed.

(** The edge left out of the cross product is, up to [ZEROTOL], no longer
    than the two that enter it. *)
Lemma edge_normal_spec v1 v2 v3 :
  0 <= ZEROTOL R ->
  let A := Subtract v2 v1 in
  let B := Subtract v3 v2 in
  let C := Subtract v1 v3 in
  exists e1 e2 e3,
    edge_normal R v1 v2 v3 = Cross R e1 e2
    /\ ((e1, e2, e3) = (A, B, C) \/ (e1, e2, e3) = (C, A, B)
        \/ (e1, e2, e3) = (B, C, A))
    /\ Norm R e3 - ZEROTOL R <= Norm R e1
    /\ Norm R e3 - ZEROTOL R <= Norm R e2.
Proof.
  intros Hz A B C. unfold edge_normal. fold A B C.
  unfold ged.
  destruct (Qle_bool (Norm R C - ZEROTOL R) (Norm R A)) eqn:E1;
  destruct (Qle_bool (Norm R C - ZEROTOL R) (Norm R B)) eqn:E2; simpl;
  try (apply Qle_bool_iff in E1); try (apply Qle_bool_iff in E2);
  try (exists A, B, C; repeat split; auto; fail);
  destruct (Qle_bool (Norm R B - ZEROTOL R) (Norm R A)) eqn:E3;
  destruct (Qle_bool (Norm R B - ZEROTOL R) (Norm R C)) eqn:E4; simpl;
  try (apply Qle_bool_iff in E3); try (apply Qle_bool_iff in E4);
  try (exists C, A, B; repeat split; auto; fail);
  exists B, C, A; (split; [reflexivity|]); (split; [auto|]);
  repeat match goal with
         | H : Qle_bool ?x ?y = false |- _ =>
             assert (y < x)
               by (apply Qnot_le_lt; intros Hle; apply Qle_bool_iff in Hle; congruence);
             clear H
         end; split; lra.
Qed.

(** One facet. *)
Lemma AddFacet_spec st f :
  (forall p, PointComparison R p p = false) ->
  consistent R st ->
  let st' := AddFacet R st f in
  consistent R st'
  /\ (ltd (99 # 100) (Norm R (stored_normal f)) = false ->
      GetTriangles (rTriangleMesh st') = GetTriangles (rTriangleMesh st)
      /\ GetNormals (rTriangleMesh st') = GetNormals (rTriangleMesh st))
  /\ (ltd (99 # 100) (Norm R (stored_normal f)) = true ->
      exists t1 t2 t3 v1 v2 v3,
        GetTriangles (rTriangleMesh st')
        = GetTriangles (rTriangleMesh st) ++ [(t1, t2, t3)]
        /\ GetNormals (rTriangleMesh st')
           = GetNormals (rTriangleMesh st)
             ++ [Scale (1 / Norm R (edge_normal R v1 v2 v3)) (edge_normal R v1 v2 v3)]
        /\ nth_error (GetVertices (rTriangleMesh st')) t1 = Some v1
        /\ nth_error (GetVertices (rTriangleMesh st')) t2 = Some v2
        /\ nth_error (GetVertices (rTriangleMesh st')) t3 = Some v3
        /\ equivalent R v1 (vertex_1 f) = true
        /\ equivalent R v2 (vertex_2 f) = true
        /\ equivalent R v3 (vertex_3 f) = true).
Proof.
  intros Hirr Hc. unfold AddFacet.
  destruct (insert_vertex R st (vertex_1 f)) as [[st1 t1] v1] eqn:E1.
  destruct (insert_vertex R st1 (vertex_2 f)) as [[st2 t2] v2] eqn:E2.
  destruct (insert_vertex R st2 (vertex_3 f)) as [[st3 t3] v3] eqn:E3.
  destruct (insert_vertex_spec _ _ _ _ _ Hirr Hc E1)
    as (Hc1 & Ht1 & Hn1 & [a1 Ha1] & Hv1 & He1).
  destruct (insert_vertex_spec _ _ _ _ _ Hirr Hc1 E2)
    as (Hc2 & Ht2 & Hn2 & [a2 Ha2] & Hv2 & He2).
  destruct (insert_vertex_spec _ _ _ _ _ Hirr Hc2 E3)
    as (Hc3 & Ht3 & Hn3 & [a3 Ha3] & Hv3 & He3).
  assert (Hv1' : nth_error (GetVertices (rTriangleMesh st3)) t1 = Some v1).
  { rewrite Ha3, Ha2, <- app_assoc.
    rewrite nth_error_app1; [assumption | apply nth_error_Some; congruence]. }
  assert (Hv2' : nth_error (GetVertices (rTriangleMesh st3)) t2 = Some v2).
  { rewrite Ha3.
    rewrite nth_error_app1; [assumption | apply nth_error_Some; congruence]. }
  destruct (ltd (99 # 100) (Norm R (stored_normal f))); cbv zeta.
  - split; [exact Hc3|]. split; [discriminate|]. intros _.
    exists t1, t2, t3, v1, v2, v3. simpl.
    rewrite Ht3, Ht2, Ht1, Hn3, Hn2, Hn1. repeat split; assumption.
  - split; [exact Hc3|]. split; [|discriminate]. intros _.
    rewrite Ht3, Ht2, Ht1, Hn3, Hn2, Hn1. now split.
Qed.

Lemma fold_AddFacet_consistent facets : forall st,
  (forall p, PointComparison R p p = false) ->
  consistent R st -> consistent R (fold_left (AddFacet R) facets st).
Proof.
  induction facets as [|f facets IH]; intros st Hirr Hc; simpl; [assumption|].
  apply IH; [assumption|]. now apply AddFacet_spec.
Qed.

Lemma ReadFacets_consistent facets :
  (forall p, PointComparison R p p = false) -> consistent R (ReadFacets R facets).
Proof.
  intros Hirr. apply fold_AddFacet_consistent; [assumption|].
  apply initial_consistent.
Qed.

Lemma ReadFacets_snoc facets f :
  ReadFacets R (facets ++ [f]) = AddFacet R (ReadFacets R facets) f.
Proof. unfold ReadFacets. now rewrite fold_left_app. Qed.


End ReaderProperties.

End IOTheory.

(** ** Voxel indexing: the two index maps *)

Module VoxelIndexingRoundTrips.

Import VoxelIndexing VoxelIndexingTheory.

Lemma size_mul_small (x y : N) : (x * y < size_modulus)%N -> size_mul x y = (x * y)%N.
Proof. intros H. unfold size_mul. now apply N.mod_small. Qed.

Lemma size_add_small (x y : N) : (x + y < size_modulus)%N -> size_add x y = (x + y)%N.
Proof. intros H. unfold size_add. now apply N.mod_small. Qed.

(** The linear index of a cell of the grid, computed without wrap-around. *)
Lemma GetVectorIndexFromMatrixIndices_exact (i j k : IndexType) (n : Vector3i) :
  (i < nx n)%N -> (j < ny n)%N -> (k < nz n)%N ->
  (nx n * ny n * nz n < size_modulus)%N ->
  GetVectorIndexFromMatrixIndices i j k n = (k * (ny n * nx n) + j * nx n + i)%N
  /\ (k * (ny n * nx n) + j * nx n + i < nx n * ny n * nz n)%N.
Proof.
  intros Hi Hj Hk Hn.
  assert (Hrow : (j * nx n + i < ny n * nx n)%N).
  { assert ((j + 1) * nx n <= ny n * nx n)%N by (apply N.mul_le_mono_r; lia). lia. }
  assert (Hb : (k * (ny n * nx n) + j * nx n + i < nx n * ny n * nz n)%N).
  { assert ((k + 1) * (ny n * nx n) <= nz n * (ny n * nx n))%N
      by (apply N.mul_le_mono_r; lia). lia. }
  split; [|exact Hb].
  unfold GetVectorIndexFromMatrixIndices.
  assert (Hp : (ny n * nx n < size_modulus)%N) by nia.
  rewrite (size_mul_small _ _ Hp).
  rewrite (size_mul_small k) by nia.
  rewrite (size_mul_small j) by nia.
  rewrite (size_add_small (k * _)) by nia.
  rewrite size_add_small by nia. reflexivity.
Qed.

(** X1.  For a row, a column and a depth inside a grid whose number of cells
    fits [std::size_t], [GetVectorIndexFromMatrixIndices] gives an index
    below the number of cells, and [GetMatrixIndicesFromVectorIndex] gives
    the three indices back from it. *)
Theorem matrix_indices_are_recovered_from_the_vector_index (i j k : IndexType)
    (n : Vector3i) :
  (i < nx n)%N -> (j < ny n)%N -> (k < nz n)%N ->
  (nx n * ny n * nz n < size_modulus)%N ->
  (GetVectorIndexFromMatrixIndices i j k n < nx n * ny n * nz n)%N
  /\ GetMatrixIndicesFromVectorIndex (GetVectorIndexFromMatrixIndices i j k n) n
     = (i, j, k).
Proof.
  intros Hi Hj Hk Hn.
  destruct (GetVectorIndexFromMatrixIndices_exact i j k n Hi Hj Hk Hn) as [-> Hb].
  split; [exact Hb|].
  unfold GetMatrixIndicesFromVectorIndex.
  rewrite size_mul_small by nia.
  assert (Hx : nx n <> 0%N) by lia.
  assert (Hy : ny n <> 0%N) by lia.
  assert (Hplane : (nx n * ny n)%N <> 0%N) by lia.
  assert (Hrow : (j * nx n + i < nx n * ny n)%N) by nia.
  assert (Hmod : ((k * (ny n * nx n) + j * nx n + i) mod (nx n * ny n) = j * nx n + i)%N).
  { symmetry. apply (N.mod_unique _ _ k); [exact Hrow | lia]. }
  assert (Hdiv : ((k * (ny n * nx n) + j * nx n + i) / (nx n * ny n) = k)%N).
  { symmetry. apply (N.div_unique _ _ k (j * nx n + i)); [exact Hrow | lia]. }
  rewrite Hmod, Hdiv.
  assert (Hi' : ((j * nx n + i) mod nx n = i)%N).
  { symmetry. apply (N.mod_unique _ _ j); [exact Hi | lia]. }
  assert (Hj' : ((j * nx n + i) / nx n = j)%N).
  { symmetry. apply (N.div_unique _ _ j i); [exact Hi | lia]. }
  now rewrite Hi', Hj'.
Qed.

(** X2.  On a grid with cells on every axis whose number fits [std::size_t],
    the row and the column [GetMatrixIndicesFromVectorIndex] gives lie inside
    the grid for every index, the depth does so exactly for the indices
    below the number of cells, and [GetVectorIndexFromMatrixIndices] gives
    the index back from the three, also for an index past the grid. *)
Theorem vector_index_is_recovered_from_the_matrix_indices (Index : IndexType)
    (n : Vector3i) :
  proper_grid n -> (Index < size_modulus)%N ->
  (nx (GetMatrixIndicesFromVectorIndex Index n) < nx n)%N
  /\ (ny (GetMatrixIndicesFromVectorIndex Index n) < ny n)%N
  /\ ((nz (GetMatrixIndicesFromVectorIndex Index n) < nz n)%N
      <-> (Index < nx n * ny n * nz n)%N)
  /\ GetVectorIndexFromMatrixIndices_v (GetMatrixIndicesFromVectorIndex Index n) n
     = Index.
Proof.
  intros (Hx & Hy & Hz & Hn) HI.
  unfold GetMatrixIndicesFromVectorIndex, GetVectorIndexFromMatrixIndices_v.
  assert (Hp : (nx n * ny n < size_modulus)%N) by nia.
  rewrite (size_mul_small _ _ Hp). cbn [nx ny nz fst snd].
  set (plane := (nx n * ny n)%N).
  assert (Hplane : plane <> 0%N) by (unfold plane; lia).
  assert (Hnx : nx n <> 0%N) by lia.
  pose proof (N.Div0.div_mod Index plane) as E1.
  pose proof (N.mod_upper_bound Index plane Hplane) as B1.
  pose proof (N.Div0.div_mod (Index mod plane) (nx n)) as E2.
  pose proof (N.mod_upper_bound (Index mod plane) (nx n) Hnx) as B2.
  set (r := (Index mod plane)%N) in *.
  set (k := (Index / plane)%N) in *.
  set (i := (r mod nx n)%N) in *.
  set (j := (r / nx n)%N) in *.
  assert (Hj : (j < ny n)%N).
  { unfold plane in B1. nia. }
  split; [exact B2|]. split; [exact Hj|]. split.
  - unfold plane in *. split; intros H; nia.
  - assert (Hyx : size_mul (ny n) (nx n) = plane).
    { rewrite size_mul_small; unfold plane; [lia | nia]. }
    rewrite Hyx.
    assert (Hk : (k * plane <= Index)%N) by nia.
    rewrite (size_mul_small k) by lia.
    assert (Hjx : (j * nx n <= r)%N) by nia.
    rewrite (size_mul_small j) by (unfold plane in *; nia).
    rewrite (size_add_small (k * plane)) by nia.
    rewrite size_add_small by nia. nia.
Qed.

End VoxelIndexingRoundTrips.

(** ** Voxel indexing: the cells of the grid *)

Module VoxelIndexingCells.

Import VoxelIndexing VoxelIndexingTheory.

Lemma to_double_succ (i : IndexType) : to_double (i + 1)%N == 1 + to_double i.
Proof.
  unfold to_double. rewrite N2Z.inj_add, inject_Z_plus. simpl. ring.
Qed.

Lemma to_double_pos (n : IndexType) : (0 < n)%N -> 0 < to_double n.
Proof.
  intros H. unfold to_double. change 0 with (inject_Z 0). rewrite <- Zlt_Qlt. lia.
Qed.

Lemma to_double_nonneg (n : IndexType) : 0 <= to_double n.
Proof.
  unfold to_double. change 0 with (inject_Z 0). rewrite <- Zle_Qle. lia.
Qed.

Lemma to_double_le (i n : IndexType) : (i <= n)%N -> to_double i <= to_double n.
Proof.
  intros H. unfold to_double. rewrite <- Zle_Qle. lia.
Qed.

Lemma to_double_pred (n : IndexType) : (0 < n)%N -> 1 + to_double (n - 1)%N == to_double n.
Proof.
  intros H. rewrite <- to_double_succ. replace (n - 1 + 1)%N with n by lia. reflexivity.
Qed.

(** One axis: the upper end of the last cell is the upper bound. *)
Lemma last_cell_reaches (l u : double) (n : IndexType) :
  l <= u -> (0 < n)%N ->
  l + Qabs (u - l) / to_double n * (1 + to_double (n - 1)%N) == u.
Proof.
  intros Hlu Hn. rewrite (to_double_pred n Hn).
  pose proof (to_double_pos n Hn) as Hp.
  rewrite Qabs_pos by lra. field. lra.
Qed.

(** One axis: a cell of the grid lies between the bounds. *)
Lemma cell_between (l u : double) (i n : IndexType) :
  l <= u -> (i < n)%N ->
  l <= l + Qabs (u - l) / to_double n * to_double i
  /\ l + Qabs (u - l) / to_double n * to_double i
     <= l + Qabs (u - l) / to_double n * (1 + to_double i)
  /\ l + Qabs (u - l) / to_double n * (1 + to_double i) <= u.
Proof.
  intros Hlu Hi.
  assert (Hn : (0 < n)%N) by lia.
  pose proof (to_double_pos n Hn) as Hp.
  pose proof (to_double_nonneg i) as Hi0.
  assert (Hd : 0 <= Qabs (u - l) / to_double n).
  { apply Qle_shift_div_l; [exact Hp|]. rewrite Qmult_0_l. apply Qabs_nonneg. }
  assert (Hi1 : 1 + to_double i <= to_double n).
  { rewrite <- to_double_succ. apply to_double_le. lia. }
  split; [|split].
  - pose proof (Qmult_le_0_compat _ _ Hd Hi0). lra.
  - setoid_replace (Qabs (u - l) / to_double n * (1 + to_double i))
      with (Qabs (u - l) / to_double n + Qabs (u - l) / to_double n * to_double i) by ring.
    lra.
  - assert (H : Qabs (u - l) / to_double n * (1 + to_double i)
                <= Qabs (u - l) / to_double n * to_double n).
    { rewrite !(Qmult_comm (Qabs (u - l) / to_double n)).
      apply Qmult_le_compat_r; assumption. }
    assert (E : Qabs (u - l) / to_double n * to_double n == u - l).
    { rewrite Qabs_pos by lra. field. lra. }
    lra.
Qed.

(** X3.  The boxes of [GetBoundingBoxFromIndex] join: the upper corner of
    cell (i, j, k) is the lower corner of cell (i+1, j+1, k+1), the lower
    corner of cell (0, 0, 0) is the lower bound, and, for ordered bounds and
    a grid with cells on every axis, the upper corner of the last cell is
    the upper bound. *)
Theorem cells_tile_the_box (i j k : IndexType) (rLowerBound rUpperBound : PointType)
    (n : Vector3i) :
  same_point (snd (GetBoundingBoxFromIndices i j k rLowerBound rUpperBound n))
             (fst (GetBoundingBoxFromIndices (i + 1)%N (j + 1)%N (k + 1)%N
                                             rLowerBound rUpperBound n))
  /\ same_point (fst (GetBoundingBoxFromIndices 0%N 0%N 0%N rLowerBound rUpperBound n))
                rLowerBound
  /\ (ordered (rLowerBound, rUpperBound) ->
      (0 < nx n)%N -> (0 < ny n)%N -> (0 < nz n)%N ->
      same_point (snd (GetBoundingBoxFromIndices (nx n - 1)%N (ny n - 1)%N (nz n - 1)%N
                                                 rLowerBound rUpperBound n))
                 rUpperBound).
Proof.
  unfold same_point, GetBoundingBoxFromIndices, Add, MultElementWise.
  cbn [fst snd px py pz].
  split; [|split].
  - rewrite !to_double_succ. repeat split; reflexivity.
  - unfold to_double. simpl. repeat split; ring.
  - intros (Hx & Hy & Hz) Hnx Hny Hnz. cbn [fst snd] in Hx, Hy, Hz.
    repeat split; apply last_cell_reaches; assumption.
Qed.


End VoxelIndexingCells.

(** ** The driver: the rule of untrimmed cells and the published elements *)

Module QuESoElements.

Import VoxelIndexing VoxelIndexingTheory QuESo QuESoTheory.

Section ElementProperties.

Variable M : Model.

(** *** The tensor rule *)

Lemma total_app (l l' : list double) : total (l ++ l') == total l + total l'.
Proof.
  induction l as [|x l IH]; simpl.
  - unfold total. simpl. ring.
  - unfold total in *. simpl. rewrite IH. ring.
Qed.

Lemma total_map_scale {A : Type} (f : A -> double) (c : double) (l : list A) :
  total (map (fun x => c * f x) l) == c * total (map f l).
Proof.
  induction l as [|x l IH]; unfold total in *; simpl; [ring|]. rewrite IH. ring.
Qed.

Lemma total_map_ext {A : Type} (f g : A -> double) (l : list A) :
  (forall x, f x == g x) -> total (map f l) == total (map g l).
Proof.
  intros H. induction l as [|x l IH]; [reflexivity|].
  unfold total in *. simpl. now rewrite IH, H.
Qed.

Lemma total_flat_map {A : Type} (f : A -> list double) (g : A -> double) (l : list A) :
  (forall x, total (f x) == g x) ->
  total (flat_map f l) == total (map g l).
Proof.
  intros H. induction l as [|x l IH]; [reflexivity|].
  cbn [flat_map map]. rewrite total_app, IH, H. unfold total. simpl. ring.
Qed.

Lemma map_flat_map {A B C : Type} (g : B -> C) (f : A -> list B) (l : list A) :
  map g (flat_map f l) = flat_map (fun x => map g (f x)) l.
Proof.
  induction l as [|x l IH]; [reflexivity|]. cbn [flat_map]. now rewrite map_app, IH.
Qed.

Lemma length_flat_map_const {A B : Type} (f : A -> list B) (n : nat) (l : list A) :
  (forall x, length (f x) = n) -> length (flat_map f l) = (length l * n)%nat.
Proof.
  intros H. induction l as [|x l IH]; [reflexivity|].
  cbn [flat_map length]. rewrite length_app, IH, H. lia.
Qed.

(** X5.  [AssembleIPs] yields as many points as the product of the lengths of
    the three one-dimensional tables, and their weights sum to the product of
    the sums of the weights of the three tables times the volume of the
    box. *)
Theorem tensor_rule_has_the_product_of_the_weights (rLowerBoundParam rUpperBoundParam : PointType)
    (rOrder : Vector3i) (Method : IntegrationMethodType M) :
  let r_ip_list_u := GetGauss M (nx rOrder) Method in
  let r_ip_list_v := GetGauss M (ny rOrder) Method in
  let r_ip_list_w := GetGauss M (nz rOrder) Method in
  let points := AssembleIPs M rLowerBoundParam rUpperBoundParam rOrder Method in
  length points
  = (length r_ip_list_u * (length r_ip_list_v * length r_ip_list_w))%nat
  /\ total (map GetWeight points)
     == total (map snd r_ip_list_u) * total (map snd r_ip_list_v)
        * total (map snd r_ip_list_w)
        * (Qabs (px rUpperBoundParam - px rLowerBoundParam)
           * Qabs (py rUpperBoundParam - py rLowerBoundParam)
           * Qabs (pz rUpperBoundParam - pz rLowerBoundParam)).
Proof.
  cbv zeta. unfold AssembleIPs, double in *.
  set (tu := GetGauss M (nx rOrder) Method).
  set (tv := GetGauss M (ny rOrder) Method).
  set (tw := GetGauss M (nz rOrder) Method).
  set (lu := Qabs (px rUpperBoundParam - px rLowerBoundParam)).
  set (lv := Qabs (py rUpperBoundParam - py rLowerBoundParam)).
  set (lw := Qabs (pz rUpperBoundParam - pz rLowerBoundParam)).
  split.
  - apply length_flat_map_const. intros u.
    apply length_flat_map_const. intros v. apply length_map.
  - rewrite map_flat_map.
    rewrite (total_flat_map _ (fun u => (lu * lv * lw * (total (map snd tv) * total (map snd tw))) * snd u)).
    + rewrite total_map_scale. unfold double; ring.
    + intros u. rewrite map_flat_map.
      rewrite (total_flat_map _ (fun v => (snd u * lu * lv * lw * total (map snd tw)) * snd v)).
      * rewrite total_map_scale. unfold double; ring.
      * intros v. rewrite map_map. cbn [GetWeight].
        rewrite (total_map_ext _ (fun w => (snd u * lu * snd v * lv * lw) * snd w)).
        -- rewrite total_map_scale. unfold double; ring.
        -- intros w. unfold double; ring.
Qed.

Lemma unit_point_between (l u x : double) :
  l <= u -> 0 <= x -> x <= 1 ->
  l <= l + Qabs (u - l) * x /\ l + Qabs (u - l) * x <= u.
Proof.
  intros Hlu H0 H1. rewrite Qabs_pos by lra.
  assert (0 <= (u - l) * x) by (apply Qmult_le_0_compat; lra).
  assert ((u - l) * x <= (u - l) * 1).
  { rewrite !(Qmult_comm (u - l)). apply Qmult_le_compat_r; lra. }
  lra.
Qed.

(** X6.  When the bounds are ordered and the positions of the three
    one-dimensional tables lie in the unit interval, every point of
    [AssembleIPs] lies in the box between the bounds. *)
Theorem tensor_rule_stays_in_the_box (rLowerBoundParam rUpperBoundParam : PointType)
    (rOrder : Vector3i) (Method : IntegrationMethodType M) :
  ordered (rLowerBoundParam, rUpperBoundParam) ->
  within_unit (GetGauss M (nx rOrder) Method) ->
  within_unit (GetGauss M (ny rOrder) Method) ->
  within_unit (GetGauss M (nz rOrder) Method) ->
  Forall (fun p => in_box (mkPoint (PX p) (PY p) (PZ p))
                          (rLowerBoundParam, rUpperBoundParam))
         (AssembleIPs M rLowerBoundParam rUpperBoundParam rOrder Method).
Proof.
  intros (Hx & Hy & Hz) Hu Hv Hw. cbn [fst snd] in Hx, Hy, Hz.
  unfold within_unit in *. rewrite Forall_forall in Hu, Hv, Hw.
  apply Forall_forall. intros p Hp. unfold AssembleIPs in Hp.
  apply in_flat_map in Hp. destruct Hp as (u & Iu & Hp).
  apply in_flat_map in Hp. destruct Hp as (v & Iv & Hp).
  apply in_map_iff in Hp. destruct Hp as (w & <- & Iw).
  unfold in_box. cbn [PX PY PZ px py pz fst snd].
  destruct (Hu u Iu) as (U0 & U1). destruct (Hv v Iv) as (V0 & V1).
  destruct (Hw w Iw) as (W0 & W1).
  repeat split; apply unit_point_between; assumption.
Qed.

(** *** The elements of the container *)

(** What the body of the loop adds for a cell, if anything. *)
Lemma Compute_cell_element fuel index container container' :
  Compute_cell M fuel index container = Some container' ->
  container' = container
  \/ exists e, container' = container ++ [e]
       /\ GetId e = size_add index 1%N
       /\ GetBoundsXYZ e = GetBoundingBoxXYZFromIndex (mMapper M) index
       /\ GetBoundsUVW e = GetBoundingBoxUVWFromIndex (mMapper M) index
       /\ status_of M index = (if IsTrimmed e then Trimmed else Inside)
       /\ mpTrimmedDomain e
          = (if IsTrimmed e
             then pGetTrimmedDomain M (fst (GetBoundsXYZ e)) (snd (GetBoundsXYZ e))
             else None)
       /\ (IsTrimmed e = true -> mpTrimmedDomain e <> None).
Proof.
  unfold Compute_cell, status_of. intros H.
  destruct (if embedding_flag M then p_classifications M index else Inside).
  - inversion H; subst. right. eexists. split; [reflexivity|].
    destruct (GGQRuleIsUsed M); cbn; repeat split; discriminate.
  - inversion H; subst. now left.
  - cbn in H.
    destruct (pGetTrimmedDomain M _ _) as [d|] eqn:Ed; [|inversion H; subst; now left].
    destruct (AssembleIPs_trimmed M fuel _ d) as [pts|]; [|discriminate].
    cbn in H.
    destruct (N.eqb (size pts) 0); cbn in H; inversion H; subst; [now left|].
    right. eexists. split; [reflexivity|]. cbn.
    repeat split; try assumption; try discriminate. now rewrite Ed.
Qed.

Lemma StronglySorted_middle {A : Type} (R : A -> A -> Prop) (l : list A) (x : A)
    (l' : list A) :
  StronglySorted R (l ++ x :: l') -> StronglySorted R (l ++ l').
Proof.
  induction l as [|y l IH]; simpl; intros H.
  - now inversion H.
  - inversion H as [|? ? Hs Hf]; subst. constructor; [now apply IH|].
    rewrite Forall_app in *. destruct Hf as [H1 H2]. split; [exact H1|].
    now inversion H2.
Qed.

Lemma StronglySorted_lt_NoDup (l : list N) : StronglySorted N.lt l -> NoDup l.
Proof.
  induction 1 as [|x l _ IH Hf]; constructor; [|exact IH].
  intros Hin. rewrite Forall_forall in Hf. specialize (Hf x Hin). lia.
Qed.

Lemma Compute_loop_ids fuel : forall indices container container',
  Compute_loop M fuel indices container = Some container' ->
  StronglySorted N.lt (map GetId container ++ map (fun index => size_add index 1%N) indices) ->
  StronglySorted N.lt (map GetId container').
Proof.
  induction indices as [|index rest IH]; intros c c' H Hs; simpl in H.
  - inversion H; subst. now rewrite app_nil_r in Hs.
  - destruct (Compute_cell M fuel index c) as [c1|] eqn:E; [|discriminate].
    apply (IH c1 c' H).
    apply Compute_cell_element in E.
    destruct E as [-> | (e & -> & Hid & _)].
    + cbn [map] in Hs. now apply StronglySorted_middle in Hs.
    + rewrite map_app, <- app_assoc. cbn [map app]. now rewrite Hid.
Qed.

Lemma Compute_loop_elements (P : IndexType -> Element M -> Prop) fuel
    (all : list IndexType) :
  (forall index c e, Compute_cell M fuel index c = Some (c ++ [e]) -> P index e) ->
  forall indices container container',
  incl indices all ->
  Compute_loop M fuel indices container = Some container' ->
  Forall (fun e => exists index, In index all /\ P index e) container ->
  Forall (fun e => exists index, In index all /\ P index e) container'.
Proof.
  intros Hstep.
  induction indices as [|index rest IH]; intros c c' Hincl H Hc; simpl in H.
  - inversion H; subst. exact Hc.
  - destruct (Compute_cell M fuel index c) as [c1|] eqn:E; [|discriminate].
    apply (IH c1 c'); [intros i Hi; apply Hincl; now right | exact H |].
    pose proof E as E'. apply Compute_cell_element in E'.
    destruct E' as [-> | (e & -> & _)]; [exact Hc|].
    apply Forall_app. split; [exact Hc|]. constructor; [|constructor].
    exists index. split; [apply Hincl; now left | eapply Hstep; exact E].
Qed.

Lemma cells_bound :
  (N.of_nat (Z.to_nat (static_cast_int (NumberOfElements (mMapper M)))) <= 2147483648)%N.
Proof.
  unfold static_cast_int.
  change (2 ^ 31)%N with 2147483648%N. change (2 ^ 32)%N with 4294967296%N.
  change (2 ^ 32)%Z with 4294967296%Z.
  pose proof (N.mod_upper_bound (NumberOfElements (mMapper M)) 4294967296
                ltac:(discriminate)) as B.
  destruct (N.ltb_spec (NumberOfElements (mMapper M) mod 4294967296) 2147483648)
    as [H|H]; lia.
Qed.

Lemma In_cells (index : IndexType) :
  In index (cells M) -> (index < 2147483648)%N.
Proof.
  unfold cells. intros H. apply in_map_iff in H. destruct H as (i & <- & Hi).
  apply in_seq in Hi. pose proof cells_bound as B. lia.
Qed.

Lemma small_id (index : IndexType) :
  (index < 2147483648)%N -> size_add index 1%N = (index + 1)%N.
Proof.
  intros H. unfold size_add, size_modulus. apply N.mod_small.
  change (2 ^ 64)%N with 18446744073709551616%N. lia.
Qed.

Lemma ids_of_cells_sorted (k start : nat) :
  (N.of_nat (start + k) <= 2147483648)%N ->
  StronglySorted N.lt
    (map (fun index => size_add index 1%N) (map N.of_nat (seq start k))).
Proof.
  revert start. induction k as [|k IH]; intros start H; [constructor|].
  cbn [seq map]. constructor; [apply IH; lia|].
  apply Forall_forall. intros id Hid.
  apply in_map_iff in Hid. destruct Hid as (j & <- & Hj).
  apply in_map_iff in Hj. destruct Hj as (i & <- & Hi). apply in_seq in Hi.
  rewrite !small_id by lia. lia.
Qed.

Lemma Compute_elements fuel container :
  Compute M fuel = Some container ->
  Forall (fun e => exists index,
            In index (cells M)
            /\ GetId e = (index + 1)%N
            /\ GetBoundsXYZ e = GetBoundingBoxXYZFromIndex (mMapper M) index
            /\ GetBoundsUVW e = GetBoundingBoxUVWFromIndex (mMapper M) index
            /\ status_of M index = (if IsTrimmed e then Trimmed else Inside))
         container.
Proof.
  intros H. unfold Compute in H. fold (cells M) in H.
  set (P := fun (index : IndexType) (e : Element M) =>
       GetId e = size_add index 1%N
       /\ GetBoundsXYZ e = GetBoundingBoxXYZFromIndex (mMapper M) index
       /\ GetBoundsUVW e = GetBoundingBoxUVWFromIndex (mMapper M) index
       /\ status_of M index = (if IsTrimmed e then Trimmed else Inside)).
  assert (Hstep : forall index c e,
            Compute_cell M fuel index c = Some (c ++ [e]) -> P index e).
  { intros index c e E. apply Compute_cell_element in E.
    destruct E as [E | (e' & E & Hid & Hx & Hu & Hs & _)].
    - exfalso. apply (f_equal (@length _)) in E. rewrite length_app in E.
      simpl in E. lia.
    - apply app_inj_tail in E. destruct E as [_ <-]. unfold P. now repeat split. }
  pose proof (Compute_loop_elements P fuel (cells M) Hstep (cells M) [] container
                (incl_refl _) H (Forall_nil _)) as L.
  eapply Forall_impl; [|exact L].
  intros e (index & Hin & Hid & Hrest). exists index.
  split; [exact Hin|]. split; [|exact Hrest].
  rewrite Hid. apply small_id. now apply In_cells.
Qed.

(** X7.  The elements [Compute] publishes have ids that differ from one
    another; each is the cell of an index the loop visits, with the id
    [index + 1] and the boxes the mapper gives for that index; the cell is
    classified as trimmed when the trimmed flag of the element is set and as
    inside when it is not. *)
Theorem published_elements_are_cells_of_the_grid fuel container :
  Compute M fuel = Some container ->
  NoDup (map GetId container)
  /\ Forall (fun e => exists index,
                In index (cells M)
                /\ GetId e = (index + 1)%N
                /\ GetBoundsXYZ e = GetBoundingBoxXYZFromIndex (mMapper M) index
                /\ GetBoundsUVW e = GetBoundingBoxUVWFromIndex (mMapper M) index
                /\ status_of M index = (if IsTrimmed e then Trimmed else Inside))
            container.
Proof.
  intros H. split.
  - unfold Compute in H. fold (cells M) in H.
    apply StronglySorted_lt_NoDup.
    apply (Compute_loop_ids fuel (cells M) [] container H).
    cbn [map app]. apply ids_of_cells_sorted. apply cells_bound.
  - now apply (Compute_elements fuel).
Qed.

(** X8.  On every element [Compute] publishes, [Element::pGetTrimmedDomain]
    returns the trimmed domain computed for the box of the element when the
    element is trimmed, and ends in the error that the element is not
    trimmed otherwise, no trimmed domain being set on it. *)
Theorem trimmed_elements_hold_their_trimmed_domain fuel container :
  Compute M fuel = Some container ->
  Forall (fun e =>
            (IsTrimmed e = true ->
             exists d, Element_pGetTrimmedDomain e = Domain d
                       /\ pGetTrimmedDomain M (fst (GetBoundsXYZ e)) (snd (GetBoundsXYZ e))
                          = Some d)
            /\ (IsTrimmed e = false ->
                Element_pGetTrimmedDomain e = ElementIsNotTrimmed
                /\ mpTrimmedDomain e = None))
         container.
Proof.
  apply Compute_invariant. intros index c c' Hc Hcell.
  apply Compute_cell_element in Hcell.
  destruct Hcell as [-> | (e & -> & _ & _ & _ & _ & Hd & Hset)]; [exact Hc|].
  apply Forall_app. split; [exact Hc|]. constructor; [|constructor].
  unfold Element_pGetTrimmedDomain. split.
  - intros Ht. rewrite Ht in *. cbn [negb].
    destruct (mpTrimmedDomain e) as [d|] eqn:Ed; [|now specialize (Hset eq_refl)].
    exists d. split; [reflexivity | now symmetry].
  - intros Ht. rewrite Ht in *. now split.
Qed.

(** X9.  With the embedding flag off, [Compute] returns, and publishes one
    element for every cell the loop visits and no other, none of them
    trimmed; the order of the elements is left open. *)
Theorem without_embedding_every_cell_is_published fuel :
  embedding_flag M = false ->
  exists container,
    Compute M fuel = Some container
    /\ Permutation (map GetId container) (map (fun index => (index + 1)%N) (cells M))
    /\ Forall (fun e => IsTrimmed e = false) container.
Proof.
  intros Hflag. unfold Compute. fold (cells M).
  assert (L : forall indices c,
            Forall (fun index => (index < 2147483648)%N) indices ->
            Forall (fun e => IsTrimmed e = false) c ->
            exists c', Compute_loop M fuel indices c = Some c'
                       /\ map GetId c' = map GetId c ++ map (fun index => (index + 1)%N) indices
                       /\ Forall (fun e => IsTrimmed e = false) c').
  { induction indices as [|index rest IH]; intros c Hi Hc.
    - exists c. cbn [Compute_loop map]. now rewrite app_nil_r.
    - inversion Hi as [|? ? Hindex Hrest]; subst.
      cbn [Compute_loop]. unfold Compute_cell at 1. rewrite Hflag.
      match goal with |- context [AddElement M ?e c] => set (new := e) end.
      destruct (IH (AddElement M new c) Hrest) as (c' & E & Hids & Ht).
      { unfold AddElement. apply Forall_app. split; [exact Hc|].
        constructor; [|constructor]. unfold new. now destruct (GGQRuleIsUsed M). }
      exists c'. split; [exact E|]. split; [|exact Ht].
      rewrite Hids. unfold AddElement. rewrite map_app, <- app_assoc.
      cbn [map app]. f_equal. f_equal.
      assert (Hid : GetId new = (index + 1)%N).
      { unfold new. destruct (GGQRuleIsUsed M); cbn [GetId SetIntegrationPoints];
          now apply small_id. }
      now rewrite Hid. }
  destruct (L (cells M) []) as (c' & E & Hids & Ht).
  - apply Forall_forall. intros index. apply In_cells.
  - constructor.
  - exists c'. split; [exact E|]. split; [|exact Ht].
    rewrite Hids. apply Permutation_refl.
Qed.

Lemma cell_width (l u n i : double) :
  l + Qabs (u - l) / n * (1 + i) - (l + Qabs (u - l) / n * i) == Qabs (u - l) / n.
Proof. unfold double in *. ring. Qed.


End ElementProperties.

End QuESoElements.

(** ** Moment fitting: positions, restored solutions, seeding and constant terms *)

Module MomentFittingMore.

Import MomentFitting MomentFittingTheory.

Section MoreProperties.

Variable K : Kernel.
Variable rParam : Parameters.
Variable a b : PointType.

(** *** The positions of the points *)

Lemma same_position_refl p : same_position p p.
Proof. now repeat split. Qed.

Lemma same_position_trans p q r :
  same_position p q -> same_position q r -> same_position p r.
Proof.
  unfold same_position. intros (X & Y & Z) (X' & Y' & Z').
  repeat split; congruence.
Qed.

Lemma placed_as_refl l : placed_as l l.
Proof.
  apply Forall_forall. intros p Hp. exists p. split; [exact Hp | apply same_position_refl].
Qed.

Lemma placed_as_trans l1 l2 l3 : placed_as l1 l2 -> placed_as l2 l3 -> placed_as l1 l3.
Proof.
  unfold placed_as. rewrite !Forall_forall. intros H12 H23 p Hp.
  destruct (H23 p Hp) as (q & Hq & Hpq). destruct (H12 q Hq) as (r & Hr & Hqr).
  exists r. split; [exact Hr | eapply same_position_trans; eassumption].
Qed.

Lemma placed_as_incl source l l' :
  incl l' l -> placed_as source l -> placed_as source l'.
Proof.
  unfold placed_as. rewrite !Forall_forall. intros Hi H p Hp. apply H, Hi, Hp.
Qed.

Lemma write_weights_placed weights pts : forall i,
  placed_as pts (write_weights rParam weights i pts).
Proof.
  induction pts as [|p pts IH]; intros i; simpl; constructor.
  - exists p. split; [now left | now repeat split].
  - eapply Forall_impl; [|apply IH]. intros q (r & Hr & Hs).
    exists r. split; [now right | exact Hs].
Qed.

Lemma MomentFitting1_placed ct pts :
  placed_as pts (snd (MomentFitting1 K rParam a b ct pts)).
Proof.
  unfold MomentFitting1. destruct (nnls K _ ct) as [norm weights]. simpl.
  apply write_weights_placed.
Qed.

Lemma incl_erase_at {A : Type} (i : nat) (l : list A) : incl (erase_at i l) l.
Proof.
  revert i. induction l as [|x l IH]; intros [|i]; simpl.
  - apply incl_refl.
  - apply incl_refl.
  - apply incl_tl, incl_refl.
  - intros y [<- | Hy]; [now left | right; now apply (IH i)].
Qed.

Lemma incl_erase_light fuel : forall i mx l c,
  incl (fst (erase_light K fuel i mx l c)) l.
Proof.
  induction fuel as [|fuel IH]; intros i mx l c; simpl; [apply incl_refl|].
  destruct (nth_error l i); [|apply incl_refl].
  destruct (_ && _).
  - eapply incl_tran; [apply IH | apply incl_erase_at].
  - apply IH.
Qed.

Lemma incl_eliminate st res pts : incl (points (eliminate K st res pts)) pts.
Proof.
  unfold eliminate.
  destruct (scan_min_max pts 0 0 (10 ^ 10) (- 10 ^ 10)) as [[it mn] mx].
  pose proof (incl_erase_light (length pts) 0 mx pts 0) as H.
  destruct (erase_light K (length pts) 0 mx pts 0) as [pts1 counter]. cbn [fst] in H.
  destruct ((counter =? 0)%nat && (4 <? length pts1)%nat); cbn [points].
  - eapply incl_tran; [apply incl_erase_at | exact H].
  - exact H.
Qed.

(** A round leaves the working set and the remembered solution at
    positions of the working set and the remembered solution it found. *)
Lemma round_placed ct source st :
  placed_as source (points st) -> placed_as source (prev_solution st) ->
  placed_as source (points (round K rParam a b ct st))
  /\ placed_as source (prev_solution (round K rParam a b ct st)).
Proof.
  intros Hp Hs. unfold round.
  pose proof (MomentFitting1_placed ct (points st)) as Hm.
  destruct (MomentFitting1 K rParam a b ct (points st)) as [res pts]. cbn [snd] in Hm.
  assert (Hpts : placed_as source pts) by exact (placed_as_trans _ _ _ Hp Hm).
  destruct (number_iterations st =? 0)%N; [|destruct (ltd res (allowed_residual rParam))].
  - cbn [points prev_solution]. split; [|exact Hs].
    eapply placed_as_incl; [|exact Hpts].
    intros p Hp'.
    eapply Permutation_in; [symmetry; apply sort_by_weight_perm|].
    rewrite <- (firstn_skipn (N.to_nat (number_of_functions rParam)) (sort_by_weight pts)).
    apply in_or_app. now left.
  - split.
    + eapply placed_as_incl; [apply incl_eliminate | exact Hpts].
    + destruct (eliminate_spec K st res pts) as (-> & _). exact Hpts.
  - cbn [points prev_solution]. now split.
Qed.


(** *** The residual of a restored solution *)

Lemma round_keeps_good_solution ct st :
  (prev_solution st <> [] -> prev_residual st < allowed_residual rParam) ->
  prev_solution (round K rParam a b ct st) <> [] ->
  prev_residual (round K rParam a b ct st) < allowed_residual rParam.
Proof.
  intros Hinv. unfold round.
  destruct (MomentFitting1 K rParam a b ct (points st)) as [res pts].
  destruct (number_iterations st =? 0)%N; [exact Hinv|].
  destruct (ltd res (allowed_residual rParam)) eqn:E; [|exact Hinv].
  intros _. destruct (eliminate_spec K st res pts) as (_ & -> & _).
  now apply ltd_true.
Qed.


(** *** Seeding *)

Lemma distribute_loop_spec fuel : forall rOctree pts MinNumPoints level rOctree' pts',
  distribute_loop K rParam fuel rOctree pts MinNumPoints level = Some (rOctree', pts') ->
  (MinNumPoints <= size pts')%N
  /\ ((MinNumPoints <= size pts)%N -> rOctree' = rOctree /\ pts' = pts)
  /\ ((size pts < MinNumPoints)%N ->
      pts' = AddIntegrationPoints K rOctree'
               (size_add (order_u rParam) 1%N, size_add (order_v rParam) 1%N,
                size_add (order_w rParam) 1%N)).
Proof.
  induction fuel as [|fuel IH]; intros oct pts Min level oct' pts' H; simpl in H.
  - destruct (N.ltb_spec (size pts) Min) as [L|L]; [discriminate|].
    inversion H; subst. repeat split; [exact L | lia].
  - destruct (N.ltb_spec (size pts) Min) as [L|L].
    + apply IH in H. destruct H as (H1 & H2 & H3).
      split; [exact H1|]. split; [lia|]. intros _.
      match type of H2 with
      | (_ <= size ?seeded)%N -> _ =>
          destruct (N.le_gt_cases Min (size seeded)) as [L'|L']
      end.
      * destruct (H2 L') as (-> & ->). reflexivity.
      * exact (H3 L').
    + inversion H; subst. repeat split; [exact L | lia].
Qed.

(** X13.  When [DistributeIntegrationPoints] returns, it returns at least
    [MinNumPoints] points; with that many given it changes neither the octree
    nor the points, and otherwise the points are the ones the octree it
    leaves yields for the orders plus one. *)
Theorem seeding_returns_enough_points_of_the_last_refinement fuel rOctree pts
    MinNumPoints rOctree' pts' :
  DistributeIntegrationPoints K rParam fuel rOctree pts MinNumPoints
  = Some (rOctree', pts') ->
  (MinNumPoints <= size pts')%N
  /\ ((MinNumPoints <= size pts)%N -> rOctree' = rOctree /\ pts' = pts)
  /\ ((size pts < MinNumPoints)%N ->
      pts' = AddIntegrationPoints K rOctree'
               (size_add (order_u rParam) 1%N, size_add (order_v rParam) 1%N,
                size_add (order_w rParam) 1%N)).
Proof. unfold DistributeIntegrationPoints. apply distribute_loop_spec. Qed.

End MoreProperties.

(** *** The constant terms *)

Section ConstantTermProperties.

Variable K : Kernel.
Variable rParam : Parameters.
Variable a b : PointType.
Variable f_x_int : double -> nat -> double -> double -> double.
Variable GlobalToParam : PointType -> PointType -> PointType -> PointType.

Local Abbreviation contribution := (contribution K rParam a b f_x_int GlobalToParam).
Local Abbreviation ComputeConstantTerms :=
  (ComputeConstantTerms K rParam a b f_x_int GlobalToParam).

Lemma add_terms_length terms added : length (add_terms terms added) = length terms.
Proof.
  revert added. induction terms as [|t terms IH]; intros [|x xs]; simpl; auto.
Qed.

Lemma nth_add_terms terms : forall added i,
  (i < length terms)%nat ->
  nth i (add_terms terms added) 0 == nth i terms 0 + nth i added 0.
Proof.
  induction terms as [|t terms IH]; intros added i H; [simpl in H; lia|].
  destruct added as [|x xs].
  - cbn [add_terms]. destruct i; simpl; lra.
  - cbn [add_terms]. destruct i as [|i]; cbn [nth]; [lra|].
    apply IH. simpl in H. lia.
Qed.

Lemma fold_add_terms (points : list BoundaryIntegrationPoint) : forall terms,
  length (fold_left (fun terms point => add_terms terms (contribution point)) points terms)
  = length terms
  /\ forall i, (i < length terms)%nat ->
       nth i (fold_left (fun terms point => add_terms terms (contribution point))
                        points terms) 0
       == nth i terms 0 + total (map (fun point => nth i (contribution point) 0) points).
Proof.
  induction points as [|p points IH]; intros terms; cbn [fold_left map].
  - split; [reflexivity|]. intros i _. unfold total. simpl. lra.
  - destruct (IH (add_terms terms (contribution p))) as (L & E).
    rewrite add_terms_length in L. split; [exact L|].
    intros i Hi. rewrite E by (rewrite add_terms_length; exact Hi).
    rewrite nth_add_terms by exact Hi. unfold total. simpl. lra.
Qed.

(** X14.  [ComputeConstantTerms] returns one term for every function of the
    basis, and each term is the sum, over the boundary points, of what the
    point adds to that term. *)
Theorem constant_terms_sum_the_boundary_points
    (pBoundaryIps : list BoundaryIntegrationPoint) :
  length (ComputeConstantTerms pBoundaryIps) = N.to_nat (number_of_functions rParam)
  /\ forall row_index, (row_index < N.to_nat (number_of_functions rParam))%nat ->
       nth row_index (ComputeConstantTerms pBoundaryIps) 0
       == total (map (fun point => nth row_index (contribution point) 0) pBoundaryIps).
Proof.
  unfold MomentFitting.ComputeConstantTerms.
  destruct (fold_add_terms pBoundaryIps (repeat 0 (N.to_nat (number_of_functions rParam))))
    as (L & E).
  rewrite repeat_length in L, E. split; [exact L|].
  intros i Hi. rewrite (E i Hi). rewrite nth_repeat. lra.
Qed.

End ConstantTermProperties.

End MomentFittingMore.

(** ** The oracle of the trimmed domain: throwing and clean casts *)

Module TrimmedDomainCasts.

Import Mesh TrimmedDomain TrimmedDomainTheory.

Section CastProperties.

Variable G : Geometry.
Variable mClippedMesh : TriangleMesh.
Variable mTree : AABB_tree G.

(** A scan in which every intersection crosses its triangle runs to the end
    of the list and keeps the nearest intersection below the distance it
    started with, the first one among equally near ones. *)
Lemma scan_nearest ray rs :
  Forall (fun r => hits G mClippedMesh ray r -> crosses G mClippedMesh ray r) rs ->
  forall is_inside min_distance,
  exists is_inside' min_distance',
    scan G mClippedMesh ray rs is_inside min_distance = Closest is_inside' min_distance'
    /\ min_distance' <= min_distance
    /\ Forall (fun r => hits G mClippedMesh ray r ->
                        min_distance' <= t (candidate G mClippedMesh ray r)) rs
    /\ ((is_inside' = is_inside /\ min_distance' = min_distance)
        \/ exists r, In r rs /\ hits G mClippedMesh ray r
             /\ is_inside' = back_facing (candidate G mClippedMesh ray r)
             /\ min_distance' = t (candidate G mClippedMesh ray r)
             /\ t (candidate G mClippedMesh ray r) < min_distance).
Proof.
  induction 1 as [|r rs Hr _ IH]; intros b d.
  - exists b, d. simpl. repeat split; [lra | constructor | now left].
  - simpl. fold (candidate G mClippedMesh ray r).
    unfold hits in Hr.
    destruct (hit (candidate G mClippedMesh ray r)) eqn:Eh.
    2:{ destruct (IH b d) as (b' & d' & Es & Hle & Hall & Hfrom).
        exists b', d'. split; [exact Es|]. split; [exact Hle|]. split.
        - constructor; [|exact Hall]. unfold hits. intros [Hh _]. congruence.
        - destruct Hfrom as [Hsame | (r' & Hin & Hrest)]; [now left|].
          right. exists r'. split; [now right | exact Hrest]. }
    destruct (parallel (candidate G mClippedMesh ray r)) eqn:Ep; simpl.
    { destruct (IH b d) as (b' & d' & Es & Hle & Hall & Hfrom).
      exists b', d'. split; [exact Es|]. split; [exact Hle|]. split.
      - constructor; [|exact Hall]. unfold hits. intros [_ Hp]. congruence.
      - destruct Hfrom as [Hsame | (r' & Hin & Hrest)]; [now left|].
        right. exists r'. split; [now right | exact Hrest]. }
    destruct (Hr (conj eq_refl eq_refl)) as (Ht & Hu & Hv & Huv).
    rewrite (ltd_ge _ _ Ht).
    rewrite (ltd_ge _ _ Hu), (ltd_ge _ _ Hv), (ltd_ge _ _ Huv). simpl.
    destruct (ltd (t (candidate G mClippedMesh ray r)) d) eqn:Etd.
    + apply ltd_true in Etd.
      destruct (IH (back_facing (candidate G mClippedMesh ray r))
                   (t (candidate G mClippedMesh ray r)))
        as (b' & d' & Es & Hle & Hall & Hfrom).
      exists b', d'. split; [exact Es|]. split; [lra|]. split.
      * constructor; [|exact Hall]. intros _. exact Hle.
      * right. destruct Hfrom as [[-> ->] | (r' & Hin & Hh & Hb & Hd & Hlt)].
        -- exists r. split; [now left|]. split; [now split|].
           split; [reflexivity|]. split; [reflexivity | exact Etd].
        -- exists r'. split; [now right|]. split; [exact Hh|].
           split; [exact Hb|]. split; [exact Hd|]. lra.
    + apply ltd_false in Etd.
      destruct (IH b d) as (b' & d' & Es & Hle & Hall & Hfrom).
      exists b', d'. split; [exact Es|]. split; [exact Hle|]. split.
      * constructor; [|exact Hall]. intros _. lra.
      * destruct Hfrom as [Hsame | (r' & Hin & Hrest)]; [now left|].
        right. exists r'. split; [now right | exact Hrest].
Qed.

(** The loop over the triangles from [current_id] on does not throw when
    every cast it can make has a potential intersection. *)
Lemma try_triangles_does_not_throw rPoint : forall remaining current_id,
  (forall id, (current_id <= id < current_id + remaining)%nat ->
     target_parallel G mClippedMesh rPoint id
     \/ potential G mClippedMesh mTree rPoint id <> []) ->
  try_triangles G mClippedMesh mTree rPoint remaining current_id <> Throws.
Proof.
  induction remaining as [|remaining IH]; intros current_id H; simpl; [discriminate|].
  assert (Hnext : try_triangles G mClippedMesh mTree rPoint remaining (S current_id)
                  <> Throws).
  { apply IH. intros id Hid. apply H. lia. }
  destruct (is_parallel G _ _ _ _) eqn:Ep; simpl; [exact Hnext|].
  destruct (H current_id) as [Hp | Hq]; [lia | |].
  - unfold target_parallel in Hp. congruence.
  - unfold potential in Hq.
    destruct (Query G mTree (ray_towards G mClippedMesh rPoint current_id))
      as [|r rs]; [congruence|].
    cbn [length Nat.eqb].
    destruct (scan G mClippedMesh _ (r :: rs) false (MAXD G));
      [discriminate | exact Hnext | discriminate].
Qed.

(** Targets parallel to their ray are skipped. *)
Lemma try_triangles_skips_parallel rPoint : forall skipped remaining current_id,
  (forall id, (current_id <= id < current_id + skipped)%nat ->
     target_parallel G mClippedMesh rPoint id) ->
  try_triangles G mClippedMesh mTree rPoint (skipped + remaining) current_id
  = try_triangles G mClippedMesh mTree rPoint remaining (current_id + skipped).
Proof.
  induction skipped as [|skipped IH]; intros remaining current_id H.
  - now rewrite Nat.add_0_r.
  - cbn [Nat.add try_triangles].
    pose proof (H current_id ltac:(lia)) as Hp. unfold target_parallel in Hp.
    rewrite Hp. cbn [negb]. rewrite IH; [f_equal; lia|].
    intros id Hid. apply H. lia.
Qed.

(** X15.  [IsInsideTrimmedDomain] does not throw when every target triangle
    is parallel to its ray or has a potential intersection; and it throws
    when the first target that is not parallel to its ray has none. *)
Theorem the_oracle_throws_only_for_a_cast_without_candidates rPoint :
  ((forall id, (id < NumOfTriangles mClippedMesh)%nat ->
      target_parallel G mClippedMesh rPoint id
      \/ potential G mClippedMesh mTree rPoint id <> []) ->
   IsInsideTrimmedDomain G mClippedMesh mTree rPoint <> Throws)
  /\ (forall id, (id < NumOfTriangles mClippedMesh)%nat ->
        (forall id', (id' < id)%nat -> target_parallel G mClippedMesh rPoint id') ->
        ~ target_parallel G mClippedMesh rPoint id ->
        potential G mClippedMesh mTree rPoint id = [] ->
        IsInsideTrimmedDomain G mClippedMesh mTree rPoint = Throws).
Proof.
  unfold IsInsideTrimmedDomain. split.
  - intros H.
    destruct (Nat.eqb_spec (NumOfTriangles mClippedMesh) 0) as [E|_]; [discriminate|].
    apply try_triangles_does_not_throw. intros id Hid. apply H. lia.
  - intros id Hid Hskip Hp Hq.
    destruct (Nat.eqb_spec (NumOfTriangles mClippedMesh) 0) as [E|_]; [lia|].
    replace (NumOfTriangles mClippedMesh)
      with (id + S (NumOfTriangles mClippedMesh - S id))%nat by lia.
    rewrite try_triangles_skips_parallel by (intros id' Hid'; apply Hskip; lia).
    cbn [Nat.add try_triangles].
    unfold target_parallel in Hp. unfold potential in Hq.
    destruct (is_parallel G _ _ _ _); [congruence|].
    cbn [negb]. now rewrite Hq.
Qed.

(** X16.  When the cast towards the first triangle is made and every
    intersection it finds crosses its triangle away from the origin and from
    the edges, [IsInsideTrimmedDomain] returns the facing of a nearest
    intersection below [MAXD], and false when there is none. *)
Theorem a_clean_first_cast_decides_by_the_nearest_intersection rPoint :
  let ray := ray_towards G mClippedMesh rPoint 0 in
  let found := potential G mClippedMesh mTree rPoint 0 in
  (0 < NumOfTriangles mClippedMesh)%nat ->
  ~ target_parallel G mClippedMesh rPoint 0 ->
  found <> [] ->
  Forall (fun r => hits G mClippedMesh ray r -> crosses G mClippedMesh ray r) found ->
  (IsInsideTrimmedDomain G mClippedMesh mTree rPoint = Returns false
   /\ Forall (fun r => hits G mClippedMesh ray r ->
                       MAXD G <= t (candidate G mClippedMesh ray r)) found)
  \/ exists r, In r found /\ hits G mClippedMesh ray r
       /\ t (candidate G mClippedMesh ray r) < MAXD G
       /\ Forall (fun r' => hits G mClippedMesh ray r' ->
                            t (candidate G mClippedMesh ray r)
                            <= t (candidate G mClippedMesh ray r')) found
       /\ IsInsideTrimmedDomain G mClippedMesh mTree rPoint
          = Returns (back_facing (candidate G mClippedMesh ray r)).
Proof.
  intros ray found Hn Hp Hfound Hclean. unfold IsInsideTrimmedDomain.
  destruct (Nat.eqb_spec (NumOfTriangles mClippedMesh) 0) as [E|_]; [lia|].
  destruct (NumOfTriangles mClippedMesh) as [|n]; [lia|].
  cbn [try_triangles]. unfold target_parallel in Hp.
  destruct (is_parallel G _ _ _ _); [congruence|]. cbn [negb].
  fold ray. unfold found, potential in *. fold ray in Hfound, Hclean |- *.
  destruct (Query G mTree ray) as [|r0 rs] eqn:Eq; [congruence|].
  cbn [length Nat.eqb].
  destruct (scan_nearest ray (r0 :: rs) Hclean false (MAXD G))
    as (b' & d' & Es & Hle & Hall & Hfrom).
  rewrite Es.
  destruct Hfrom as [[-> ->] | (r & Hin & Hh & Hb & Hd & Hlt)].
  - left. split; [reflexivity | exact Hall].
  - right. exists r. split; [exact Hin|]. split; [exact Hh|]. split; [exact Hlt|].
    split; [|now rewrite Hb].
    rewrite <- Hd. exact Hall.
Qed.

End CastProperties.

End TrimmedDomainCasts.

(** ** The bounding box of the trimmed domain *)

Module BoundingBoxTheory.

Import Mesh BoundingBox.

Section LimitProperties.

Variable MAXD LOWESTD : double.

Local Abbreviation box_of := (GetBoundingBoxOfTrimmedDomain MAXD LOWESTD).

Lemma pick_min (x y : double) : (if ltd x y then x else y) <= x /\ (if ltd x y then x else y) <= y.
Proof.
  destruct (ltd x y) eqn:E.
  - apply ltd_true in E. lra.
  - apply ltd_false in E. lra.
Qed.

Lemma pick_max (x y : double) : x <= (if ltd y x then x else y) /\ y <= (if ltd y x then x else y).
Proof.
  destruct (ltd y x) eqn:E.
  - apply ltd_true in E. lra.
  - apply ltd_false in E. lra.
Qed.

(** A point inside a box stays inside when the box is stretched, and the
    vertex the box is stretched by is inside. *)
Lemma stretch_keeps (bb : BoundingBox) (v p : Vector3d) :
  VoxelIndexing.in_box p bb -> VoxelIndexing.in_box p (stretch bb v).
Proof.
  destruct bb as [lo hi]. unfold VoxelIndexing.in_box, stretch. cbn [fst snd px py pz].
  intros ((X1 & X2) & (Y1 & Y2) & (Z1 & Z2)).
  pose proof (pick_min (px v) (px lo)). pose proof (pick_max (px v) (px hi)).
  pose proof (pick_min (py v) (py lo)). pose proof (pick_max (py v) (py hi)).
  pose proof (pick_min (pz v) (pz lo)). pose proof (pick_max (pz v) (pz hi)).
  set (x0 := if ltd (px v) (px lo) then _ else _) in *.
  set (x1 := if ltd (px hi) (px v) then _ else _) in *.
  set (y0 := if ltd (py v) (py lo) then _ else _) in *.
  set (y1 := if ltd (py hi) (py v) then _ else _) in *.
  set (z0 := if ltd (pz v) (pz lo) then _ else _) in *.
  set (z1 := if ltd (pz hi) (pz v) then _ else _) in *.
  repeat split; lra.
Qed.

Lemma stretch_takes (bb : BoundingBox) (v : Vector3d) :
  VoxelIndexing.in_box v (stretch bb v).
Proof.
  destruct bb as [lo hi]. unfold VoxelIndexing.in_box, stretch. cbn [fst snd px py pz].
  pose proof (pick_min (px v) (px lo)). pose proof (pick_max (px v) (px hi)).
  pose proof (pick_min (py v) (py lo)). pose proof (pick_max (py v) (py hi)).
  pose proof (pick_min (pz v) (pz lo)). pose proof (pick_max (pz v) (pz hi)).
  set (x0 := if ltd (px v) (px lo) then _ else _) in *.
  set (x1 := if ltd (px hi) (px v) then _ else _) in *.
  set (y0 := if ltd (py v) (py lo) then _ else _) in *.
  set (y1 := if ltd (py hi) (py v) then _ else _) in *.
  set (z0 := if ltd (pz v) (pz lo) then _ else _) in *.
  set (z1 := if ltd (pz hi) (pz v) then _ else _) in *.
  repeat split; lra.
Qed.

Lemma fold_stretch_keeps (vs : list Vector3d) (bb : BoundingBox) (p : Vector3d) :
  VoxelIndexing.in_box p bb -> VoxelIndexing.in_box p (fold_left stretch vs bb).
Proof.
  revert bb. induction vs as [|v vs IH]; intros bb H; simpl; [exact H|].
  apply IH. now apply stretch_keeps.
Qed.

Lemma fold_stretch_encloses (vs : list Vector3d) (bb : BoundingBox) :
  Forall (fun v => VoxelIndexing.in_box v (fold_left stretch vs bb)) vs.
Proof.
  revert bb. induction vs as [|v vs IH]; intros bb; simpl; constructor.
  - apply fold_stretch_keeps, stretch_takes.
  - apply IH.
Qed.

Lemma IsContained_in_box (p lo hi : PointType) :
  IsContained p lo hi = true <-> VoxelIndexing.in_box p (lo, hi).
Proof.
  unfold IsContained, VoxelIndexing.in_box. cbn [fst snd]. split.
  - intros H.
    destruct (_ || ltd (pz hi) (pz p)) eqn:E; [discriminate|].
    repeat (apply orb_false_iff in E; destruct E as [E ?]).
    repeat match goal with H : ltd _ _ = false |- _ => apply ltd_false in H end.
    repeat split; assumption.
  - intros ((X1 & X2) & (Y1 & Y2) & (Z1 & Z2)).
    now rewrite !ltd_ge by assumption.
Qed.

Lemma GetBoundingBoxOfTrimmedDomain_encloses (mpTriangleMesh : TriangleMesh) :
  Forall (fun v => VoxelIndexing.in_box v (box_of mpTriangleMesh))
         (GetVertices mpTriangleMesh).
Proof. apply fold_stretch_encloses. Qed.

(** X17.  Every vertex of the mesh is contained, in the sense of
    [IsContained], in the box [GetBoundingBoxOfTrimmedDomain] returns. *)
Theorem bounding_box_contains_every_vertex (mpTriangleMesh : TriangleMesh) :
  Forall (fun v => IsContained v (fst (box_of mpTriangleMesh))
                                 (snd (box_of mpTriangleMesh)) = true)
         (GetVertices mpTriangleMesh).
Proof.
  eapply Forall_impl; [|exact (GetBoundingBoxOfTrimmedDomain_encloses mpTriangleMesh)].
  intros v Hv. apply IsContained_in_box.
  rewrite <- surjective_pairing. exact Hv.
Qed.

(** Every bound of the stretched box is the bound it started from or a
    coordinate of one of the vertices. *)
Lemma fold_stretch_attains (vs : list Vector3d) (bb : BoundingBox) :
  let r := fold_left stretch vs bb in
  ((px (fst r) = px (fst bb) \/ Exists (fun v => px v = px (fst r)) vs)
   /\ (py (fst r) = py (fst bb) \/ Exists (fun v => py v = py (fst r)) vs)
   /\ (pz (fst r) = pz (fst bb) \/ Exists (fun v => pz v = pz (fst r)) vs))
  /\ ((px (snd r) = px (snd bb) \/ Exists (fun v => px v = px (snd r)) vs)
      /\ (py (snd r) = py (snd bb) \/ Exists (fun v => py v = py (snd r)) vs)
      /\ (pz (snd r) = pz (snd bb) \/ Exists (fun v => pz v = pz (snd r)) vs)).
Proof.
  revert bb. induction vs as [|v vs IH]; intros bb; cbn zeta.
  - simpl. repeat split; now left.
  - cbn [fold_left]. specialize (IH (stretch bb v)). cbn zeta in IH.
    destruct IH as ((X0 & Y0 & Z0) & (X1 & Y1 & Z1)).
    assert (step : forall (c : double) (old new : double) (b : bool)
                     (P : Vector3d -> Prop),
               (c = (if b then new else old) \/ Exists P vs) ->
               (c = new -> P v) ->
               c = old \/ Exists P (v :: vs)).
    { intros c old new b P [E | E] Hv.
      - destruct b; [right; left; auto | now left].
      - right. now right. }
    repeat split.
    + eapply step; [exact X0 | auto].
    + eapply step; [exact Y0 | auto].
    + eapply step; [exact Z0 | auto].
    + eapply step; [exact X1 | auto].
    + eapply step; [exact Y1 | auto].
    + eapply step; [exact Z1 | auto].
Qed.

(** X18.  For a mesh with a vertex, all coordinates strictly between
    [LOWESTD] and [MAXD], every coordinate of the two corners of the box
    [GetBoundingBoxOfTrimmedDomain] returns is that coordinate of some
    vertex. *)
Theorem bounding_box_is_spanned_by_vertices (mpTriangleMesh : TriangleMesh) :
  GetVertices mpTriangleMesh <> [] ->
  Forall (fun v => (LOWESTD < px v /\ px v < MAXD)
                   /\ (LOWESTD < py v /\ py v < MAXD)
                   /\ (LOWESTD < pz v /\ pz v < MAXD))
         (GetVertices mpTriangleMesh) ->
  (Exists (fun v => px v = px (fst (box_of mpTriangleMesh))) (GetVertices mpTriangleMesh)
   /\ Exists (fun v => py v = py (fst (box_of mpTriangleMesh))) (GetVertices mpTriangleMesh)
   /\ Exists (fun v => pz v = pz (fst (box_of mpTriangleMesh))) (GetVertices mpTriangleMesh))
  /\ (Exists (fun v => px v = px (snd (box_of mpTriangleMesh))) (GetVertices mpTriangleMesh)
      /\ Exists (fun v => py v = py (snd (box_of mpTriangleMesh))) (GetVertices mpTriangleMesh)
      /\ Exists (fun v => pz v = pz (snd (box_of mpTriangleMesh))) (GetVertices mpTriangleMesh)).
Proof.
  intros Hne Hrange.
  pose proof (GetBoundingBoxOfTrimmedDomain_encloses mpTriangleMesh) as Hin.
  unfold GetBoundingBoxOfTrimmedDomain in *.
  set (limits := (mkPoint MAXD MAXD MAXD, mkPoint LOWESTD LOWESTD LOWESTD)) in *.
  pose proof (fold_stretch_attains (GetVertices mpTriangleMesh) limits) as Hatt.
  cbn zeta in Hatt.
  destruct (GetVertices mpTriangleMesh) as [|v0 vs] eqn:Ev; [congruence|].
  set (r := fold_left stretch (v0 :: vs) limits) in *.
  inversion Hin as [|? ? Hv0 _]; subst.
  destruct Hv0 as ((A1 & A2) & (B1 & B2) & (C1 & C2)).
  inversion Hrange as [|? ? ((R1 & R2) & (R3 & R4) & (R5 & R6)) _]; subst.
  destruct Hatt as ((X0 & Y0 & Z0) & (X1 & Y1 & Z1)).
  unfold limits in X0, Y0, Z0, X1, Y1, Z1. cbn [fst snd px py pz] in X0, Y0, Z0, X1, Y1, Z1.
  repeat split;
    match goal with
    | H : ?c = _ \/ Exists ?P _ |- Exists ?P _ =>
        destruct H as [E | E]; [exfalso; rewrite E in *; lra | exact E]
    end.
Qed.

End LimitProperties.

End BoundingBoxTheory.

(** ** The comparison of the vertex map *)

Module STLTheory.

Import Mesh STL.

Section ComparisonProperties.

Variable SNAPTOL : double.

Local Abbreviation less := (PointComparison SNAPTOL).

Lemma Qle_bool_true (x y : double) : Qle_bool x y = true -> x <= y.
Proof. apply Qle_bool_iff. Qed.

Lemma Qle_bool_false (x y : double) : Qle_bool x y = false -> y < x.
Proof.
  intros H. apply Qnot_le_lt. intros Hle. apply Qle_bool_iff in Hle. congruence.
Qed.

Lemma Qabs_sub_sym (x y : double) : Qabs (x - y) == Qabs (y - x).
Proof.
  setoid_replace (y - x) with (- (x - y)) by ring. symmetry. apply Qabs_opp.
Qed.

(** Case analysis on a comparison of the source, leaving its meaning. *)
Ltac decide_comparisons :=
  repeat match goal with
  | |- context [ltd ?x ?y] =>
      let E := fresh "E" in
      destruct (ltd x y) eqn:E; [apply ltd_true in E | apply ltd_false in E]
  | |- context [Qle_bool ?x ?y] =>
      let E := fresh "E" in
      destruct (Qle_bool x y) eqn:E; [apply Qle_bool_true in E | apply Qle_bool_false in E]
  | H : context [ltd ?x ?y] |- _ =>
      let E := fresh "E" in
      destruct (ltd x y) eqn:E; [apply ltd_true in E | apply ltd_false in E]
  | H : context [Qle_bool ?x ?y] |- _ =>
      let E := fresh "E" in
      destruct (Qle_bool x y) eqn:E; [apply Qle_bool_true in E | apply Qle_bool_false in E]
  end.

(** X19.  [PointComparison] orders no point before itself exactly when
    [SNAPTOL] is positive, and with a positive [SNAPTOL] it never orders two
    points both ways. *)
Theorem PointComparison_is_a_strict_order_only_with_a_tolerance (p q : PointType) :
  (less p p = false <-> 0 < SNAPTOL)
  /\ (0 < SNAPTOL -> less p q = true -> less q p = false).
Proof.
  split.
  - unfold PointComparison.
    assert (Z : forall x : double, Qabs (x - x) == 0).
    { intros x. setoid_replace (x - x) with 0 by ring. reflexivity. }
    pose proof (Z (px p)) as Zx. pose proof (Z (py p)) as Zy.
    split.
    + intros H. decide_comparisons; simpl in H; try discriminate; lra.
    + intros H. decide_comparisons; simpl; try reflexivity; exfalso; lra.
  - intros Htol. unfold PointComparison.
    pose proof (Qabs_sub_sym (px p) (px q)) as Sx.
    pose proof (Qabs_sub_sym (py p) (py q)) as Sy.
    intros H. decide_comparisons; simpl in *; try reflexivity; try discriminate;
      exfalso; lra.
Qed.

Lemma Qabs_cases (x : double) :
  (0 <= x /\ Qabs x == x) \/ (x <= 0 /\ Qabs x == - x).
Proof.
  destruct (Qlt_le_dec x 0) as [H|H].
  - right. split; [lra|]. apply Qabs_neg. lra.
  - left. split; [assumption|]. now apply Qabs_pos.
Qed.

(** X20.  With a positive [SNAPTOL], [PointComparison] orders neither of two
    points before the other exactly when their first coordinates differ by
    less than [SNAPTOL] and either the second ones differ by less than
    [SNAPTOL] and the third ones by at most [SNAPTOL], or the second ones
    differ by [SNAPTOL] exactly. *)
Theorem vertices_within_the_tolerance_are_one_key (p q : PointType) :
  0 < SNAPTOL ->
  (same_key SNAPTOL p q = true
   <-> Qabs (px p - px q) < SNAPTOL
       /\ ((Qabs (py p - py q) < SNAPTOL /\ Qabs (pz p - pz q) <= SNAPTOL)
           \/ Qabs (py p - py q) == SNAPTOL)).
Proof.
  intros Htol. unfold same_key, PointComparison.
  pose proof (Qabs_sub_sym (px p) (px q)) as Sx.
  pose proof (Qabs_sub_sym (py p) (py q)) as Sy.
  destruct (Qabs_cases (px p - px q)) as [(Px & Ax) | (Px & Ax)];
  destruct (Qabs_cases (py p - py q)) as [(Py & Ay) | (Py & Ay)];
  destruct (Qabs_cases (pz p - pz q)) as [(Pz & Az) | (Pz & Az)];
  (split;
   [ intros H; decide_comparisons; simpl in H; try discriminate;
     first [ exfalso; lra
           | split; [lra|]; first [left; split; lra | right; lra] ]
   | intros (Hx & [(Hy & Hz) | Hy]);
     decide_comparisons; simpl; try reflexivity; exfalso; lra ]).
Qed.

(** X21.  With a positive [SNAPTOL], [PointComparison] is not transitive:
    there are points [p], [q] and [r] with [p] before [q] and [q] before
    [r], where [p] is not before [r] and the two are one key. *)
Theorem PointComparison_is_not_transitive :
  0 < SNAPTOL ->
  exists p q r : PointType,
    less p q = true /\ less q r = true /\ less p r = false
    /\ same_key SNAPTOL p r = true.
Proof.
  intros Htol.
  exists (mkPoint 0 0 0),
         (mkPoint ((3 # 2) * SNAPTOL) (- (2 * SNAPTOL)) 0),
         (mkPoint ((9 # 10) * SNAPTOL) 0 0).
  unfold same_key, PointComparison. cbn [px py pz].
  assert (A1 : Qabs (0 - (3 # 2) * SNAPTOL) == (3 # 2) * SNAPTOL).
  { rewrite Qabs_neg by lra. ring. }
  assert (A2 : Qabs ((3 # 2) * SNAPTOL - (9 # 10) * SNAPTOL) == (6 # 10) * SNAPTOL).
  { rewrite Qabs_pos by lra. ring. }
  assert (A3 : Qabs (- (2 * SNAPTOL) - 0) == 2 * SNAPTOL).
  { rewrite Qabs_neg by lra. ring. }
  assert (A4 : Qabs (0 - (9 # 10) * SNAPTOL) == (9 # 10) * SNAPTOL).
  { rewrite Qabs_neg by lra. ring. }
  assert (A5 : Qabs ((9 # 10) * SNAPTOL - 0) == (9 # 10) * SNAPTOL).
  { rewrite Qabs_pos by lra. ring. }
  assert (A6 : Qabs (0 - 0) == 0) by reflexivity.
  repeat split; decide_comparisons; simpl; try reflexivity; exfalso; lra.
Qed.

End ComparisonProperties.

End STLTheory.

(** ** STL files: the writer and the binary reader *)

Module STLFiles.

Import Mesh STL IOTheory.

(** *** What the writer writes and the detection of the format *)

Lemma found_app pattern message after :
  IO.found pattern message = true -> IO.found pattern (message ++ after) = true.
Proof.
  rewrite !found_spec. intros (before & rest & ->).
  exists before, (rest ++ after). now rewrite <- !app_assoc.
Qed.

Lemma STLIsInASCIIFormat_prefix (prefix rest : list ascii) :
  (length prefix <= 256)%nat ->
  IO.STLIsInASCIIFormat prefix = true ->
  IO.STLIsInASCIIFormat (prefix ++ rest) = true.
Proof.
  intros Hlen. unfold IO.STLIsInASCIIFormat.
  rewrite firstn_app, map_app.
  rewrite (firstn_all2 (n := 256) prefix) by exact Hlen.
  rewrite !andb_true_iff. intros (((H1 & H2) & H3) & H4).
  repeat split; now apply found_app.
Qed.

Section WriterProperties.

Variable print : double -> list ascii.
Variable float_bytes : double -> list ascii.

(** X22.  [STLIsInASCIIFormat] takes the text [WriteMeshToSTL] writes for an
    ASCII file exactly when the mesh has a triangle; the text of a mesh
    without triangles is taken for a binary file. *)
Theorem written_text_is_read_as_text_unless_the_mesh_is_empty
    (rTriangleMesh : TriangleMesh) :
  IO.STLIsInASCIIFormat (WriteMeshToSTL print float_bytes rTriangleMesh false)
  = negb (NumOfTriangles rTriangleMesh =? 0)%nat.
Proof.
  unfold WriteMeshToSTL.
  destruct (NumOfTriangles rTriangleMesh) as [|n].
  - reflexivity.
  - cbn [Nat.eqb negb].
    match goal with |- IO.STLIsInASCIIFormat ?file = true =>
      rewrite <- (firstn_skipn 19 file)
    end.
    apply STLIsInASCIIFormat_prefix.
    + etransitivity; [apply firstn_le_length | lia].
    + reflexivity.
Qed.

End WriterProperties.

(** *** The binary reader *)

Section BinaryReaderProperties.

Variable R : IO.Reader.
Variable float_of_bytes : list ascii -> double.
Variable Check : TriangleMesh -> bool.

Local Abbreviation read_point := (STL.read_point float_of_bytes).
Local Abbreviation read_triangle := (STL.read_triangle R float_of_bytes).
Local Abbreviation read_triangles := (STL.read_triangles R float_of_bytes).
Local Abbreviation facets_of_bytes := (STL.facets_of_bytes float_of_bytes).

Lemma read_enough (n : nat) (file : list ascii) :
  (n <= length file)%nat -> read n file = Some (firstn n file, skipn n file).
Proof. intros H. unfold read. now rewrite (proj2 (Nat.leb_le _ _) H). Qed.

Lemma read_short (n : nat) (file : list ascii) :
  (length file < n)%nat -> read n file = None.
Proof.
  intros H. unfold read.
  destruct (n <=? length file)%nat eqn:E; [apply Nat.leb_le in E; lia | reflexivity].
Qed.

Lemma read_point_enough (file : list ascii) :
  (12 <= length file)%nat ->
  exists p, read_point file = Some (p, skipn 12 file).
Proof.
  intros H. unfold STL.read_point.
  rewrite read_enough by lia.
  rewrite read_enough by (rewrite length_skipn; lia).
  rewrite read_enough by (rewrite !length_skipn; lia).
  rewrite !skipn_skipn. eexists. reflexivity.
Qed.

Lemma read_some (n : nat) (file chunk rest : list ascii) :
  read n file = Some (chunk, rest) ->
  (n <= length file)%nat /\ chunk = firstn n file /\ rest = skipn n file.
Proof.
  unfold read. destruct (n <=? length file)%nat eqn:E; [|discriminate].
  apply Nat.leb_le in E. intros H. injection H as <- <-. now repeat split.
Qed.

Lemma read_point_short (file : list ascii) :
  (length file < 12)%nat -> read_point file = None.
Proof.
  intros H. unfold STL.read_point.
  destruct (read 4 file) as [[x file1]|] eqn:E1; [|reflexivity].
  apply read_some in E1. destruct E1 as (L1 & -> & ->).
  destruct (read 4 (skipn 4 file)) as [[y file2]|] eqn:E2; [|reflexivity].
  apply read_some in E2. destruct E2 as (L2 & -> & ->).
  rewrite length_skipn in L2.
  rewrite read_short; [reflexivity|]. rewrite !length_skipn. lia.
Qed.

(** A whole record of fifty bytes is there: the body of the loop is
    [AddFacet] on the facet it holds. *)
Lemma read_triangle_enough (st : IO.State) (file : list ascii) :
  (50 <= length file)%nat ->
  exists f,
    read_triangle st file = (IO.AddFacet R st f, Some (skipn 50 file))
    /\ forall n, facets_of_bytes (S n) file = f :: facets_of_bytes n (skipn 50 file).
Proof.
  intros H.
  destruct (read_point_enough file) as (pn & E0); [lia|].
  destruct (read_point_enough (skipn 12 file)) as (p1 & E1);
    [rewrite length_skipn; lia|].
  destruct (read_point_enough (skipn 12 (skipn 12 file))) as (p2 & E2);
    [rewrite !length_skipn; lia|].
  destruct (read_point_enough (skipn 12 (skipn 12 (skipn 12 file)))) as (p3 & E3);
    [rewrite !length_skipn; lia|].
  assert (E4 : read 2 (skipn 12 (skipn 12 (skipn 12 (skipn 12 file))))
               = Some (firstn 2 (skipn 48 file), skipn 50 file)).
  { rewrite !skipn_skipn. simpl Nat.add.
    rewrite read_enough by (rewrite length_skipn; lia).
    now rewrite skipn_skipn. }
  exists (IO.mkFacet pn p1 p2 p3). split.
  - unfold STL.read_triangle, IO.AddFacet. cbn [IO.vertex_1 IO.vertex_2 IO.vertex_3 IO.stored_normal].
    rewrite E0, E1.
    destruct (IO.insert_vertex R st p1) as [[st1 t1] v1].
    rewrite E2.
    destruct (IO.insert_vertex R st1 p2) as [[st2 t2] v2].
    rewrite E3.
    destruct (IO.insert_vertex R st2 p3) as [[st3 t3] v3].
    rewrite E4. reflexivity.
  - intros n. cbn [STL.facets_of_bytes]. now rewrite E0, E1, E2, E3, E4.
Qed.

(** Less than fifty bytes are left: a read fails. *)
Lemma read_triangle_short (st : IO.State) (file : list ascii) :
  (length file < 50)%nat ->
  snd (read_triangle st file) = None
  /\ forall n, facets_of_bytes (S n) file = [].
Proof.
  intros H.
  assert (Hp : forall f, (length f < 12)%nat -> read_point f = None)
    by apply read_point_short.
  assert (Hs : forall f p rest, read_point f = Some (p, rest) ->
                 rest = skipn 12 f /\ (12 <= length f)%nat).
  { intros f p rest E.
    destruct (Nat.le_gt_cases 12 (length f)) as [L|L].
    - destruct (read_point_enough f L) as (p' & E'). rewrite E' in E.
      inversion E; subst. now split.
    - rewrite Hp in E by exact L. discriminate. }
  unfold STL.read_triangle. cbn [STL.facets_of_bytes].
  destruct (read_point file) as [[pn f0]|] eqn:E0; [|now split].
  destruct (Hs _ _ _ E0) as (-> & L0).
  destruct (read_point (skipn 12 file)) as [[p1 f1]|] eqn:E1; [|now split].
  destruct (Hs _ _ _ E1) as (-> & L1). rewrite length_skipn in L1.
  destruct (IO.insert_vertex R st p1) as [[st1 t1] v1].
  destruct (read_point (skipn 12 (skipn 12 file))) as [[p2 f2]|] eqn:E2; [|now split].
  destruct (Hs _ _ _ E2) as (-> & L2). rewrite !length_skipn in L2.
  destruct (IO.insert_vertex R st1 p2) as [[st2 t2] v2].
  destruct (read_point (skipn 12 (skipn 12 (skipn 12 file)))) as [[p3 f3]|] eqn:E3;
    [|now split].
  destruct (Hs _ _ _ E3) as (-> & L3). rewrite !length_skipn in L3.
  destruct (IO.insert_vertex R st2 p3) as [[st3 t3] v3].
  rewrite read_short by (rewrite !length_skipn; lia). now split.
Qed.

Lemma read_triangles_enough (n : nat) : forall (st : IO.State) (file : list ascii),
  (50 * n <= length file)%nat ->
  read_triangles n st file
  = (fold_left (IO.AddFacet R) (facets_of_bytes n file) st, true)
  /\ length (facets_of_bytes n file) = n.
Proof.
  induction n as [|n IH]; intros st file H.
  - now split.
  - destruct (read_triangle_enough st file) as (f & E & Ef); [lia|].
    cbn [STL.read_triangles]. rewrite E, Ef.
    destruct (IH (IO.AddFacet R st f) (skipn 50 file)) as (E' & L');
      [rewrite length_skipn; lia|].
    rewrite E'. split; [reflexivity | cbn [length]; now rewrite L'].
Qed.

Lemma read_triangles_short (n : nat) : forall (st : IO.State) (file : list ascii),
  (length file < 50 * n)%nat ->
  snd (read_triangles n st file) = false.
Proof.
  induction n as [|n IH]; intros st file H; [lia|].
  cbn [STL.read_triangles].
  destruct (Nat.le_gt_cases 50 (length file)) as [L|L].
  - destruct (read_triangle_enough st file L) as (f & E & _). rewrite E.
    apply IH. rewrite length_skipn. lia.
  - destruct (read_triangle_short st file L) as (E & _).
    destruct (read_triangle st file) as [st' [rest|]]; [discriminate | reflexivity].
Qed.

Lemma firstn_app_le {A : Type} (n : nat) (l r : list A) :
  (n <= length l)%nat -> firstn n (l ++ r) = firstn n l.
Proof.
  intros H. rewrite firstn_app. replace (n - length l)%nat with O by lia.
  rewrite firstn_O. apply app_nil_r.
Qed.

Lemma skipn_app_le {A : Type} (n : nat) (l r : list A) :
  (n <= length l)%nat -> skipn n (l ++ r) = skipn n l ++ r.
Proof.
  intros H. rewrite skipn_app. replace (n - length l)%nat with O by lia.
  reflexivity.
Qed.

Lemma read_app (n : nat) (file rest : list ascii) :
  (n <= length file)%nat ->
  read n (file ++ rest) = Some (firstn n file, skipn n file ++ rest).
Proof.
  intros H. rewrite read_enough by (rewrite length_app; lia).
  now rewrite firstn_app_le, skipn_app_le by exact H.
Qed.

Lemma read_point_app (file rest : list ascii) :
  (12 <= length file)%nat ->
  exists p, read_point file = Some (p, skipn 12 file)
            /\ read_point (file ++ rest) = Some (p, skipn 12 file ++ rest).
Proof.
  intros H. unfold STL.read_point.
  rewrite read_app by lia.
  rewrite read_app by (rewrite length_skipn; lia).
  rewrite read_app by (rewrite !length_skipn; lia).
  rewrite read_enough by lia.
  rewrite read_enough by (rewrite length_skipn; lia).
  rewrite read_enough by (rewrite !length_skipn; lia).
  rewrite !skipn_skipn. eexists. split; reflexivity.
Qed.

(** The facets are read from the first fifty bytes each; what follows them
    is not looked at. *)
Lemma facets_of_bytes_app (n : nat) : forall (file rest : list ascii),
  (50 * n <= length file)%nat ->
  facets_of_bytes n (file ++ rest) = facets_of_bytes n file.
Proof.
  induction n as [|n IH]; intros file rest H; [reflexivity|].
  cbn [STL.facets_of_bytes].
  destruct (read_point_app file rest) as (pn & E0 & E0'); [lia|].
  rewrite E0, E0'.
  destruct (read_point_app (skipn 12 file) rest) as (p1 & E1 & E1');
    [rewrite length_skipn; lia|].
  rewrite E1, E1'.
  destruct (read_point_app (skipn 12 (skipn 12 file)) rest) as (p2 & E2 & E2');
    [rewrite !length_skipn; lia|].
  rewrite E2, E2'.
  destruct (read_point_app (skipn 12 (skipn 12 (skipn 12 file))) rest)
    as (p3 & E3 & E3'); [rewrite !length_skipn; lia|].
  rewrite E3, E3'.
  rewrite read_app by (rewrite !length_skipn; lia).
  rewrite read_enough by (rewrite !length_skipn; lia).
  f_equal. apply IH. rewrite !length_skipn. lia.
Qed.



End BinaryReaderProperties.

(** *** Writing a mesh and reading it again *)

Lemma uint_of_int_bytes (n : N) : uint_of_bytes (int_bytes n) = (n mod 2 ^ 32)%N.
Proof.
  unfold uint_of_bytes, int_bytes.
  rewrite !N_ascii_embedding by (apply N.mod_upper_bound; discriminate).
  change (2 ^ 32)%N with 4294967296%N.
  pose proof (N.Div0.div_mod n 256).
  pose proof (N.Div0.div_mod (n / 256) 256).
  pose proof (N.Div0.div_mod (n / 65536) 256).
  pose proof (N.Div0.div_mod (n / 16777216) 256).
  pose proof (N.mod_upper_bound n 256 ltac:(discriminate)).
  pose proof (N.mod_upper_bound (n / 256) 256 ltac:(discriminate)).
  pose proof (N.mod_upper_bound (n / 65536) 256 ltac:(discriminate)).
  pose proof (N.mod_upper_bound (n / 16777216) 256 ltac:(discriminate)).
  assert (E1 : (n / 65536 = n / 256 / 256)%N) by (rewrite N.Div0.div_div; reflexivity).
  assert (E2 : (n / 16777216 = n / 65536 / 256)%N) by (rewrite N.Div0.div_div; reflexivity).
  assert (E3 : (n / 4294967296 = n / 16777216 / 256)%N) by (rewrite N.Div0.div_div; reflexivity).
  pose proof (N.Div0.div_mod n 4294967296).
  pose proof (N.mod_upper_bound n 4294967296 ltac:(discriminate)).
  lia.
Qed.

Section RoundTripProperties.

Variable R : IO.Reader.
Variable print : double -> list ascii.
Variable float_bytes : double -> list ascii.
Variable float_of_bytes : list ascii -> double.
Variable Check : TriangleMesh -> bool.

Hypothesis four_bytes : forall x, length (float_bytes x) = 4%nat.

Lemma read_float_written (x : double) (rest : list ascii) :
  read 4 (float_bytes x ++ rest) = Some (float_bytes x, rest).
Proof.
  rewrite read_app by (rewrite four_bytes; lia).
  now rewrite firstn_all2, skipn_all2 by (rewrite four_bytes; lia).
Qed.

Lemma read_point_written (p : Vector3d) (rest : list ascii) :
  STL.read_point float_of_bytes (point_bytes float_bytes p ++ rest)
  = Some (float_point float_bytes float_of_bytes p, rest).
Proof.
  unfold STL.read_point, point_bytes. rewrite <- !app_assoc.
  now rewrite !read_float_written.
Qed.

Lemma facets_of_bytes_written (rTriangleMesh : TriangleMesh) (ids : list nat) :
  forall rest,
  STL.facets_of_bytes float_of_bytes (length ids)
    (flat_map (facet_bytes float_bytes rTriangleMesh) ids ++ rest)
  = map (facet_written float_bytes float_of_bytes rTriangleMesh) ids.
Proof.
  induction ids as [|id ids IH]; intros rest; [reflexivity|].
  cbn [length flat_map map STL.facets_of_bytes]. unfold facet_bytes at 1.
  rewrite <- !app_assoc. rewrite !read_point_written.
  unfold read. cbn [text String.list_ascii_of_string app length Nat.leb firstn skipn].
  now rewrite IH.
Qed.

Lemma length_flat_map_facet_bytes (rTriangleMesh : TriangleMesh) (ids : list nat) :
  length (flat_map (facet_bytes float_bytes rTriangleMesh) ids) = (50 * length ids)%nat.
Proof.
  induction ids as [|id ids IH]; [reflexivity|].
  cbn [flat_map length]. rewrite length_app, IH.
  unfold facet_bytes, point_bytes. rewrite !length_app, !four_bytes.
  cbn [text String.list_ascii_of_string length]. lia.
Qed.

(** X25.  For a mesh of fewer than [2^32] triangles, the binary file
    [WriteMeshToSTL] writes has [84 + 50 n] bytes, and
    [ReadMeshFromSTL_Binary] reads from it the facets of the mesh in their
    order, every coordinate rounded to a [float], whatever the mesh held
    before. *)
Theorem binary_file_written_is_read_back (rTriangleMesh rOther : TriangleMesh) :
  (N.of_nat (NumOfTriangles rTriangleMesh) < 2 ^ 32)%N ->
  let file := WriteMeshToSTL print float_bytes rTriangleMesh true in
  let facets := map (facet_written float_bytes float_of_bytes rTriangleMesh)
                    (seq 0 (NumOfTriangles rTriangleMesh)) in
  length file = (84 + 50 * NumOfTriangles rTriangleMesh)%nat
  /\ ReadMeshFromSTL_Binary R float_of_bytes Check rOther file
     = (Check (IO.rTriangleMesh (IO.ReadFacets R facets)),
        IO.rTriangleMesh (IO.ReadFacets R facets)).
Proof.
  intros Hn file facets. unfold file, facets, WriteMeshToSTL.
  set (n := NumOfTriangles rTriangleMesh) in *.
  set (body := flat_map (facet_bytes float_bytes rTriangleMesh) (seq 0 n)).
  assert (Hbody : length body = (50 * n)%nat).
  { unfold body. now rewrite length_flat_map_facet_bytes, length_seq. }
  assert (Hheader : length header = 80%nat) by reflexivity.
  split.
  - rewrite !length_app, Hheader, Hbody. reflexivity.
  - unfold ReadMeshFromSTL_Binary.
    rewrite !length_app, Hheader, Hbody.
    replace (Nat.min 80 (80 + (length (int_bytes (N.of_nat n mod 2 ^ 32)) + 50 * n)))
      with 80%nat by (cbn [int_bytes length]; lia).
    cbn [Nat.eqb negb].
    rewrite <- Hheader at 1. rewrite skipn_app, skipn_all, Nat.sub_diag.
    cbn [skipn app].
    rewrite read_app by (cbn [int_bytes length]; lia).
    change (firstn 4 (int_bytes ?m)) with (int_bytes m).
    change (skipn 4 (int_bytes ?m)) with (@nil ascii).
    rewrite uint_of_int_bytes, N.Div0.mod_mod, N.mod_small by exact Hn.
    rewrite Nat2N.id. cbn [app].
    destruct (read_triangles_enough R float_of_bytes n IO.initial body) as (E & _);
      [lia|].
    rewrite E.
    replace (STL.facets_of_bytes float_of_bytes n body)
      with (map (facet_written float_bytes float_of_bytes rTriangleMesh) (seq 0 n)).
    + reflexivity.
    + symmetry. unfold body.
      pose proof (facets_of_bytes_written rTriangleMesh (seq 0 n) []) as W.
      now rewrite app_nil_r, length_seq in W.
Qed.

End RoundTripProperties.

End STLFiles.

(** ** Parameters of the tests *)

Module TestParameterTheory.

Import TestParameter.

Lemma same_type_eq (s t : type_info) : same_type s t = true <-> s = t.
Proof. destruct s, t; simpl; split; congruence. Qed.

Lemma same_type_refl (t : type_info) : same_type t t = true.
Proof. now apply same_type_eq. Qed.

(** *** [pFind] on a list that grew or was assigned to *)

Lemma pFind_app type rName l l' :
  pFind type rName (l ++ l')
  = match pFind type rName l with
    | Some v => Some v
    | None => pFind type rName l'
    end.
Proof.
  induction l as [|c l IH]; [reflexivity|]. simpl.
  destruct (same_type _ _); [|exact IH].
  destruct (String.eqb _ _); [reflexivity | exact IH].
Qed.

Lemma pFind_assign_same rName rValue l :
  pFind (TypeVisit rValue) rName l <> None ->
  pFind (TypeVisit rValue) rName (assign rName rValue l) = Some rValue.
Proof.
  induction l as [|c l IH]; cbn [pFind assign]; [congruence|].
  destruct (same_type (TypeVisit (Get c)) (TypeVisit rValue)) eqn:Et;
    [destruct (String.eqb (Name c) rName) eqn:En|]; cbn [andb pFind Get Name].
  - intros _. now rewrite same_type_refl, En.
  - intros H. rewrite Et, En. now apply IH.
  - intros H. rewrite Et. now apply IH.
Qed.

Lemma pFind_assign_other type n rName rValue l :
  same_type type (TypeVisit rValue) && String.eqb n rName = false ->
  pFind type n (assign rName rValue l) = pFind type n l.
Proof.
  intros Hne. induction l as [|c l IH]; [reflexivity|]. cbn [assign].
  destruct (same_type (TypeVisit (Get c)) (TypeVisit rValue)
            && String.eqb (Name c) rName) eqn:E.
  - apply andb_true_iff in E. destruct E as [Et En].
    apply same_type_eq in Et. apply String.eqb_eq in En.
    cbn [pFind Get Name]. rewrite Et, En.
    destruct (same_type (TypeVisit rValue) type) eqn:E1; [|reflexivity].
    apply same_type_eq in E1. subst type.
    rewrite same_type_refl in Hne. simpl in Hne.
    rewrite String.eqb_sym, Hne. reflexivity.
  - cbn [pFind]. now rewrite IH.
Qed.

Lemma assign_length rName rValue l : length (assign rName rValue l) = length l.
Proof.
  induction l as [|c l IH]; [reflexivity|]. simpl.
  destruct (_ && _); simpl; [reflexivity | now rewrite IH].
Qed.

(** [assign] changes no name and no type, so [CheckTypes] answers the
    same. *)
Lemma check_component_same types c c' :
  Name c = Name c' -> TypeVisit (Get c) = TypeVisit (Get c') ->
  check_component types c = check_component types c'.
Proof.
  intros Hn Ht. induction types as [|[ref_name ref_type] types IH]; simpl.
  - now rewrite Hn.
  - now rewrite Hn, Ht, IH.
Qed.

Lemma CheckTypes_assign rName rValue l :
  CheckTypes (assign rName rValue l) = CheckTypes l.
Proof.
  induction l as [|c l IH]; [reflexivity|]. cbn [assign].
  destruct (same_type (TypeVisit (Get c)) (TypeVisit rValue)
            && String.eqb (Name c) rName) eqn:E; cbn [CheckTypes].
  - apply andb_true_iff in E. destruct E as [Et _]. apply same_type_eq in Et.
    now rewrite (check_component_same mTypes (mkComponent (Name c) rValue) c).
  - now rewrite IH.
Qed.

Lemma CheckTypes_app l l' :
  CheckTypes (l ++ l')
  = match CheckTypes l with Some e => Some e | None => CheckTypes l' end.
Proof.
  induction l as [|c l IH]; [reflexivity|]. cbn [app CheckTypes].
  destruct (check_component mTypes c); [reflexivity | exact IH].
Qed.

Lemma check_component_registered types c :
  check_component types c = None -> In (Name c, TypeVisit (Get c)) types.
Proof.
  induction types as [|[ref_name ref_type] types IH]; simpl; [discriminate|].
  destruct (String.eqb ref_name (Name c)) eqn:En.
  - destruct (same_type ref_type (TypeVisit (Get c))) eqn:Et; [|discriminate].
    intros _. left. apply String.eqb_eq in En. apply same_type_eq in Et. congruence.
  - intros H. right. now apply IH.
Qed.

Lemma registered_check_component types c :
  distinct_names types = true ->
  In (Name c, TypeVisit (Get c)) types -> check_component types c = None.
Proof.
  induction types as [|[ref_name ref_type] types IH]; simpl; [contradiction|].
  intros Hd [E | Hin].
  - inversion E; subst. now rewrite String.eqb_refl, same_type_refl.
  - apply andb_true_iff in Hd. destruct Hd as [Hnot Hd].
    destruct (String.eqb ref_name (Name c)) eqn:En; [|now apply IH].
    exfalso. apply negb_true_iff in Hnot.
    assert (Hex : existsb (fun entry => String.eqb (fst entry) ref_name) types = true).
    { apply existsb_exists. exists (Name c, TypeVisit (Get c)). split; [exact Hin|].
      simpl. now rewrite String.eqb_sym. }
    congruence.
Qed.

Lemma CheckTypes_registered l : CheckTypes l = None <-> Forall registered l.
Proof.
  induction l as [|c l IH]; cbn [CheckTypes].
  - split; [constructor | reflexivity].
  - destruct (check_component mTypes c) eqn:E.
    + split; [discriminate|]. intros H. inversion H as [|? ? Hc _]; subst.
      apply (registered_check_component mTypes c) in Hc; [congruence | reflexivity].
    + rewrite IH. split.
      * intros H. constructor; [now apply check_component_registered | exact H].
      * intros H. now inversion H.
Qed.

(** X26.  After [Set] of a value under a name, [Get] of that name at the type
    of the value returns the value; [Get] of any other name or type returns
    what it returned before; and [Set] always appends one component. *)
Theorem a_value_set_is_the_value_got (rName : String.string) (rValue : ComponentType)
    (mComponents : list Component) :
  GetValue (TypeVisit rValue) rName (fst (SetValue rName rValue mComponents))
  = inr rValue
  /\ (forall type Name,
        same_type type (TypeVisit rValue) && String.eqb Name rName = false ->
        GetValue type Name (fst (SetValue rName rValue mComponents))
        = GetValue type Name mComponents)
  /\ length (fst (SetValue rName rValue mComponents)) = S (length mComponents).
Proof.
  unfold SetValue, GetValue. cbn [fst].
  split; [|split].
  - rewrite pFind_app.
    destruct (pFind (TypeVisit rValue) rName mComponents) as [v|] eqn:E.
    + rewrite pFind_assign_same by congruence. reflexivity.
    + rewrite E. simpl. now rewrite same_type_refl, String.eqb_refl.
  - intros type n Hne. rewrite pFind_app.
    assert (Hlast : pFind type n [mkComponent rName rValue] = None).
    { simpl. apply andb_false_iff in Hne.
      destruct (same_type (TypeVisit rValue) type) eqn:Et; [|reflexivity].
      apply same_type_eq in Et. subst type. rewrite same_type_refl in Hne.
      destruct Hne as [Hne | Hne]; [discriminate|].
      rewrite String.eqb_sym. now rewrite Hne. }
    rewrite Hlast.
    assert (Hsame : pFind type n
                      match pFind (TypeVisit rValue) rName mComponents with
                      | Some _ => assign rName rValue mComponents
                      | None => mComponents
                      end = pFind type n mComponents).
    { destruct (pFind (TypeVisit rValue) rName mComponents);
        [now apply pFind_assign_other | reflexivity]. }
    rewrite Hsame. now destruct (pFind type n mComponents).
  - rewrite length_app. simpl.
    destruct (pFind (TypeVisit rValue) rName mComponents);
      [rewrite assign_length|]; lia.
Qed.


(** *** The defaults *)

(** The seven instances of [AddValueNoThrow] for one default come to one
    test: the default is added when no component of its type has its
    name. *)
Lemma AddValueNoThrow_all (mComponents : list Component) (value : Component) :
  fold_left (fun components type => AddValueNoThrow type components value)
            [typeid_PointType; typeid_Vector3i; typeid_bool; typeid_double;
             typeid_IndexType; typeid_string; typeid_IntegrationMethod]
            mComponents
  = match pFind (TypeVisit (Get value)) (Name value) mComponents with
    | None => mComponents ++ [value]
    | Some _ => mComponents
    end.
Proof.
  destruct value as [n v]. unfold AddValueNoThrow.
  destruct v; cbn [fold_left TypeVisit Get Name same_type];
    destruct (pFind _ n mComponents); reflexivity.
Qed.

Lemma fold_left_cons {A B : Type} (f : A -> B -> A) (x : B) (l : list B) (a : A) :
  fold_left f (x :: l) a = fold_left f l (f a x).
Proof. reflexivity. Qed.

Lemma pFind_defaults (defaults : list Component) :
  forall (mComponents : list Component) type rName,
  pFind type rName
    (fold_left (fun components value =>
                  fold_left (fun components type => AddValueNoThrow type components value)
                            [typeid_PointType; typeid_Vector3i; typeid_bool; typeid_double;
                             typeid_IndexType; typeid_string; typeid_IntegrationMethod]
                            components)
               defaults mComponents)
  = match pFind type rName mComponents with
    | Some v => Some v
    | None => pFind type rName defaults
    end.
Proof.
  induction defaults as [|d defaults IH]; intros mComponents type rName.
  - cbn [fold_left]. now destruct (pFind type rName mComponents).
  - rewrite fold_left_cons. cbv beta. rewrite IH, AddValueNoThrow_all.
    destruct (pFind (TypeVisit (Get d)) (Name d) mComponents) as [v|] eqn:Ed.
    + destruct (pFind type rName mComponents) eqn:E; [reflexivity|].
      cbn [pFind].
      destruct (same_type (TypeVisit (Get d)) type) eqn:Et; [|reflexivity].
      destruct (String.eqb (Name d) rName) eqn:En; [|reflexivity].
      apply same_type_eq in Et. apply String.eqb_eq in En. subst. congruence.
    + rewrite pFind_app.
      destruct (pFind type rName mComponents) eqn:E; [reflexivity|].
      cbn [pFind].
      destruct (same_type (TypeVisit (Get d)) type); [|reflexivity].
      destruct (String.eqb (Name d) rName); reflexivity.
Qed.

Lemma CheckTypes_defaults (defaults : list Component) :
  Forall registered defaults ->
  forall mComponents,
  Forall registered
    (fold_left (fun components value =>
                  fold_left (fun components type => AddValueNoThrow type components value)
                            [typeid_PointType; typeid_Vector3i; typeid_bool; typeid_double;
                             typeid_IndexType; typeid_string; typeid_IntegrationMethod]
                            components)
               defaults mComponents)
  <-> Forall registered mComponents.
Proof.
  induction 1 as [|d defaults Hd _ IH]; intros mComponents; [reflexivity|].
  rewrite fold_left_cons. cbv beta. rewrite IH, AddValueNoThrow_all.
  destruct (pFind _ _ mComponents); [reflexivity|].
  rewrite Forall_app. split; [tauto|]. intros H. split; [exact H | now constructor].
Qed.

Lemma mDefaults_registered : Forall registered mDefaults.
Proof. apply CheckTypes_registered. reflexivity. Qed.

(** X27.  [CheckTypes] passes exactly when every component has a name of
    [mTypes] with the type registered for it; so [Set] throws unless the
    components and the new one are registered, and the constructor throws
    unless the components given are. *)
Theorem only_registered_components_pass_the_check (rName : String.string)
    (rValue : ComponentType) (mComponents Components : list Component) :
  (CheckTypes mComponents = None <-> Forall registered mComponents)
  /\ (snd (SetValue rName rValue mComponents) = None
      <-> Forall registered mComponents /\ registered (mkComponent rName rValue))
  /\ ((exists object, TestParameter Components = inr object)
      <-> Forall registered Components).
Proof.
  split; [apply CheckTypes_registered|]. split.
  - unfold SetValue. cbn [snd]. rewrite CheckTypes_app.
    assert (E : CheckTypes match pFind (TypeVisit rValue) rName mComponents with
                           | Some _ => assign rName rValue mComponents
                           | None => mComponents
                           end = CheckTypes mComponents).
    { destruct (pFind _ _ _); [apply CheckTypes_assign | reflexivity]. }
    rewrite E.
    pose proof (CheckTypes_registered mComponents) as H1.
    pose proof (CheckTypes_registered [mkComponent rName rValue]) as H2.
    destruct (CheckTypes mComponents).
    + split; [discriminate|]. intros [H _]. apply H1 in H. discriminate.
    + rewrite H2. split.
      * intros H. split; [now apply H1 | now inversion H].
      * intros [_ H]. now constructor.
  - unfold TestParameter.
    pose proof (CheckTypes_registered (AddDefaults Components)) as H1.
    pose proof (CheckTypes_defaults mDefaults mDefaults_registered Components) as H2.
    fold (AddDefaults Components) in H2.
    destruct (CheckTypes (AddDefaults Components)).
    + split; [intros [object H]; discriminate|].
      intros H. apply H2 in H. apply H1 in H. discriminate.
    + split; [|intros _; eexists; reflexivity].
      intros _. apply H2. now apply H1.
Qed.

(** X28.  In an object the constructor built, [Get] returns the value of the
    components given where they hold one of that name and type, and the
    default of that name and type otherwise. *)
Theorem defaults_fill_in_what_is_not_given (Components object : list Component)
    (type : type_info) (Name : String.string) :
  TestParameter Components = inr object ->
  GetValue type Name object
  = match GetValue type Name Components with
    | inr value => inr value
    | inl _ => GetValue type Name mDefaults
    end.
Proof.
  unfold TestParameter. destruct (CheckTypes (AddDefaults Components)); [discriminate|].
  intros H. injection H as <-.
  unfold GetValue, AddDefaults. rewrite pFind_defaults.
  destruct (pFind type Name Components); reflexivity.
Qed.

End TestParameterTheory.

(** ** The results of the flood fill *)

Module FloodFillTheory.

Import VoxelIndexing QuESo FloodFill.

Lemma assign_at_length {A : Type} (i : nat) (x : A) (v : list A) :
  length (assign_at i x v) = length v.
Proof.
  revert i. induction v as [|y v IH]; intros [|i]; simpl; auto.
Qed.

Lemma nth_assign_at {A : Type} (i j : nat) (x d : A) (v : list A) :
  (i < length v)%nat ->
  nth j (assign_at i x v) d = if (i =? j)%nat then x else nth j v d.
Proof.
  revert i j. induction v as [|y v IH]; intros [|i] [|j] H; simpl in *;
    try lia; try reflexivity.
  apply IH. lia.
Qed.

Lemma same_offsets_refl o : same_offsets o o.
Proof. unfold same_offsets, same_point. repeat split; reflexivity. Qed.

Lemma pass_same Index o o' call :
  same_offsets o o' -> same_offsets (pass Index o call) (pass Index o' call).
Proof.
  unfold pass. destruct (fst call =? Index)%N; [|auto].
  unfold same_offsets, same_point, Add. cbn [fst snd px py pz].
  intros ((X & Y & Z) & (X' & Y' & Z')).
  repeat split; (rewrite X || rewrite Y || rewrite Z || rewrite X' || rewrite Y' || rewrite Z'); reflexivity.
Qed.

Lemma fold_pass_same Index calls : forall o o',
  same_offsets o o' ->
  same_offsets (fold_left (pass Index) calls o) (fold_left (pass Index) calls o').
Proof.
  induction calls as [|call calls IH]; intros o o' H; simpl; [exact H|].
  apply IH. now apply pass_same.
Qed.

Lemma same_offsets_trans o1 o2 o3 :
  same_offsets o1 o2 -> same_offsets o2 o3 -> same_offsets o1 o3.
Proof.
  unfold same_offsets, same_point.
  intros ((X & Y & Z) & (X' & Y' & Z')) ((A & B & C) & (A' & B' & C')).
  repeat split; etransitivity; eassumption.
Qed.

Lemma find_offsets_cons e offsets Index :
  find_offsets (e :: offsets) Index
  = if (fst e =? Index)%N then Some (snd e) else find_offsets offsets Index.
Proof.
  unfold find_offsets, IndexType in *. cbn [find]. now destruct (fst e =? Index)%N.
Qed.

Lemma find_offsets_app offsets Index entry :
  find_offsets (offsets ++ [entry]) Index
  = match find_offsets offsets Index with
    | Some o => Some o
    | None => if (fst entry =? Index)%N then Some (snd entry) else None
    end.
Proof.
  induction offsets as [|e offsets IH]; cbn [app].
  - now rewrite find_offsets_cons.
  - rewrite !find_offsets_cons. destruct (fst e =? Index)%N; [reflexivity | exact IH].
Qed.

Lemma find_add_offsets offsets i Index o :
  find_offsets (add_offsets offsets i o) Index
  = match find_offsets offsets Index with
    | Some e => if (i =? Index)%N
                then Some (Add (fst e) (fst o), Add (snd e) (snd o))
                else Some e
    | None => None
    end.
Proof.
  induction offsets as [|e offsets IH]; cbn [add_offsets]; [reflexivity|].
  destruct (fst e =? i)%N eqn:Ei.
  - rewrite !find_offsets_cons. cbn [fst snd].
    apply N.eqb_eq in Ei. rewrite Ei.
    destruct (i =? Index)%N eqn:E; [reflexivity|].
    now destruct (find_offsets offsets Index).
  - rewrite !find_offsets_cons.
    destruct (fst e =? Index)%N eqn:E.
    + destruct (i =? Index)%N eqn:E'; [|reflexivity].
      apply N.eqb_eq in E, E'. apply N.eqb_neq in Ei. congruence.
    + exact IH.
Qed.

Lemma offsets_at_SetIsTouching r i o Index :
  same_offsets (offsets_at (SetIsTouching r i o) Index)
               (pass Index (offsets_at r Index) (i, o)).
Proof.
  unfold offsets_at, GetOffsets, SetIsTouching, pass. cbn [mOffsets fst snd].
  destruct (find_offsets (mOffsets r) i) as [e|] eqn:Ei.
  - rewrite find_add_offsets.
    destruct (i =? Index)%N eqn:E.
    + apply N.eqb_eq in E. subst i. rewrite Ei. apply same_offsets_refl.
    + destruct (find_offsets (mOffsets r) Index); apply same_offsets_refl.
  - rewrite find_offsets_app. cbn [fst snd].
    destruct (i =? Index)%N eqn:E.
    + apply N.eqb_eq in E. subst i. rewrite Ei. cbn [fst].
      unfold same_offsets, same_point, Add. cbn [fst snd px py pz].
      repeat split; lra.
    + destruct (find_offsets (mOffsets r) Index); apply same_offsets_refl.
Qed.

Lemma offsets_at_touch_all calls Index : forall r,
  same_offsets (offsets_at (touch_all r calls) Index)
               (fold_left (pass Index) calls (offsets_at r Index)).
Proof.
  induction calls as [|[i o] calls IH]; intros r; [apply same_offsets_refl|].
  cbn [touch_all fold_left fst snd].
  eapply same_offsets_trans; [apply (IH (SetIsTouching r i o))|].
  apply fold_pass_same, offsets_at_SetIsTouching.
Qed.

Lemma IsTouching_touch_all calls Index : forall r,
  Forall (fun call => (N.to_nat (fst call) < length (mContainsBoundary r))%nat) calls ->
  IsTouching (touch_all r calls) Index
  = existsb (fun call => (fst call =? Index)%N) calls || IsTouching r Index.
Proof.
  induction calls as [|[i o] calls IH]; intros r H; [reflexivity|].
  inversion H as [|? ? Hi Hrest]; subst. cbn [fst] in Hi.
  cbn [touch_all fold_left fst snd existsb].
  change (fold_left _ calls ?r') with (touch_all r' calls).
  rewrite IH.
  - unfold IsTouching. cbn [SetIsTouching mContainsBoundary].
    rewrite nth_assign_at by exact Hi.
    destruct (i =? Index)%N eqn:E.
    + apply N.eqb_eq in E. subst. rewrite Nat.eqb_refl.
      now rewrite orb_true_r.
    + assert (E' : (N.to_nat i =? N.to_nat Index)%nat = false).
      { apply Nat.eqb_neq. apply N.eqb_neq in E. lia. }
      now rewrite E'.
  - cbn [SetIsTouching mContainsBoundary]. now rewrite assign_at_length.
Qed.

Lemma mStates_touch_all calls : forall r, mStates (touch_all r calls) = mStates r.
Proof.
  induction calls as [|call calls IH]; intros r; [reflexivity|].
  cbn [touch_all fold_left].
  change (fold_left _ calls ?r') with (touch_all r' calls). now rewrite IH.
Qed.


End FloodFillTheory.

(** ** Sample runs *)

Module SampleRuns.

Import MomentFitting MomentFittingTheory VoxelIndexing VoxelIndexingTheory.
Import QuESo QuESoTheory Mesh Samples.

(** Comparisons of closed rationals. *)
Ltac closed_lt := vm_compute; reflexivity.
Ltac closed_le := vm_compute; discriminate.

(** A run of [PointElimination] on sixteen seeded points: the first round
    cuts them to eight, four rounds remove the lightest point each, and the
    sixth round, with four points, removes none and ends the loop. *)
Example PointElimination_sample_run :
  option_map (fun out => (rounds_of out, map GetWeight (element_points out)))
    (PointElimination (kernel 0 harmonic_weights) parameters origin corner []
                      (line_points 2 (2, 2, 2)%N) [])
  = Some (6%nat, [1; 1 # 2; 1 # 3; 1 # 4]).
Proof. vm_compute. reflexivity. Qed.

(** The fitting on the sample: one attempt, seeded from level two. *)
Example CreateIntegrationPointsTrimmed_sample_run :
  option_map (fun ft => (iteration ft, point_distribution_factor ft,
                         map GetWeight (MomentFitting.GetIntegrationPoints ft)))
    (CreateIntegrationPointsTrimmed (kernel 0 harmonic_weights) parameters
       origin corner 5 [] 0%N [])
  = Some (1%N, 4%N, [1; 1 # 2; 1 # 3; 1 # 4]).
Proof. vm_compute. reflexivity. Qed.




(** With a solver that fits, both cells are published: the inside one with
    the one-point rule, the trimmed one with four points. *)
Example Compute_sample_run :
  option_map (map (fun e => (GetId e, IsTrimmed e,
                             map (fun p => Qred (GetWeight p))
                                 (GetIntegrationPoints e))))
             (Compute (model 0) 5)
  = Some [(1%N, false, [1 # 2]); (2%N, true, [1; 1 # 2; 1 # 3; 1 # 4])].
Proof. vm_compute. reflexivity. Qed.

(** With a solver whose residual, [1/8], stays above the cutoff, each of the
    four attempts clears the points and the trimmed cell is not published. *)
Example Compute_sample_run_poor_fit :
  option_map (map (fun e => (GetId e, IsTrimmed e,
                             map (fun p => Qred (GetWeight p))
                                 (GetIntegrationPoints e))))
             (Compute (model 1) 20)
  = Some [(1%N, false, [1 # 2])].
Proof. vm_compute. reflexivity. Qed.

Lemma model_tables_positive norm order method :
  Forall (fun ip => 0 < snd ip) (GetGauss (model norm) order method).
Proof. repeat constructor. Qed.

Lemma model_has_extent norm : has_extent (mBoundUVW (mMapper (model norm))).
Proof. repeat split; intros H; vm_compute in H; discriminate. Qed.




(** C10, an instance: the empty mesh. *)
Lemma sample_empty_mesh_is_inside :
  TrimmedDomain.IsInsideTrimmedDomain grazing_geometry Clear tt (mkPoint 0 0 1)
  = TrimmedDomain.Returns true.
Proof.
  apply (TrimmedDomainTheory.empty_clipped_mesh_is_inside grazing_geometry Clear tt).
  reflexivity.
Defined.

Lemma ltd_irrefl (x : double) : ltd x x = false.
Proof. apply ltd_ge. apply Qle_refl. Qed.

Lemma lexicographic_irrefl (p : Vector3d) : lexicographic p p = false.
Proof. unfold lexicographic. now rewrite !ltd_irrefl. Qed.

(** Reading the two triangles stores four vertices, two triangles over
    them and two normals. *)
Example ReadFacets_sample_run :
  let mesh := IO.rTriangleMesh (IO.ReadFacets reader [lower_triangle; upper_triangle]) in
  NumOfVertices mesh = 4%nat
  /\ GetTriangles mesh = [(0, 1, 2); (1, 3, 2)]%nat
  /\ map (fun n => (Qred (px n), Qred (py n), Qred (pz n))) (GetNormals mesh)
     = [(0, 0, 1); (0, 0, 1)].
Proof. vm_compute. repeat split. Qed.



Example STLIsInASCIIFormat_sample_runs :
  IO.STLIsInASCIIFormat keywords = true
  /\ IO.STLIsInASCIIFormat capital_keywords = true
  /\ IO.STLIsInASCIIFormat (repeat " "%char 256 ++ keywords) = false.
Proof. vm_compute. repeat split. Qed.

(** C7, the claim as stated fails: the keywords lie behind the first 80
    bytes, where the criterion of the claim does not see them, and the file
    is read as ASCII. *)
Lemma keywords_after_80_bytes_are_seen :
  IO.first_80_bytes_say_ascii late_keywords = false
  /\ IO.STLIsInASCIIFormat late_keywords = true
  /\ NumOfTriangles (IO.ReadMeshFromSTL reader late_keywords) = 1%nat
  /\ NumOfTriangles (IO.ReadMeshFromSTL_Binary reader late_keywords) = 0%nat.
Proof. vm_compute. repeat split. Qed.

End SampleRuns.

(** ** More sample runs *)

Module MoreSampleRuns.

Import MomentFitting VoxelIndexing QuESo Mesh Samples MoreSamples SampleRuns.

(** *** The grid *)

(** X1, an instance: cell (1, 2, 3) of a grid of [4 x 5 x 6] cells. *)
Lemma sample_matrix_indices_are_recovered :
  GetVectorIndexFromMatrixIndices 1%N 2%N 3%N (4, 5, 6)%N = 69%N
  /\ GetMatrixIndicesFromVectorIndex 69%N (4, 5, 6)%N = (1, 2, 3)%N.
Proof.
  destruct (VoxelIndexingRoundTrips.matrix_indices_are_recovered_from_the_vector_index
              1%N 2%N 3%N (4, 5, 6)%N) as [_ H]; try (vm_compute; reflexivity).
  split; [vm_compute; reflexivity | exact H].
Defined.

(** X2, an instance: index 69 of that grid. *)
Lemma sample_vector_index_is_recovered :
  GetVectorIndexFromMatrixIndices_v (GetMatrixIndicesFromVectorIndex 69%N (4, 5, 6)%N)
                                    (4, 5, 6)%N
  = 69%N.
Proof.
  destruct (VoxelIndexingRoundTrips.vector_index_is_recovered_from_the_matrix_indices
              69%N (4, 5, 6)%N) as (_ & _ & _ & H).
  - unfold proper_grid. cbn [nx ny nz fst snd]. repeat split.
  - vm_compute. reflexivity.
  - exact H.
Defined.

Lemma unit_cube_ordered : ordered (origin, corner).
Proof. unfold ordered. cbn [fst snd origin corner px py pz]. repeat split; closed_le. Qed.


(** *** The driver *)

Lemma model_tables_within_unit norm order method :
  within_unit (GetGauss (model norm) order method).
Proof.
  unfold within_unit. constructor; [|constructor].
  cbn [fst]. split; closed_le.
Qed.

(** X6, an instance: the one-point rule on the unit cube. *)
Lemma sample_tensor_rule_stays_in_the_box :
  Forall (fun p => in_box (mkPoint (PX p) (PY p) (PZ p)) (origin, corner))
         (AssembleIPs (model 0) origin corner (1, 1, 1)%N tt).
Proof.
  apply (QuESoElements.tensor_rule_stays_in_the_box (model 0) origin corner
           (1, 1, 1)%N tt).
  - apply unit_cube_ordered.
  - apply model_tables_within_unit.
  - apply model_tables_within_unit.
  - apply model_tables_within_unit.
Defined.

(** X7, an instance: the ids of the sample driver differ. *)
Lemma sample_published_elements_are_cells_of_the_grid :
  exists container,
    Compute (model 0) 5 = Some container /\ NoDup (map GetId container).
Proof.
  destruct (Compute (model 0) 5) as [c|] eqn:E.
  - exists c. split; [reflexivity|].
    destruct (QuESoElements.published_elements_are_cells_of_the_grid (model 0) 5 c E)
      as [H _].
    exact H.
  - vm_compute in E. discriminate.
Defined.

(** X8, an instance: the trimmed element of the sample driver holds its
    domain. *)
Lemma sample_trimmed_elements_hold_their_trimmed_domain :
  exists container,
    Compute (model 0) 5 = Some container
    /\ Forall (fun e => IsTrimmed e = true ->
                        exists d, Element_pGetTrimmedDomain e = Domain d)
              container.
Proof.
  destruct (Compute (model 0) 5) as [c|] eqn:E.
  - exists c. split; [reflexivity|].
    pose proof (QuESoElements.trimmed_elements_hold_their_trimmed_domain (model 0) 5 c E)
      as H.
    eapply Forall_impl; [|exact H].
    intros e [Ht _] Htrimmed. destruct (Ht Htrimmed) as (d & Hd & _).
    now exists d.
  - vm_compute in E. discriminate.
Defined.

(** X9, an instance: the sample driver with the embedding flag off. *)
Lemma sample_without_embedding_every_cell_is_published :
  exists container,
    Compute model_without_embedding 5 = Some container
    /\ Permutation (map GetId container) [1%N; 2%N]
    /\ Forall (fun e => IsTrimmed e = false) container.
Proof.
  apply (QuESoElements.without_embedding_every_cell_is_published
           model_without_embedding 5).
  reflexivity.
Defined.


(** *** Moment fitting *)



(** X13, an instance: five points are asked for and none is given. *)
Lemma sample_seeding_returns_enough_points :
  exists rOctree' pts',
    DistributeIntegrationPoints (kernel 0 harmonic_weights) parameters 5%nat 0%N [] 5%N
    = Some (rOctree', pts')
    /\ (5 <= size pts')%N.
Proof.
  destruct (DistributeIntegrationPoints (kernel 0 harmonic_weights) parameters 5%nat 0%N [] 5%N)
    as [[rOctree' pts']|] eqn:E.
  - exists rOctree', pts'. split; [reflexivity|].
    destruct (MomentFittingMore.seeding_returns_enough_points_of_the_last_refinement
                _ _ _ _ _ _ _ _ E) as [H _].
    exact H.
  - vm_compute in E. discriminate.
Defined.

(** *** The trimmed domain *)

(** X16, an instance: the nearer of two intersections is met from behind. *)
Lemma sample_clean_cast_decides_by_the_nearest_intersection :
  TrimmedDomain.IsInsideTrimmedDomain crossing_geometry two_triangles tt (mkPoint 0 0 5)
  = TrimmedDomain.Returns true.
Proof.
  destruct (TrimmedDomainCasts.a_clean_first_cast_decides_by_the_nearest_intersection
              crossing_geometry two_triangles tt (mkPoint 0 0 5))
    as [[H _] | (r & Hin & _ & _ & Hall & H)].
  - vm_compute. lia.
  - intros Hp. vm_compute in Hp. discriminate.
  - discriminate.
  - constructor; [|constructor; [|constructor]]; intros _;
      (split; [closed_le | split; [closed_le | split; closed_le]]).
  - vm_compute in H. discriminate.
  - destruct Hin as [<- | [<- | []]].
    + exfalso. inversion Hall as [|? ? _ Hrest]; subst.
      inversion Hrest as [|? ? Hle _]; subst.
      assert (Hhit : TrimmedDomain.hits crossing_geometry two_triangles
                       (TrimmedDomain.ray_towards crossing_geometry two_triangles
                          (mkPoint 0 0 5) 0) 1%nat) by (split; reflexivity).
      specialize (Hle Hhit). vm_compute in Hle. now apply Hle.
    + exact H.
Defined.

(** X18, an instance: the box of one triangle. *)
Lemma sample_bounding_box_is_spanned_by_vertices :
  let box := BoundingBox.GetBoundingBoxOfTrimmedDomain
               (inject_Z (10 ^ 308)) (- inject_Z (10 ^ 308)) one_triangle in
  Exists (fun v => px v = px (fst box)) (GetVertices one_triangle)
  /\ Exists (fun v => px v = px (snd box)) (GetVertices one_triangle).
Proof.
  cbv zeta.
  destruct (BoundingBoxTheory.bounding_box_is_spanned_by_vertices
              (inject_Z (10 ^ 308)) (- inject_Z (10 ^ 308)) one_triangle)
    as ((H1 & _) & (H2 & _)).
  - discriminate.
  - apply Forall_forall. intros v Hv.
    destruct Hv as [<- | [<- | [<- | []]]];
      (split; [split; closed_lt | split; split; closed_lt]).
  - split; [exact H1 | exact H2].
Defined.

(** *** STL files *)

(** X20, an instance: two vertices a tenth of the tolerance apart. *)
Lemma sample_vertices_within_the_tolerance_are_one_key :
  STL.same_key (1 # 10 ^ 10) origin (mkPoint (1 # 10 ^ 11) 0 0) = true.
Proof.
  apply (STLTheory.vertices_within_the_tolerance_are_one_key
           (1 # 10 ^ 10) origin (mkPoint (1 # 10 ^ 11) 0 0)).
  - closed_lt.
  - split; [closed_lt|]. left. split; [closed_lt | closed_le].
Defined.

(** X21, an instance: the tolerance [1e-10]. *)
Lemma sample_PointComparison_is_not_transitive :
  exists p q r : PointType,
    STL.PointComparison (1 # 10 ^ 10) p q = true
    /\ STL.PointComparison (1 # 10 ^ 10) q r = true
    /\ STL.PointComparison (1 # 10 ^ 10) p r = false
    /\ STL.same_key (1 # 10 ^ 10) p r = true.
Proof.
  apply (STLTheory.PointComparison_is_not_transitive (1 # 10 ^ 10)).
  closed_lt.
Defined.



(** X25, an instance: one triangle written and read back. *)
Lemma sample_binary_file_written_is_read_back :
  STL.ReadMeshFromSTL_Binary reader integer_of_bytes (fun _ => true) two_triangles
    (STL.WriteMeshToSTL no_text integer_bytes one_triangle true)
  = (true,
     IO.rTriangleMesh
       (IO.ReadFacets reader
          [STL.facet_written integer_bytes integer_of_bytes one_triangle 0])).
Proof.
  destruct (STLFiles.binary_file_written_is_read_back reader no_text integer_bytes
              integer_of_bytes (fun _ => true) (fun x => eq_refl)
              one_triangle two_triangles) as [_ H].
  - vm_compute. reflexivity.
  - exact H.
Defined.

(** *** The results of the flood fill *)


(** *** Parameters of the tests *)

Import String.

(** X28, an instance: a default that is not given and a value that is. *)
Lemma sample_defaults_fill_in_what_is_not_given :
  exists object,
    TestParameter.TestParameter given_components = inr object
    /\ TestParameter.GetValue TestParameter.typeid_bool "embedding_flag" object
       = inr (TestParameter.of_bool true)
    /\ TestParameter.GetValue TestParameter.typeid_IndexType "echo_level" object
       = inr (TestParameter.of_IndexType 3%N).
Proof.
  destruct (TestParameter.TestParameter given_components) as [e|object] eqn:E.
  - vm_compute in E. discriminate.
  - exists object. split; [reflexivity|].
    split;
      rewrite (TestParameterTheory.defaults_fill_in_what_is_not_given
                 given_components object _ _ E); reflexivity.
Defined.

End MoreSampleRuns.
